(** * Verification of the MCQ text parser of [app.py]

    The program extracts multiple-choice questions from text with four
    regular expressions ([QUESTION_BLOCK], [CLEAN_CORRECT_IN_OPTION],
    [URL_TRAILER] and the patterns inside [normalize_text]) and the
    functions [_clean], [normalize_text], [parse_questions_from_text] and
    [parse_any].  This file embeds them together with the part of Python's
    [re] and [str] they rely on, and proves properties of the result.

    Python strings are sequences of Unicode code points: a text is a list
    of code points ([N]).  Names that are identifiers of the program
    (group names, the option letters used as dictionary keys, exception
    messages) are Rocq strings. *)

From Stdlib Require Import ZArith NArith Lia Ascii String Sorted Permutation.
From stdpp Require Import gmap strings list.

Open Scope N_scope.
Open Scope list_scope.
Open Scope nat_scope.

(** ** Code points and the Unicode classes the patterns use *)

Abbreviation char := N.
Abbreviation str := (list N).

(** The number whose binary digits, most significant first, are [bs]. *)
Definition of_bits (bs : list bool) : N :=
  fold_left (fun n (b : bool) =>
               match n with
               | N0 => if b then Npos xH else N0
               | Npos p => Npos (if b then xI p else xO p)
               end) bs N0.

Definition code (a : ascii) : N :=
  match a with
  | Ascii b0 b1 b2 b3 b4 b5 b6 b7 => of_bits [b7; b6; b5; b4; b3; b2; b1; b0]
  end.

(** A Rocq string literal read as a Python string (one code point per
    character; the literals of this file are ASCII). *)
Definition py (s : string) : str :=
  map code (list_ascii_of_string s).

Definition NL : char := 10%N.
Definition CR : char := 13%N.
Definition FF : char := 12%N.

(** ["\n".join(parts)] *)
Fixpoint join_nl (parts : list str) : str :=
  match parts with
  | [] => []
  | [p] => p
  | p :: ps => p ++ NL :: join_nl ps
  end.

Module Unicode.

Definition in_ranges (tbl : list (N * N)) (c : char) : bool :=
  existsb (fun r => (fst r <=? c)%N && (c <=? snd r)%N) tbl.

(** [Py_UNICODE_ISSPACE]: what [\s] and [str.strip()] call whitespace. *)
Definition space_ranges : list (N * N) := [
  (0x9, 0xD); (0x1C, 0x20); (0x85, 0x85); (0xA0, 0xA0);
  (0x1680, 0x1680); (0x2000, 0x200A); (0x2028, 0x2029); (0x202F, 0x202F);
  (0x205F, 0x205F); (0x3000, 0x3000)
]%N.

(** [Py_UNICODE_ISDECIMAL] (category Nd, Unicode 14.0 as shipped with
    CPython 3.11): what [\d] matches and [int()] accepts.  Every range
    is a run of blocks 0..9, so the value of a digit is its offset in
    the range modulo ten. *)
Definition decimal_ranges : list (N * N) := [
  (0x30, 0x39); (0x660, 0x669); (0x6F0, 0x6F9); (0x7C0, 0x7C9);
  (0x966, 0x96F); (0x9E6, 0x9EF); (0xA66, 0xA6F); (0xAE6, 0xAEF);
  (0xB66, 0xB6F); (0xBE6, 0xBEF); (0xC66, 0xC6F); (0xCE6, 0xCEF);
  (0xD66, 0xD6F); (0xDE6, 0xDEF); (0xE50, 0xE59); (0xED0, 0xED9);
  (0xF20, 0xF29); (0x1040, 0x1049); (0x1090, 0x1099); (0x17E0, 0x17E9);
  (0x1810, 0x1819); (0x1946, 0x194F); (0x19D0, 0x19D9); (0x1A80, 0x1A89);
  (0x1A90, 0x1A99); (0x1B50, 0x1B59); (0x1BB0, 0x1BB9); (0x1C40, 0x1C49);
  (0x1C50, 0x1C59); (0xA620, 0xA629); (0xA8D0, 0xA8D9); (0xA900, 0xA909);
  (0xA9D0, 0xA9D9); (0xA9F0, 0xA9F9); (0xAA50, 0xAA59); (0xABF0, 0xABF9);
  (0xFF10, 0xFF19); (0x104A0, 0x104A9); (0x10D30, 0x10D39); (0x11066, 0x1106F);
  (0x110F0, 0x110F9); (0x11136, 0x1113F); (0x111D0, 0x111D9); (0x112F0, 0x112F9);
  (0x11450, 0x11459); (0x114D0, 0x114D9); (0x11650, 0x11659); (0x116C0, 0x116C9);
  (0x11730, 0x11739); (0x118E0, 0x118E9); (0x11950, 0x11959); (0x11C50, 0x11C59);
  (0x11D50, 0x11D59); (0x11DA0, 0x11DA9); (0x16A60, 0x16A69); (0x16AC0, 0x16AC9);
  (0x16B50, 0x16B59); (0x1D7CE, 0x1D7FF); (0x1E140, 0x1E149); (0x1E2F0, 0x1E2F9);
  (0x1E950, 0x1E959); (0x1FBF0, 0x1FBF9)
]%N.

(** [Py_UNICODE_ISALNUM] or underscore (Unicode 14.0): the word
    characters of [\b]. *)
Definition word_ranges : list (N * N) := [
  (0x30, 0x39); (0x41, 0x5A); (0x5F, 0x5F); (0x61, 0x7A); (0xAA, 0xAA);
  (0xB2, 0xB3); (0xB5, 0xB5); (0xB9, 0xBA); (0xBC, 0xBE); (0xC0, 0xD6);
  (0xD8, 0xF6); (0xF8, 0x2C1); (0x2C6, 0x2D1); (0x2E0, 0x2E4); (0x2EC, 0x2EC);
  (0x2EE, 0x2EE); (0x370, 0x374); (0x376, 0x377); (0x37A, 0x37D); (0x37F, 0x37F);
  (0x386, 0x386); (0x388, 0x38A); (0x38C, 0x38C); (0x38E, 0x3A1); (0x3A3, 0x3F5);
  (0x3F7, 0x481); (0x48A, 0x52F); (0x531, 0x556); (0x559, 0x559); (0x560, 0x588);
  (0x5D0, 0x5EA); (0x5EF, 0x5F2); (0x620, 0x64A); (0x660, 0x669); (0x66E, 0x66F);
  (0x671, 0x6D3); (0x6D5, 0x6D5); (0x6E5, 0x6E6); (0x6EE, 0x6FC); (0x6FF, 0x6FF);
  (0x710, 0x710); (0x712, 0x72F); (0x74D, 0x7A5); (0x7B1, 0x7B1); (0x7C0, 0x7EA);
  (0x7F4, 0x7F5); (0x7FA, 0x7FA); (0x800, 0x815); (0x81A, 0x81A); (0x824, 0x824);
  (0x828, 0x828); (0x840, 0x858); (0x860, 0x86A); (0x870, 0x887); (0x889, 0x88E);
  (0x8A0, 0x8C9); (0x904, 0x939); (0x93D, 0x93D); (0x950, 0x950); (0x958, 0x961);
  (0x966, 0x96F); (0x971, 0x980); (0x985, 0x98C); (0x98F, 0x990); (0x993, 0x9A8);
  (0x9AA, 0x9B0); (0x9B2, 0x9B2); (0x9B6, 0x9B9); (0x9BD, 0x9BD); (0x9CE, 0x9CE);
  (0x9DC, 0x9DD); (0x9DF, 0x9E1); (0x9E6, 0x9F1); (0x9F4, 0x9F9); (0x9FC, 0x9FC);
  (0xA05, 0xA0A); (0xA0F, 0xA10); (0xA13, 0xA28); (0xA2A, 0xA30); (0xA32, 0xA33);
  (0xA35, 0xA36); (0xA38, 0xA39); (0xA59, 0xA5C); (0xA5E, 0xA5E); (0xA66, 0xA6F);
  (0xA72, 0xA74); (0xA85, 0xA8D); (0xA8F, 0xA91); (0xA93, 0xAA8); (0xAAA, 0xAB0);
  (0xAB2, 0xAB3); (0xAB5, 0xAB9); (0xABD, 0xABD); (0xAD0, 0xAD0); (0xAE0, 0xAE1);
  (0xAE6, 0xAEF); (0xAF9, 0xAF9); (0xB05, 0xB0C); (0xB0F, 0xB10); (0xB13, 0xB28);
  (0xB2A, 0xB30); (0xB32, 0xB33); (0xB35, 0xB39); (0xB3D, 0xB3D); (0xB5C, 0xB5D);
  (0xB5F, 0xB61); (0xB66, 0xB6F); (0xB71, 0xB77); (0xB83, 0xB83); (0xB85, 0xB8A);
  (0xB8E, 0xB90); (0xB92, 0xB95); (0xB99, 0xB9A); (0xB9C, 0xB9C); (0xB9E, 0xB9F);
  (0xBA3, 0xBA4); (0xBA8, 0xBAA); (0xBAE, 0xBB9); (0xBD0, 0xBD0); (0xBE6, 0xBF2);
  (0xC05, 0xC0C); (0xC0E, 0xC10); (0xC12, 0xC28); (0xC2A, 0xC39); (0xC3D, 0xC3D);
  (0xC58, 0xC5A); (0xC5D, 0xC5D); (0xC60, 0xC61); (0xC66, 0xC6F); (0xC78, 0xC7E);
  (0xC80, 0xC80); (0xC85, 0xC8C); (0xC8E, 0xC90); (0xC92, 0xCA8); (0xCAA, 0xCB3);
  (0xCB5, 0xCB9); (0xCBD, 0xCBD); (0xCDD, 0xCDE); (0xCE0, 0xCE1); (0xCE6, 0xCEF);
  (0xCF1, 0xCF2); (0xD04, 0xD0C); (0xD0E, 0xD10); (0xD12, 0xD3A); (0xD3D, 0xD3D);
  (0xD4E, 0xD4E); (0xD54, 0xD56); (0xD58, 0xD61); (0xD66, 0xD78); (0xD7A, 0xD7F);
  (0xD85, 0xD96); (0xD9A, 0xDB1); (0xDB3, 0xDBB); (0xDBD, 0xDBD); (0xDC0, 0xDC6);
  (0xDE6, 0xDEF); (0xE01, 0xE30); (0xE32, 0xE33); (0xE40, 0xE46); (0xE50, 0xE59);
  (0xE81, 0xE82); (0xE84, 0xE84); (0xE86, 0xE8A); (0xE8C, 0xEA3); (0xEA5, 0xEA5);
  (0xEA7, 0xEB0); (0xEB2, 0xEB3); (0xEBD, 0xEBD); (0xEC0, 0xEC4); (0xEC6, 0xEC6);
  (0xED0, 0xED9); (0xEDC, 0xEDF); (0xF00, 0xF00); (0xF20, 0xF33); (0xF40, 0xF47);
  (0xF49, 0xF6C); (0xF88, 0xF8C); (0x1000, 0x102A); (0x103F, 0x1049); (0x1050, 0x1055);
  (0x105A, 0x105D); (0x1061, 0x1061); (0x1065, 0x1066); (0x106E, 0x1070); (0x1075, 0x1081);
  (0x108E, 0x108E); (0x1090, 0x1099); (0x10A0, 0x10C5); (0x10C7, 0x10C7); (0x10CD, 0x10CD);
  (0x10D0, 0x10FA); (0x10FC, 0x1248); (0x124A, 0x124D); (0x1250, 0x1256); (0x1258, 0x1258);
  (0x125A, 0x125D); (0x1260, 0x1288); (0x128A, 0x128D); (0x1290, 0x12B0); (0x12B2, 0x12B5);
  (0x12B8, 0x12BE); (0x12C0, 0x12C0); (0x12C2, 0x12C5); (0x12C8, 0x12D6); (0x12D8, 0x1310);
  (0x1312, 0x1315); (0x1318, 0x135A); (0x1369, 0x137C); (0x1380, 0x138F); (0x13A0, 0x13F5);
  (0x13F8, 0x13FD); (0x1401, 0x166C); (0x166F, 0x167F); (0x1681, 0x169A); (0x16A0, 0x16EA);
  (0x16EE, 0x16F8); (0x1700, 0x1711); (0x171F, 0x1731); (0x1740, 0x1751); (0x1760, 0x176C);
  (0x176E, 0x1770); (0x1780, 0x17B3); (0x17D7, 0x17D7); (0x17DC, 0x17DC); (0x17E0, 0x17E9);
  (0x17F0, 0x17F9); (0x1810, 0x1819); (0x1820, 0x1878); (0x1880, 0x1884); (0x1887, 0x18A8);
  (0x18AA, 0x18AA); (0x18B0, 0x18F5); (0x1900, 0x191E); (0x1946, 0x196D); (0x1970, 0x1974);
  (0x1980, 0x19AB); (0x19B0, 0x19C9); (0x19D0, 0x19DA); (0x1A00, 0x1A16); (0x1A20, 0x1A54);
  (0x1A80, 0x1A89); (0x1A90, 0x1A99); (0x1AA7, 0x1AA7); (0x1B05, 0x1B33); (0x1B45, 0x1B4C);
  (0x1B50, 0x1B59); (0x1B83, 0x1BA0); (0x1BAE, 0x1BE5); (0x1C00, 0x1C23); (0x1C40, 0x1C49);
  (0x1C4D, 0x1C7D); (0x1C80, 0x1C88); (0x1C90, 0x1CBA); (0x1CBD, 0x1CBF); (0x1CE9, 0x1CEC);
  (0x1CEE, 0x1CF3); (0x1CF5, 0x1CF6); (0x1CFA, 0x1CFA); (0x1D00, 0x1DBF); (0x1E00, 0x1F15);
  (0x1F18, 0x1F1D); (0x1F20, 0x1F45); (0x1F48, 0x1F4D); (0x1F50, 0x1F57); (0x1F59, 0x1F59);
  (0x1F5B, 0x1F5B); (0x1F5D, 0x1F5D); (0x1F5F, 0x1F7D); (0x1F80, 0x1FB4); (0x1FB6, 0x1FBC);
  (0x1FBE, 0x1FBE); (0x1FC2, 0x1FC4); (0x1FC6, 0x1FCC); (0x1FD0, 0x1FD3); (0x1FD6, 0x1FDB);
  (0x1FE0, 0x1FEC); (0x1FF2, 0x1FF4); (0x1FF6, 0x1FFC); (0x2070, 0x2071); (0x2074, 0x2079);
  (0x207F, 0x2089); (0x2090, 0x209C); (0x2102, 0x2102); (0x2107, 0x2107); (0x210A, 0x2113);
  (0x2115, 0x2115); (0x2119, 0x211D); (0x2124, 0x2124); (0x2126, 0x2126); (0x2128, 0x2128);
  (0x212A, 0x212D); (0x212F, 0x2139); (0x213C, 0x213F); (0x2145, 0x2149); (0x214E, 0x214E);
  (0x2150, 0x2189); (0x2460, 0x249B); (0x24EA, 0x24FF); (0x2776, 0x2793); (0x2C00, 0x2CE4);
  (0x2CEB, 0x2CEE); (0x2CF2, 0x2CF3); (0x2CFD, 0x2CFD); (0x2D00, 0x2D25); (0x2D27, 0x2D27);
  (0x2D2D, 0x2D2D); (0x2D30, 0x2D67); (0x2D6F, 0x2D6F); (0x2D80, 0x2D96); (0x2DA0, 0x2DA6);
  (0x2DA8, 0x2DAE); (0x2DB0, 0x2DB6); (0x2DB8, 0x2DBE); (0x2DC0, 0x2DC6); (0x2DC8, 0x2DCE);
  (0x2DD0, 0x2DD6); (0x2DD8, 0x2DDE); (0x2E2F, 0x2E2F); (0x3005, 0x3007); (0x3021, 0x3029);
  (0x3031, 0x3035); (0x3038, 0x303C); (0x3041, 0x3096); (0x309D, 0x309F); (0x30A1, 0x30FA);
  (0x30FC, 0x30FF); (0x3105, 0x312F); (0x3131, 0x318E); (0x3192, 0x3195); (0x31A0, 0x31BF);
  (0x31F0, 0x31FF); (0x3220, 0x3229); (0x3248, 0x324F); (0x3251, 0x325F); (0x3280, 0x3289);
  (0x32B1, 0x32BF); (0x3400, 0x4DBF); (0x4E00, 0xA48C); (0xA4D0, 0xA4FD); (0xA500, 0xA60C);
  (0xA610, 0xA62B); (0xA640, 0xA66E); (0xA67F, 0xA69D); (0xA6A0, 0xA6EF); (0xA717, 0xA71F);
  (0xA722, 0xA788); (0xA78B, 0xA7CA); (0xA7D0, 0xA7D1); (0xA7D3, 0xA7D3); (0xA7D5, 0xA7D9);
  (0xA7F2, 0xA801); (0xA803, 0xA805); (0xA807, 0xA80A); (0xA80C, 0xA822); (0xA830, 0xA835);
  (0xA840, 0xA873); (0xA882, 0xA8B3); (0xA8D0, 0xA8D9); (0xA8F2, 0xA8F7); (0xA8FB, 0xA8FB);
  (0xA8FD, 0xA8FE); (0xA900, 0xA925); (0xA930, 0xA946); (0xA960, 0xA97C); (0xA984, 0xA9B2);
  (0xA9CF, 0xA9D9); (0xA9E0, 0xA9E4); (0xA9E6, 0xA9FE); (0xAA00, 0xAA28); (0xAA40, 0xAA42);
  (0xAA44, 0xAA4B); (0xAA50, 0xAA59); (0xAA60, 0xAA76); (0xAA7A, 0xAA7A); (0xAA7E, 0xAAAF);
  (0xAAB1, 0xAAB1); (0xAAB5, 0xAAB6); (0xAAB9, 0xAABD); (0xAAC0, 0xAAC0); (0xAAC2, 0xAAC2);
  (0xAADB, 0xAADD); (0xAAE0, 0xAAEA); (0xAAF2, 0xAAF4); (0xAB01, 0xAB06); (0xAB09, 0xAB0E);
  (0xAB11, 0xAB16); (0xAB20, 0xAB26); (0xAB28, 0xAB2E); (0xAB30, 0xAB5A); (0xAB5C, 0xAB69);
  (0xAB70, 0xABE2); (0xABF0, 0xABF9); (0xAC00, 0xD7A3); (0xD7B0, 0xD7C6); (0xD7CB, 0xD7FB);
  (0xF900, 0xFA6D); (0xFA70, 0xFAD9); (0xFB00, 0xFB06); (0xFB13, 0xFB17); (0xFB1D, 0xFB1D);
  (0xFB1F, 0xFB28); (0xFB2A, 0xFB36); (0xFB38, 0xFB3C); (0xFB3E, 0xFB3E); (0xFB40, 0xFB41);
  (0xFB43, 0xFB44); (0xFB46, 0xFBB1); (0xFBD3, 0xFD3D); (0xFD50, 0xFD8F); (0xFD92, 0xFDC7);
  (0xFDF0, 0xFDFB); (0xFE70, 0xFE74); (0xFE76, 0xFEFC); (0xFF10, 0xFF19); (0xFF21, 0xFF3A);
  (0xFF41, 0xFF5A); (0xFF66, 0xFFBE); (0xFFC2, 0xFFC7); (0xFFCA, 0xFFCF); (0xFFD2, 0xFFD7);
  (0xFFDA, 0xFFDC); (0x10000, 0x1000B); (0x1000D, 0x10026); (0x10028, 0x1003A); (0x1003C, 0x1003D);
  (0x1003F, 0x1004D); (0x10050, 0x1005D); (0x10080, 0x100FA); (0x10107, 0x10133); (0x10140, 0x10178);
  (0x1018A, 0x1018B); (0x10280, 0x1029C); (0x102A0, 0x102D0); (0x102E1, 0x102FB); (0x10300, 0x10323);
  (0x1032D, 0x1034A); (0x10350, 0x10375); (0x10380, 0x1039D); (0x103A0, 0x103C3); (0x103C8, 0x103CF);
  (0x103D1, 0x103D5); (0x10400, 0x1049D); (0x104A0, 0x104A9); (0x104B0, 0x104D3); (0x104D8, 0x104FB);
  (0x10500, 0x10527); (0x10530, 0x10563); (0x10570, 0x1057A); (0x1057C, 0x1058A); (0x1058C, 0x10592);
  (0x10594, 0x10595); (0x10597, 0x105A1); (0x105A3, 0x105B1); (0x105B3, 0x105B9); (0x105BB, 0x105BC);
  (0x10600, 0x10736); (0x10740, 0x10755); (0x10760, 0x10767); (0x10780, 0x10785); (0x10787, 0x107B0);
  (0x107B2, 0x107BA); (0x10800, 0x10805); (0x10808, 0x10808); (0x1080A, 0x10835); (0x10837, 0x10838);
  (0x1083C, 0x1083C); (0x1083F, 0x10855); (0x10858, 0x10876); (0x10879, 0x1089E); (0x108A7, 0x108AF);
  (0x108E0, 0x108F2); (0x108F4, 0x108F5); (0x108FB, 0x1091B); (0x10920, 0x10939); (0x10980, 0x109B7);
  (0x109BC, 0x109CF); (0x109D2, 0x10A00); (0x10A10, 0x10A13); (0x10A15, 0x10A17); (0x10A19, 0x10A35);
  (0x10A40, 0x10A48); (0x10A60, 0x10A7E); (0x10A80, 0x10A9F); (0x10AC0, 0x10AC7); (0x10AC9, 0x10AE4);
  (0x10AEB, 0x10AEF); (0x10B00, 0x10B35); (0x10B40, 0x10B55); (0x10B58, 0x10B72); (0x10B78, 0x10B91);
  (0x10BA9, 0x10BAF); (0x10C00, 0x10C48); (0x10C80, 0x10CB2); (0x10CC0, 0x10CF2); (0x10CFA, 0x10D23);
  (0x10D30, 0x10D39); (0x10E60, 0x10E7E); (0x10E80, 0x10EA9); (0x10EB0, 0x10EB1); (0x10F00, 0x10F27);
  (0x10F30, 0x10F45); (0x10F51, 0x10F54); (0x10F70, 0x10F81); (0x10FB0, 0x10FCB); (0x10FE0, 0x10FF6);
  (0x11003, 0x11037); (0x11052, 0x1106F); (0x11071, 0x11072); (0x11075, 0x11075); (0x11083, 0x110AF);
  (0x110D0, 0x110E8); (0x110F0, 0x110F9); (0x11103, 0x11126); (0x11136, 0x1113F); (0x11144, 0x11144);
  (0x11147, 0x11147); (0x11150, 0x11172); (0x11176, 0x11176); (0x11183, 0x111B2); (0x111C1, 0x111C4);
  (0x111D0, 0x111DA); (0x111DC, 0x111DC); (0x111E1, 0x111F4); (0x11200, 0x11211); (0x11213, 0x1122B);
  (0x11280, 0x11286); (0x11288, 0x11288); (0x1128A, 0x1128D); (0x1128F, 0x1129D); (0x1129F, 0x112A8);
  (0x112B0, 0x112DE); (0x112F0, 0x112F9); (0x11305, 0x1130C); (0x1130F, 0x11310); (0x11313, 0x11328);
  (0x1132A, 0x11330); (0x11332, 0x11333); (0x11335, 0x11339); (0x1133D, 0x1133D); (0x11350, 0x11350);
  (0x1135D, 0x11361); (0x11400, 0x11434); (0x11447, 0x1144A); (0x11450, 0x11459); (0x1145F, 0x11461);
  (0x11480, 0x114AF); (0x114C4, 0x114C5); (0x114C7, 0x114C7); (0x114D0, 0x114D9); (0x11580, 0x115AE);
  (0x115D8, 0x115DB); (0x11600, 0x1162F); (0x11644, 0x11644); (0x11650, 0x11659); (0x11680, 0x116AA);
  (0x116B8, 0x116B8); (0x116C0, 0x116C9); (0x11700, 0x1171A); (0x11730, 0x1173B); (0x11740, 0x11746);
  (0x11800, 0x1182B); (0x118A0, 0x118F2); (0x118FF, 0x11906); (0x11909, 0x11909); (0x1190C, 0x11913);
  (0x11915, 0x11916); (0x11918, 0x1192F); (0x1193F, 0x1193F); (0x11941, 0x11941); (0x11950, 0x11959);
  (0x119A0, 0x119A7); (0x119AA, 0x119D0); (0x119E1, 0x119E1); (0x119E3, 0x119E3); (0x11A00, 0x11A00);
  (0x11A0B, 0x11A32); (0x11A3A, 0x11A3A); (0x11A50, 0x11A50); (0x11A5C, 0x11A89); (0x11A9D, 0x11A9D);
  (0x11AB0, 0x11AF8); (0x11C00, 0x11C08); (0x11C0A, 0x11C2E); (0x11C40, 0x11C40); (0x11C50, 0x11C6C);
  (0x11C72, 0x11C8F); (0x11D00, 0x11D06); (0x11D08, 0x11D09); (0x11D0B, 0x11D30); (0x11D46, 0x11D46);
  (0x11D50, 0x11D59); (0x11D60, 0x11D65); (0x11D67, 0x11D68); (0x11D6A, 0x11D89); (0x11D98, 0x11D98);
  (0x11DA0, 0x11DA9); (0x11EE0, 0x11EF2); (0x11FB0, 0x11FB0); (0x11FC0, 0x11FD4); (0x12000, 0x12399);
  (0x12400, 0x1246E); (0x12480, 0x12543); (0x12F90, 0x12FF0); (0x13000, 0x1342E); (0x14400, 0x14646);
  (0x16800, 0x16A38); (0x16A40, 0x16A5E); (0x16A60, 0x16A69); (0x16A70, 0x16ABE); (0x16AC0, 0x16AC9);
  (0x16AD0, 0x16AED); (0x16B00, 0x16B2F); (0x16B40, 0x16B43); (0x16B50, 0x16B59); (0x16B5B, 0x16B61);
  (0x16B63, 0x16B77); (0x16B7D, 0x16B8F); (0x16E40, 0x16E96); (0x16F00, 0x16F4A); (0x16F50, 0x16F50);
  (0x16F93, 0x16F9F); (0x16FE0, 0x16FE1); (0x16FE3, 0x16FE3); (0x17000, 0x187F7); (0x18800, 0x18CD5);
  (0x18D00, 0x18D08); (0x1AFF0, 0x1AFF3); (0x1AFF5, 0x1AFFB); (0x1AFFD, 0x1AFFE); (0x1B000, 0x1B122);
  (0x1B150, 0x1B152); (0x1B164, 0x1B167); (0x1B170, 0x1B2FB); (0x1BC00, 0x1BC6A); (0x1BC70, 0x1BC7C);
  (0x1BC80, 0x1BC88); (0x1BC90, 0x1BC99); (0x1D2E0, 0x1D2F3); (0x1D360, 0x1D378); (0x1D400, 0x1D454);
  (0x1D456, 0x1D49C); (0x1D49E, 0x1D49F); (0x1D4A2, 0x1D4A2); (0x1D4A5, 0x1D4A6); (0x1D4A9, 0x1D4AC);
  (0x1D4AE, 0x1D4B9); (0x1D4BB, 0x1D4BB); (0x1D4BD, 0x1D4C3); (0x1D4C5, 0x1D505); (0x1D507, 0x1D50A);
  (0x1D50D, 0x1D514); (0x1D516, 0x1D51C); (0x1D51E, 0x1D539); (0x1D53B, 0x1D53E); (0x1D540, 0x1D544);
  (0x1D546, 0x1D546); (0x1D54A, 0x1D550); (0x1D552, 0x1D6A5); (0x1D6A8, 0x1D6C0); (0x1D6C2, 0x1D6DA);
  (0x1D6DC, 0x1D6FA); (0x1D6FC, 0x1D714); (0x1D716, 0x1D734); (0x1D736, 0x1D74E); (0x1D750, 0x1D76E);
  (0x1D770, 0x1D788); (0x1D78A, 0x1D7A8); (0x1D7AA, 0x1D7C2); (0x1D7C4, 0x1D7CB); (0x1D7CE, 0x1D7FF);
  (0x1DF00, 0x1DF1E); (0x1E100, 0x1E12C); (0x1E137, 0x1E13D); (0x1E140, 0x1E149); (0x1E14E, 0x1E14E);
  (0x1E290, 0x1E2AD); (0x1E2C0, 0x1E2EB); (0x1E2F0, 0x1E2F9); (0x1E7E0, 0x1E7E6); (0x1E7E8, 0x1E7EB);
  (0x1E7ED, 0x1E7EE); (0x1E7F0, 0x1E7FE); (0x1E800, 0x1E8C4); (0x1E8C7, 0x1E8CF); (0x1E900, 0x1E943);
  (0x1E94B, 0x1E94B); (0x1E950, 0x1E959); (0x1EC71, 0x1ECAB); (0x1ECAD, 0x1ECAF); (0x1ECB1, 0x1ECB4);
  (0x1ED01, 0x1ED2D); (0x1ED2F, 0x1ED3D); (0x1EE00, 0x1EE03); (0x1EE05, 0x1EE1F); (0x1EE21, 0x1EE22);
  (0x1EE24, 0x1EE24); (0x1EE27, 0x1EE27); (0x1EE29, 0x1EE32); (0x1EE34, 0x1EE37); (0x1EE39, 0x1EE39);
  (0x1EE3B, 0x1EE3B); (0x1EE42, 0x1EE42); (0x1EE47, 0x1EE47); (0x1EE49, 0x1EE49); (0x1EE4B, 0x1EE4B);
  (0x1EE4D, 0x1EE4F); (0x1EE51, 0x1EE52); (0x1EE54, 0x1EE54); (0x1EE57, 0x1EE57); (0x1EE59, 0x1EE59);
  (0x1EE5B, 0x1EE5B); (0x1EE5D, 0x1EE5D); (0x1EE5F, 0x1EE5F); (0x1EE61, 0x1EE62); (0x1EE64, 0x1EE64);
  (0x1EE67, 0x1EE6A); (0x1EE6C, 0x1EE72); (0x1EE74, 0x1EE77); (0x1EE79, 0x1EE7C); (0x1EE7E, 0x1EE7E);
  (0x1EE80, 0x1EE89); (0x1EE8B, 0x1EE9B); (0x1EEA1, 0x1EEA3); (0x1EEA5, 0x1EEA9); (0x1EEAB, 0x1EEBB);
  (0x1F100, 0x1F10C); (0x1FBF0, 0x1FBF9); (0x20000, 0x2A6DF); (0x2A700, 0x2B738); (0x2B740, 0x2B81D);
  (0x2B820, 0x2CEA1); (0x2CEB0, 0x2EBE0); (0x2F800, 0x2FA1D); (0x30000, 0x3134A)
]%N.

Definition is_space (c : char) : bool := in_ranges space_ranges c.
Definition is_decimal (c : char) : bool := in_ranges decimal_ranges c.
Definition is_word (c : char) : bool := in_ranges word_ranges c.

Fixpoint decimal_value_in (tbl : list (N * N)) (c : char) : N :=
  match tbl with
  | [] => 0
  | (lo, hi) :: tbl' =>
      if (lo <=? c)%N && (c <=? hi)%N then ((c - lo) mod 10)%N
      else decimal_value_in tbl' c
  end.

(** [Py_UNICODE_TODECIMAL] on a decimal digit. *)
Definition decimal_value (c : char) : N := decimal_value_in decimal_ranges c.

Definition is_ascii_upper (c : char) : bool := (0x41 <=? c)%N && (c <=? 0x5A)%N.
Definition is_ascii_lower (c : char) : bool := (0x61 <=? c)%N && (c <=? 0x7A)%N.

(** [unicode_tolower] of [_sre] on the code points it sends to a literal
    of this program's patterns: the ASCII capitals, U+0130 (to [i]),
    U+212A (to [k]) and, for the members U+00EF and U+0161 of the colon
    class, U+00CF and U+0160.  The literals are lowercase or caseless, no
    other code point lowers to one of them, so leaving every other code
    point alone keeps each comparison with a literal exact. *)
Definition lower_onto_literal (c : char) : char :=
  if is_ascii_upper c then (c + 32)%N
  else if (c =? 0x130)%N then 0x69%N
  else if (c =? 0x212A)%N then 0x6B%N
  else if (c =? 0xCF)%N then 0xEF%N
  else if (c =? 0x160)%N then 0x161%N
  else c.

(** The entries of [sre_compile._equivalences] with an ASCII member:
    [i] with dotless i, [s] with long s. *)
Definition equivalents (l : char) : list char :=
  if (l =? 0x69)%N then [0x131%N]
  else if (l =? 0x73)%N then [0x17F%N]
  else [].

(** A text character [c] against the pattern literal [l] under
    [re.IGNORECASE]: the lowercase of [c] is the lowercase of [l] or one
    of its equivalents. *)
Definition eq_nocase (l c : char) : bool :=
  let l' := lower_onto_literal l in
  let c' := lower_onto_literal c in
  (c' =? l')%N || existsb (N.eqb c') (equivalents l').

(** [str.upper()] and [str.lower()], one code point at a time, on ASCII.
    The program upper-cases only the [ans] group (one of [A-Da-d], see
    [ans_group_letter]) and lower-cases only a file name that it then
    tests for the ASCII suffixes [.pdf] and [.docx]; no code point
    outside ASCII lowers to an ASCII letter of those suffixes or to a
    full stop, so the ASCII part decides both uses. *)
Definition upper_char (c : char) : char :=
  if is_ascii_lower c then (c - 32)%N else c.
Definition lower_char (c : char) : char :=
  if is_ascii_upper c then (c + 32)%N else c.

End Unicode.

(** ** Python string methods used by the program *)

Definition upper (s : str) : str := map Unicode.upper_char s.
Definition lower (s : str) : str := map Unicode.lower_char s.

(** [s.replace(old, "")] for a one-character [old]. *)
Definition remove_char (old : char) (s : str) : str :=
  filter (fun c => c ≠ old) s.

Fixpoint lstrip (s : str) : str :=
  match s with
  | c :: s' => if Unicode.is_space c then lstrip s' else s
  | [] => []
  end.

Definition rstrip (s : str) : str := rev (lstrip (rev s)).

(** [s.strip()] *)
Definition strip (s : str) : str := rstrip (lstrip s).

Fixpoint startswith (p s : str) : bool :=
  match p, s with
  | [], _ => true
  | a :: p', b :: s' => (a =? b)%N && startswith p' s'
  | _ :: _, [] => false
  end.

(** [s.endswith(suffix)] *)
Definition endswith (s suffix : str) : bool := startswith (rev suffix) (rev s).

(** [s[i:j]] for [0 <= i <= j]. *)
Definition substr (s : str) (i j : nat) : str := take (j - i) (drop i s).

(** ** Exceptions *)

Inductive exn :=
| AttributeError            (* a method called on [None] *)
| TypeError                 (* [int(None)] *)
| ValueError                (* [int()] over the digit limit *)
| RuntimeError (msg : string)
| Raised (e : string).      (* raised inside an extraction library *)

Inductive result (A : Type) :=
| Ok (a : A)
| Raise (e : exn).
Arguments Ok {A} a.
Arguments Raise {A} e.

Definition bind {A B} (x : result A) (f : A -> result B) : result B :=
  match x with
  | Ok a => f a
  | Raise e => Raise e
  end.

Notation "x <- e1 ;; e2" := (bind e1 (fun x => e2))
  (at level 100, e1 at next level, right associativity).

(** A loop body run on each element in order; the first exception ends
    the loop. *)
Fixpoint for_each {A B} (f : A -> result B) (l : list A) : result (list B) :=
  match l with
  | [] => Ok []
  | a :: l' => b <- f a ;; bs <- for_each f l' ;; Ok (b :: bs)
  end.

(** ** Regular expressions: the fragment of [re] the program uses *)

Module Re.

(** One-character matchers. *)
Inductive cset :=
| Any                       (* [.] under DOTALL *)
| Space                     (* [\s] *)
| NotSpace                  (* [\S] *)
| Digit                     (* [\d] *)
| Lit (l : char)            (* a literal, IGNORECASE off or caseless *)
| LitI (l : char)           (* a literal under IGNORECASE *)
| OneOf (ls : list char)     (* [[...]] of caseless characters *)
| SetI (ls : list char).    (* [[...]] under IGNORECASE *)

Definition cset_mem (p : cset) (c : char) : bool :=
  match p with
  | Any => true
  | Space => Unicode.is_space c
  | NotSpace => negb (Unicode.is_space c)
  | Digit => Unicode.is_decimal c
  | Lit l => (c =? l)%N
  | LitI l => Unicode.eq_nocase l c
  | OneOf ls => existsb (N.eqb c) ls
  | SetI ls => existsb (fun l => Unicode.eq_nocase l c) ls
  end.

Inductive re :=
| Eps
| Chr (p : cset)
| Seq (r1 r2 : re)
| Alt (r1 r2 : re)                  (* [r1|r2] *)
| Star (greedy : bool) (p : cset)   (* [p*] and [p*?] *)
| Plus (p : cset)                   (* [p+] *)
| Opt (r : re)                      (* [r?] *)
| Group (name : string) (r : re)    (* [(?P<name>r)], [(r)] as group "1" *)
| Ahead (r : re)                    (* [(?=r)] *)
| NotBehind (p : cset)              (* [(?<!p)] *)
| WordB                             (* [\b] *)
| EndZ                              (* [\Z] *)
| EndDollar.                        (* [$], MULTILINE off *)

(** The scanning position: index, previous character, remaining text. *)
Record state := St { st_pos : nat; st_prev : option char; st_rest : str }.

Definition start_of (t : str) : state := St 0 None t.

(** Group marks: start and end index of each group that took part. *)
Abbreviation caps := (gmap string (nat * nat)).

Definition cont := state -> caps -> option (state * caps).

Definition word_before (st : state) : bool :=
  match st_prev st with Some c => Unicode.is_word c | None => false end.
Definition word_after (st : state) : bool :=
  match st_rest st with c :: _ => Unicode.is_word c | [] => false end.

(** Greedy repetition of a one-character matcher: take as many as
    match, give back one at a time. *)
Fixpoint rep_greedy (p : cset) (i : nat) (prev : option char) (rest : str)
    (c : caps) (k : cont) {struct rest} : option (state * caps) :=
  match rest with
  | x :: rest' =>
      if cset_mem p x then
        match rep_greedy p (S i) (Some x) rest' c k with
        | Some res => Some res
        | None => k (St i prev rest) c
        end
      else k (St i prev rest) c
  | [] => k (St i prev rest) c
  end.

(** Lazy repetition: try the continuation first, take one more
    character only when it fails. *)
Fixpoint rep_lazy (p : cset) (i : nat) (prev : option char) (rest : str)
    (c : caps) (k : cont) {struct rest} : option (state * caps) :=
  match k (St i prev rest) c with
  | Some res => Some res
  | None =>
      match rest with
      | x :: rest' =>
          if cset_mem p x then rep_lazy p (S i) (Some x) rest' c k else None
      | [] => None
      end
  end.

(** The backtracking matcher, in continuation-passing style: [exec r st
    c k] is the first way, in the engine's order of preference, to match
    [r] at [st] such that [k] succeeds on what follows. *)
Fixpoint exec (r : re) (st : state) (c : caps) (k : cont) {struct r}
    : option (state * caps) :=
  match r with
  | Eps => k st c
  | Chr p =>
      match st_rest st with
      | x :: rest' =>
          if cset_mem p x then k (St (S (st_pos st)) (Some x) rest') c else None
      | [] => None
      end
  | Seq r1 r2 => exec r1 st c (fun st' c' => exec r2 st' c' k)
  | Alt r1 r2 =>
      match exec r1 st c k with
      | Some res => Some res
      | None => exec r2 st c k
      end
  | Star true p => rep_greedy p (st_pos st) (st_prev st) (st_rest st) c k
  | Star false p => rep_lazy p (st_pos st) (st_prev st) (st_rest st) c k
  | Plus p =>
      match st_rest st with
      | x :: rest' =>
          if cset_mem p x
          then rep_greedy p (S (st_pos st)) (Some x) rest' c k
          else None
      | [] => None
      end
  | Opt r1 =>
      match exec r1 st c k with
      | Some res => Some res
      | None => k st c
      end
  | Group g r1 =>
      exec r1 st c (fun st' c' => k st' (<[g := (st_pos st, st_pos st')]> c'))
  | Ahead r1 =>
      match exec r1 st c (fun st' c' => Some (st', c')) with
      | Some (_, c') => k st c'
      | None => None
      end
  | NotBehind p =>
      match st_prev st with
      | Some x => if cset_mem p x then None else k st c
      | None => k st c
      end
  | WordB => if xorb (word_before st) (word_after st) then k st c else None
  | EndZ => match st_rest st with [] => k st c | _ :: _ => None end
  | EndDollar =>
      match st_rest st with
      | [] => k st c
      | [x] => if (x =? NL)%N then k st c else None
      | _ => None
      end
  end.

Definition accept : cont := fun st c => Some (st, c).

(** A match object: the searched text, the span of the whole match and
    the group marks. *)
Record mtch := Match {
  m_string : str; m_start : nat; m_end : nat; m_caps : caps }.

(** [m.group(name)]: the text of the group, [None] when the group took
    no part in the match. *)
Definition group (m : mtch) (name : string) : option str :=
  match m_caps m !! name with
  | Some (i, j) => Some (substr (m_string m) i j)
  | None => None
  end.

Definition match_at (r : re) (t : str) (st : state) : option mtch :=
  match exec r st ∅ accept with
  | Some (st', c) => Some (Match t (st_pos st) (st_pos st') c)
  | None => None
  end.

(** [pattern.finditer(t)]: the matches from left to right, each search
    resuming where the previous match ended.  [skip] counts the
    characters of the previous match still to pass.  After an empty
    match the scan moves on by one character; the patterns of this
    program never match the empty string (see [nullable]). *)
Fixpoint finditer_from (r : re) (t : str) (skip i : nat) (prev : option char)
    (rest : str) {struct rest} : list mtch :=
  match skip with
  | S n =>
      match rest with
      | x :: rest' => finditer_from r t n (S i) (Some x) rest'
      | [] => []
      end
  | 0 =>
      match match_at r t (St i prev rest) with
      | Some m =>
          m :: match rest with
               | x :: rest' =>
                   finditer_from r t (m_end m - i - 1) (S i) (Some x) rest'
               | [] => []
               end
      | None =>
          match rest with
          | x :: rest' => finditer_from r t 0 (S i) (Some x) rest'
          | [] => []
          end
      end
  end.

Definition finditer (r : re) (t : str) : list mtch :=
  finditer_from r t 0 0 None t.

(** [pattern.search(t)] *)
Definition search (r : re) (t : str) : option mtch := head (finditer r t).

(** Replacement templates: literal text and group references. *)
Inductive titem := TLit (s : str) | TGroup (name : string).

Definition expand (tpl : list titem) (m : mtch) : str :=
  flat_map (fun it =>
    match it with
    | TLit s => s
    | TGroup g => default [] (group m g)
    end) tpl.

(** [pattern.sub(tpl, t)]: the text outside the matches is copied, each
    match is replaced by the expanded template. *)
Fixpoint sub_from (r : re) (tpl : list titem) (t : str) (skip i : nat)
    (prev : option char) (rest : str) {struct rest} : str :=
  match skip with
  | S n =>
      match rest with
      | x :: rest' => sub_from r tpl t n (S i) (Some x) rest'
      | [] => []
      end
  | 0 =>
      match match_at r t (St i prev rest) with
      | Some m =>
          expand tpl m ++
          match rest with
          | x :: rest' =>
              if (m_end m =? i)%nat
              then x :: sub_from r tpl t 0 (S i) (Some x) rest'
              else sub_from r tpl t (m_end m - i - 1) (S i) (Some x) rest'
          | [] => []
          end
      | None =>
          match rest with
          | x :: rest' => x :: sub_from r tpl t 0 (S i) (Some x) rest'
          | [] => []
          end
      end
  end.

Definition sub (r : re) (tpl : list titem) (t : str) : str :=
  sub_from r tpl t 0 0 None t.

(** Pattern text to syntax: a run of literals under IGNORECASE, and the
    pieces that recur in the patterns. *)
Fixpoint word (s : str) : re :=
  match s with
  | [] => Eps
  | [l] => Chr (LitI l)
  | l :: s' => Seq (Chr (LitI l)) (word s')
  end.

Fixpoint cat (rs : list re) : re :=
  match rs with
  | [] => Eps
  | [r] => r
  | r :: rs' => Seq r (cat rs')
  end.

(** Can [r] match without consuming a character?  (An over-estimate.) *)
Fixpoint nullable (r : re) : bool :=
  match r with
  | Chr _ | Plus _ => false
  | Seq r1 r2 => nullable r1 && nullable r2
  | Alt r1 r2 => nullable r1 || nullable r2
  | Group _ r1 => nullable r1
  | _ => true
  end.

End Re.

(** ** The program *)

Import Re.

Record MCQ := mkMCQ {
  number : Z;
  question : str;
  options : gmap string str;
  answer : str;
  explanation : str }.

(** *** The patterns *)

(** [\s*] *)
Definition ws : re := Star true Space.

(** The colon class as the source file has it: [:], U+00EF, U+00BC and
    U+0161 (under IGNORECASE also U+00CF and U+0160). *)
Definition colon_chars : list char := [0x3A; 0xEF; 0xBC; 0x161]%N.
Definition colon : re := Chr (SetI colon_chars).

(** [(?P<name>.*?)] under DOTALL *)
Definition field (name : string) : re := Group name (Star false Any).

(** [Option\s*X\s*[:...]] *)
Definition option_marker (letter : string) : re :=
  cat [word (py "Option"); ws; word (py letter); ws; colon].

(** [Correct\s*Answer\s*[:...]] *)
Definition correct_answer_marker : re :=
  cat [word (py "Correct"); ws; word (py "Answer"); ws; colon].

(** [Explanation/Reference\s*[:...]] *)
Definition explanation_marker : re :=
  cat [word (py "Explanation/Reference"); ws; colon].

(** [QUESTION\s*[:...]?\s*\d+] *)
Definition question_marker : re :=
  cat [word (py "QUESTION"); ws; Opt colon; ws; Plus Digit].

(** [Correct\s*Answer\s*[:...]\s*[ABCD]] *)
Definition answer_marker : re :=
  cat [correct_answer_marker; ws; Chr (SetI (py "ABCD"))].

(** [Q(?:UESTION)?\s*[:...]?\s*\d+], the stop of an explanation. *)
Definition q_marker : re :=
  cat [word (py "Q"); Opt (word (py "UESTION")); ws; Opt colon; ws; Plus Digit].

Definition question_line : re :=
  cat [word (py "QUESTION"); ws; Opt colon; ws; Group "num" (Plus Digit); ws;
       field "q"].

Definition option_line (letter : string) (stop : re) : re :=
  cat [option_marker letter; ws; field letter; Ahead (Seq ws stop)].

Definition answer_line : re :=
  cat [correct_answer_marker; ws; Group "ans" (Chr (SetI (py "ABCD"))); ws].

Definition explanation_line : re :=
  cat [explanation_marker; ws; field "exp"; Ahead (Alt (Seq ws q_marker) EndZ)].

(** [QUESTION_BLOCK], compiled with DOTALL, VERBOSE and IGNORECASE. *)
Definition QUESTION_BLOCK : re :=
  cat [question_line;
       option_line "A" (option_marker "B");
       option_line "B" (option_marker "C");
       option_line "C" (option_marker "D");
       option_line "D" correct_answer_marker;
       answer_line;
       explanation_line].

(** [\s*Correct\s*Answer\s*[:...]\s*[ABCD]\s*$] *)
Definition CLEAN_CORRECT_IN_OPTION : re :=
  cat [ws; correct_answer_marker; ws; Chr (SetI (py "ABCD")); ws; EndDollar].

(** [https?://\S+] *)
Definition url : re :=
  cat [word (py "http"); Opt (Chr (LitI 0x73%N)); word (py "://"); Plus NotSpace].

(** [https?://\S+\s*$] *)
Definition URL_TRAILER : re := cat [url; ws; EndDollar].

(** *** [_clean] *)

Definition _clean (s : str) : str := strip (remove_char CR s).

(** A method call on the result of [m.group(...)], which may be [None]. *)
Definition on_str {A} (o : option str) (f : str -> A) : result A :=
  match o with
  | Some s => Ok (f s)
  | None => Raise AttributeError
  end.

(** *** [normalize_text] *)

(** [\bSelect\s*one\s*:\s*] *)
Definition select_one : re :=
  cat [WordB; word (py "Select"); ws; word (py "one"); ws; Chr (Lit 0x3A%N); ws].

(** The [markers] list. *)
Definition markers : list re := [
  question_marker;
  option_marker "A";
  option_marker "B";
  option_marker "C";
  option_marker "D";
  answer_marker;
  explanation_marker ].

(** [(?<!\n)(pat)] and its replacement [\n\1] *)
Definition unanchored (pat : re) : re := Seq (NotBehind (Lit NL)) (Group "1" pat).
Definition newline_then_match : list titem := [TLit [NL]; TGroup "1"].

(** [\nhttps?://\S+\s*(?=\n)] *)
Definition url_line : re :=
  cat [Chr (Lit NL); url; ws; Ahead (Chr (Lit NL))].

Definition normalize_text (txt : str) : str :=
  let t := map (fun c => if (c =? FF)%N then NL else c) txt in
  let t := sub select_one [] t in
  let t := foldl (fun t pat => sub (unanchored pat) newline_then_match t) t markers in
  let t := sub (Plus (OneOf [0x20; 0x09]%N)) [TLit (py " ")] t in
  let t := sub url_line [TLit [NL]] t in
  let t := sub URL_TRAILER [] t in
  t.

(** *** [parse_questions_from_text] *)

(** [sys.int_info.default_max_str_digits] *)
Definition int_max_str_digits : nat := 4300.

Definition digits_value (ds : str) : Z :=
  foldl (fun acc d => (acc * 10 + Z.of_N (Unicode.decimal_value d))%Z) 0%Z ds.

(** [int(x)] for [x] a group of the match: [None] is a TypeError, a
    non-empty run of decimal digits is a number unless it is longer than
    the interpreter's digit limit.  (Signs, underscores and surrounding
    whitespace, which [int] also reads, cannot occur in a [\d+] group and
    are not modelled: any other text is a ValueError here.) *)
Definition py_int (x : option str) : result Z :=
  match x with
  | None => Raise TypeError
  | Some ds =>
      if forallb Unicode.is_decimal ds && negb (length ds =? 0)%nat
         && (length ds <=? int_max_str_digits)%nat
      then Ok (digits_value ds)
      else Raise ValueError
  end.

Definition letters : list string := ["A"; "B"; "C"; "D"]%string.

(** The dict comprehension
    [{letter: _clean(m.group(letter)) for letter in ["A","B","C","D"]}]. *)
Fixpoint options_of (m : mtch) (ls : list string) : result (gmap string str) :=
  match ls with
  | [] => Ok ∅
  | l :: ls' =>
      v <- on_str (group m l) _clean ;;
      d <- options_of m ls' ;;
      Ok (<[l := v]> d)
  end.

(** The two assignments of the safety cleanup to [options[k]]. *)
Definition sanitize (v : str) : str :=
  let v := strip (sub CLEAN_CORRECT_IN_OPTION [] v) in
  strip (sub URL_TRAILER [] v).

(** [list.sort(key=lambda x: x.number)]: a stable sort, here by
    insertion. *)
Fixpoint insert_by_number (x : MCQ) (l : list MCQ) : list MCQ :=
  match l with
  | [] => [x]
  | y :: l' =>
      if (number x <=? number y)%Z then x :: y :: l'
      else y :: insert_by_number x l'
  end.

Definition sort_by_number (l : list MCQ) : list MCQ :=
  foldr insert_by_number [] l.

(** The body of the loop over the matches. *)
Definition record_of (m : mtch) : result MCQ :=
  num <- py_int (group m "num") ;;
  q <- on_str (group m "q") _clean ;;
  opts <- options_of m letters ;;
  let opts := foldl (fun d k => alter sanitize k d) opts letters in
  ans <- on_str (group m "ans") (fun s => upper (strip s)) ;;
  exp <- on_str (group m "exp") _clean ;;
  Ok (mkMCQ num q opts ans exp).

Definition parse_questions_from_text (txt : str) : result (list MCQ) :=
  let txt := normalize_text txt in
  results <- for_each record_of (finditer QUESTION_BLOCK txt) ;;
  Ok (sort_by_number results).

(** ** What a pattern matches: the declarative reading *)

Module ReSpec.
Import Re.

(** The character before position [i] of [t]. *)
Definition prev_char (t : str) (i : nat) : option char :=
  match i with
  | 0 => None
  | S i' => t !! i'
  end.

(** The engine's state at position [i] of [t]. *)
Definition state_at (t : str) (i : nat) : state :=
  St i (prev_char t i) (drop i t).

Definition word_at (t : str) (i : nat) : bool :=
  match t !! i with Some c => Unicode.is_word c | None => false end.
Definition word_before_pos (t : str) (i : nat) : bool :=
  match prev_char t i with Some c => Unicode.is_word c | None => false end.

(** [Matches t r i c j c']: the pattern [r] can match the text [t] from
    position [i] to position [j], turning the group marks [c] into [c'].
    Every way to match is included; the engine returns the first one in
    its order of preference. *)
Inductive Matches (t : str) : re -> nat -> caps -> nat -> caps -> Prop :=
| M_Eps i c : Matches t Eps i c i c
| M_Chr p i c x :
    t !! i = Some x -> cset_mem p x = true -> Matches t (Chr p) i c (S i) c
| M_Seq r1 r2 i c j c1 k c2 :
    Matches t r1 i c j c1 -> Matches t r2 j c1 k c2 ->
    Matches t (Seq r1 r2) i c k c2
| M_AltL r1 r2 i c j c' :
    Matches t r1 i c j c' -> Matches t (Alt r1 r2) i c j c'
| M_AltR r1 r2 i c j c' :
    Matches t r2 i c j c' -> Matches t (Alt r1 r2) i c j c'
| M_Star0 g p i c : Matches t (Star g p) i c i c
| M_StarS g p i c x j :
    t !! i = Some x -> cset_mem p x = true ->
    Matches t (Star g p) (S i) c j c -> Matches t (Star g p) i c j c
| M_Plus p i c x j :
    t !! i = Some x -> cset_mem p x = true ->
    Matches t (Star true p) (S i) c j c -> Matches t (Plus p) i c j c
| M_OptS r i c j c' : Matches t r i c j c' -> Matches t (Opt r) i c j c'
| M_OptN r i c : Matches t (Opt r) i c i c
| M_Group g r i c j c' :
    Matches t r i c j c' -> Matches t (Group g r) i c j (<[g := (i, j)]> c')
| M_Ahead r i c j c' : Matches t r i c j c' -> Matches t (Ahead r) i c i c'
| M_NotBehind p i c :
    (forall x, prev_char t i = Some x -> cset_mem p x = false) ->
    Matches t (NotBehind p) i c i c
| M_WordB i c :
    xorb (word_before_pos t i) (word_at t i) = true -> Matches t WordB i c i c
| M_EndZ i c : length t <= i -> Matches t EndZ i c i c
| M_EndDollar i c :
    length t <= i \/ (S i = length t /\ t !! i = Some NL) ->
    Matches t EndDollar i c i c.

(** [r] matches [t] from [i] to [j], whatever the marks. *)
Definition Spans (t : str) (r : re) (i j : nat) : Prop :=
  exists c c', Matches t r i c j c'.

(** The groups of a pattern with their bodies. *)
Fixpoint group_bodies (r : re) : list (string * re) :=
  match r with
  | Seq r1 r2 | Alt r1 r2 => group_bodies r1 ++ group_bodies r2
  | Opt r1 | Ahead r1 => group_bodies r1
  | Group g r1 => (g, r1) :: group_bodies r1
  | _ => []
  end.

(** The groups that take part in every match of a pattern. *)
Fixpoint sure_groups (r : re) : list string :=
  match r with
  | Seq r1 r2 => sure_groups r1 ++ sure_groups r2
  | Group g r1 => g :: sure_groups r1
  | Ahead r1 => sure_groups r1
  | _ => []
  end.

End ReSpec.

(** ** Reading documents: [extract_text_from_pdf], [extract_text_from_docx],
    [parse_any] *)

Definition bytes := list Byte.byte.

(** What the program reads of a [docx.Document]: the text of each
    paragraph, and for each table its rows of cell texts. *)
Record docx := mkDocx {
  paragraphs : list str;
  tables : list (list (list str)) }.

(** The two module-level names bound by the guarded imports: [None] when
    the import failed.  A library call returns a value or raises. *)
Record extractors := mkExtractors {
  pdf_extract_text : option (bytes -> result str);
  Document : option (bytes -> result docx) }.

Definition pdf_required : string :=
  "pdfminer.six is required. Install with: pip install pdfminer.six".
Definition docx_required : string :=
  "python-docx is required. Install with: pip install python-docx".
Definition unsupported_file_type : string :=
  "Unsupported file type. Please upload a PDF or DOCX file.".

Definition extract_text_from_pdf (env : extractors) (file_bytes : bytes)
    : result str :=
  match pdf_extract_text env with
  | None => Raise (RuntimeError pdf_required)
  | Some extract => extract file_bytes
  end.

Definition nonempty (s : str) : bool :=
  match s with [] => false | _ :: _ => true end.

Definition extract_text_from_docx (env : extractors) (file_bytes : bytes)
    : result str :=
  match Document env with
  | None => Raise (RuntimeError docx_required)
  | Some open_document =>
      doc <- open_document file_bytes ;;
      let from_paragraphs := filter (fun p => nonempty p = true) (paragraphs doc) in
      let from_tables :=
        filter (fun c => nonempty c = true)
               (map strip (concat (concat (tables doc)))) in
      Ok (join_nl (from_paragraphs ++ from_tables))
  end.

Definition parse_any (env : extractors) (file_bytes : bytes) (filename : str)
    : result (list MCQ) :=
  let name := lower filename in
  if endswith name (py ".pdf") then
    txt <- extract_text_from_pdf env file_bytes ;;
    parse_questions_from_text txt
  else if endswith name (py ".docx") then
    txt <- extract_text_from_docx env file_bytes ;;
    parse_questions_from_text txt
  else Raise (RuntimeError unsupported_file_type).

(** The two conditions of the error taxonomy, as the program raises
    them: both are [RuntimeError]s, told apart by their message. *)
Definition UnsupportedFormat (e : exn) : Prop :=
  e = RuntimeError unsupported_file_type.
Definition ExtractionUnavailable (e : exn) : Prop :=
  e = RuntimeError pdf_required \/ e = RuntimeError docx_required.

(** ** Vocabulary of the statements *)

(** The options dictionary of a block whose four option groups hold
    [a], [b], [c] and [d]. *)
Definition options_from (a b c d : str) : gmap string str :=
  <["A" := sanitize (_clean a)]>
    (<["B" := sanitize (_clean b)]>
       (<["C" := sanitize (_clean c)]>
          (<["D" := sanitize (_clean d)]> ∅))).

(** The minimal well-formed block of the testable properties. *)
Definition minimal_block : str :=
  join_nl [py "QUESTION:1 What is 2+2?"; py "Option A: 3"; py "Option B: 4";
           py "Option C: 5"; py "Option D: 6"; py "Correct Answer: B";
           py "Explanation/Reference: Basic arithmetic."].

(** The seven markers of a block occur in [t] in their order, the first
    at [s], all before [e]. *)
Definition markers_in_order (t : str) (s e : nat) : Prop :=
  exists q1 a0 a1 b0 b1 c0 c1 d0 d1 k0 k1 x0 x1,
    ReSpec.Spans t question_marker s q1 /\ q1 <= a0 /\
    ReSpec.Spans t (option_marker "A") a0 a1 /\ a1 <= b0 /\
    ReSpec.Spans t (option_marker "B") b0 b1 /\ b1 <= c0 /\
    ReSpec.Spans t (option_marker "C") c0 c1 /\ c1 <= d0 /\
    ReSpec.Spans t (option_marker "D") d0 d1 /\ d1 <= k0 /\
    ReSpec.Spans t answer_marker k0 k1 /\ k1 <= x0 /\
    ReSpec.Spans t explanation_marker x0 x1 /\ x1 <= e.

(** The stop of an explanation other than the end of the text:
    whitespace and a [Q]/[QUESTION] marker, at position [j] of [t]. *)
Definition q_stop : re := Seq ws q_marker.

Definition q_stop_at (t : str) (j : nat) : bool :=
  match match_at q_stop t (ReSpec.state_at t j) with
  | Some _ => true
  | None => false
  end.

(** No such stop at any position from [i] on. *)
Definition no_q_stop_from (t : str) (i : nat) : bool :=
  forallb (fun j => negb (q_stop_at t j)) (seq i (S (length t) - i)).

(** The records are in ascending order of [number]. *)
Definition ascending (rs : list MCQ) : Prop :=
  forall i j x y, i < j -> rs !! i = Some x -> rs !! j = Some y ->
                  (number x <= number y)%Z.

(** A block written on one line, its fields separated by spaces. *)
Definition block_line (num q a b c d ans exp : string) : str :=
  py ("QUESTION:" ++ num ++ " " ++ q ++ " Option A: " ++ a ++ " Option B: " ++ b
      ++ " Option C: " ++ c ++ " Option D: " ++ d ++ " Correct Answer: " ++ ans
      ++ " Explanation/Reference: " ++ exp).

(** Two blocks, the second question first. *)
Definition reversed_blocks : str :=
  block_line "2" "b" "1" "2" "3" "4" "A" "x" ++ py " " ++
  block_line "1" "a" "1" "2" "3" "4" "B" "y".

(** A block numbered zero, with an empty first option. *)
Definition question_zero : str :=
  join_nl [py "QUESTION:0"; py "Option A: "; py "Option B: b"; py "Option C: c";
           py "Option D: d"; py "Correct Answer: a"; py "Explanation/Reference: e"].

(** A block without its [Option B] line, then a complete block. *)
Definition missing_option_b : str :=
  py "QUESTION:1 q Option A: a Option C: c Option D: d Correct Answer: a Explanation/Reference: e".

Definition malformed_then_good : str :=
  missing_option_b ++ py " " ++ block_line "2" "b" "1" "2" "3" "4" "A" "x".

(** A block whose explanation mentions "Q3". *)
Definition q3_explanation : str :=
  join_nl [py "QUESTION:1 What is 2+2?"; py "Option A: 3"; py "Option B: 4";
           py "Option C: 5"; py "Option D: 6"; py "Correct Answer: B";
           py "Explanation/Reference: See Q3 results."].

(** Two blocks that are each incomplete: the first stops after its
    [Option A], the second has no [Option A]. *)
Definition lacks_options_bcd : str :=
  py "QUESTION:1 q Option A: a Correct Answer: a Explanation/Reference: e".
Definition lacks_option_a : str :=
  py "QUESTION:2 r Option B: b Option C: c Option D: d Correct Answer: b Explanation/Reference: f".

(** An installation without either extraction library. *)
Definition no_extractors : extractors := mkExtractors None None.

(** The minimal block followed by three URLs. *)
Definition url_tails : str :=
  minimal_block ++ py " see https://a.b/c https://d.e/f https://g.h/i".

(** The minimal block followed by two URLs. *)
Definition two_url_tails : str :=
  minimal_block ++ py " see https://a.b/c https://d.e/f".

(** A block whose question holds a [Select one:] prompt inside another
    inside a third. *)
Definition nested_prompts : str :=
  join_nl [py "QUESTION:1 What Select Select Select one: one: one: is?";
           py "Option A: 3"; py "Option B: 4"; py "Option C: 5"; py "Option D: 6";
           py "Correct Answer: B"; py "Explanation/Reference: Basic arithmetic."].

(** Two questions, one piece per marker: joined by newlines, and glued
    with nothing between a field and the marker that follows it. *)
Definition two_questions : list str :=
  [py "QUESTION:1 What is 2+2? 4 is the answer."; py "Option A: 3";
   py "Option B: 4"; py "Option C: 5"; py "Option D: 6";
   py "Correct Answer: B"; py "Explanation/Reference: Basic arithmetic.";
   py "QUESTION:2 What is 3+3?"; py "Option A: 5"; py "Option B: 6";
   py "Option C: 7"; py "Option D: 8"; py "Correct Answer: b";
   py "Explanation/Reference: Count on."].

Definition newline_separated : str := join_nl two_questions.
Definition glued : str := concat two_questions.

(** ** Documents made of blocks

    The texts the program is written for: blocks of a number, a
    question, four options, an answer letter and an explanation, each
    after its marker.  The statements on such documents say what the
    text of a field may be ([fieldtext]) with the help of an analysis of
    the patterns ([reach], [dead]) that tells, from the beginning of a
    text, that a pattern cannot match there. *)

(** How many characters at the front of [w] are in [p]. *)
Fixpoint run_length (p : cset) (w : str) : nat :=
  match w with
  | x :: w' => if cset_mem p x then S (run_length p w') else 0
  | [] => 0
  end.

(** Results of [reach]: moved on by [n] characters, and put together. *)
Definition shift (n : nat) (a : list nat * bool) : list nat * bool :=
  (map (Nat.add n) a.1, a.2).
Definition join (a b : list nat * bool) : list nat * bool :=
  (a.1 ++ b.1, a.2 || b.2).

(** How far a pattern can get on a text of which the beginning [w] is
    known: the numbers of characters of [w] after which it may hand over
    to what follows it, and whether it may read past the end of [w].
    [closed] says that the text ends with [w]; otherwise more text, not
    known, may follow.  (An over-estimate: lookbehind, word boundaries
    and [$] are taken to hold.) *)
Fixpoint reach (closed : bool) (r : re) (w : str) : list nat * bool :=
  match r with
  | Eps | NotBehind _ | WordB | EndDollar => ([0], false)
  | Chr p =>
      match w with
      | x :: _ => (if cset_mem p x then [1] else [], false)
      | [] => ([], negb closed)
      end
  | Seq r1 r2 =>
      let a := reach closed r1 w in
      foldr (fun n acc => join (shift n (reach closed r2 (drop n w))) acc)
            ([], a.2) a.1
  | Alt r1 r2 => join (reach closed r1 w) (reach closed r2 w)
  | Star _ p =>
      let m := run_length p w in (seq 0 (S m), negb closed && (m =? length w))
  | Plus p =>
      let m := run_length p w in (seq 1 m, negb closed && (m =? length w))
  | Opt r1 => join ([0], false) (reach closed r1 w)
  | Group _ r1 => reach closed r1 w
  | Ahead r1 =>
      match reach closed r1 w with
      | ([], false) => ([], false)
      | _ => ([0], false)
      end
  | EndZ => match w with [] => ([0], false) | _ :: _ => ([], false) end
  end.

(** The pattern fails on every text that begins with [w] (on [w], when
    [closed]). *)
Definition dead (closed : bool) (r : re) (w : str) : bool :=
  match reach closed r w with
  | ([], false) => true
  | _ => false
  end.

(** [[ \t]+] *)
Definition collapse : re := Plus (OneOf [0x20; 0x09]%N).

(** The patterns the normalizer scans for, the whitespace pattern apart. *)
Definition scans : list re :=
  select_one :: map unanchored markers ++ [url_line; URL_TRAILER].

(** The patterns at which the fields of a block stop. *)
Definition stops : list re :=
  [ option_marker "A";
    Seq ws (option_marker "B");
    Seq ws (option_marker "C");
    Seq ws (option_marker "D");
    Seq ws correct_answer_marker;
    Alt (Seq ws q_marker) EndZ ].

(** All of them, with the pattern of the safety cleanup. *)
Definition probes : list re := scans ++ stops ++ [CLEAN_CORRECT_IN_OPTION].

(** [Q] holds of every non-empty tail of [f]. *)
Fixpoint all_tails (Q : str -> bool) (f : str) : bool :=
  match f with
  | [] => true
  | _ :: f' => Q f && all_tails Q f'
  end.

(** Words separated by single spaces: the only whitespace is the space
    character, never two in a row, none at either end. *)
Fixpoint spaced (after_space : bool) (f : str) : bool :=
  match f with
  | [] => negb after_space
  | x :: f' =>
      if (x =? 0x20)%N then negb after_space && spaced true f'
      else negb (Unicode.is_space x) && spaced false f'
  end.

(** A newline, or nothing. *)
Definition nl (b : bool) : str := if b then [NL] else [].

(** Before [next] (and whatever comes after it, nothing when [closed]),
    no pattern of the program gets anywhere at any position of [f]. *)
Definition quiet_before (closed : bool) (next f : str) : bool :=
  all_tails (fun w => forallb (fun P => dead closed P (w ++ next)) probes) f.

(** What can come after a field: a marker, glued or on a new line, or
    the end of the text. *)
Definition followers : list (bool * str) :=
  (true, []) ::
  flat_map (fun m => [(false, m); (false, NL :: m)])
    [py "Option A: "; py "Option B: "; py "Option C: "; py "Option D: ";
     py "Correct Answer: "; py "QUESTION:"].

(** The text of a field: words separated by single spaces, in which,
    whatever follows the field, no pattern of the program gets
    anywhere. *)
Definition fieldtext (f : str) : bool :=
  spaced true f && forallb (fun n => quiet_before n.1 n.2 f) followers.

(** The text of a question number: decimal digits, a space after them. *)
Definition numeral (n : str) : bool :=
  spaced true n && forallb Unicode.is_decimal n &&
  (length n <=? int_max_str_digits) && quiet_before false (py " ") n.

(** The answer letter, in either case. *)
Definition answer_letter (x : char) : bool := existsb (N.eqb x) (py "ABCDabcd").

(** A block: the number, the question, the options A to D, the answer
    letter and the explanation. *)
Record block := mkBlock {
  b_num : str; b_q : str; b_a : str; b_b : str; b_c : str; b_d : str;
  b_ans : char; b_exp : str }.

(** A block is well formed when its number is a numeral, its answer a
    letter and its other fields field texts. *)
Definition wf_block (b : block) : bool :=
  numeral (b_num b) && fieldtext (b_q b) && fieldtext (b_a b) &&
  fieldtext (b_b b) && fieldtext (b_c b) && fieldtext (b_d b) &&
  answer_letter (b_ans b) && fieldtext (b_exp b).

(** Which markers have a newline before them: QUESTION (of the blocks
    after the first), Option A to D, Correct Answer and
    Explanation/Reference.  Without the newline a marker is glued to the
    field before it. *)
Record seps := mkSeps { sQ : bool; sA : bool; sB : bool; sC : bool; sD : bool;
                        sK : bool; sX : bool }.

(** The pieces of text between the fields: a marker and what the
    pattern reads with it. *)
Definition seg_question (b : bool) (num : str) : str :=
  nl b ++ py "QUESTION:" ++ num ++ py " ".
Definition seg_option (b : bool) (l : string) : str :=
  nl b ++ py "Option " ++ py l ++ py ": ".
Definition seg_answer (bK : bool) (ans : char) (bX : bool) : str :=
  nl bK ++ py "Correct Answer: " ++ [ans] ++ nl bX ++ py "Explanation/Reference: ".

(** The text of a block, and of a document; [first] says whether the
    first QUESTION marker has a newline before it. *)
Definition render_block (s : seps) (first : bool) (b : block) : str :=
  seg_question first (b_num b) ++ b_q b ++
  seg_option (sA s) "A" ++ b_a b ++ seg_option (sB s) "B" ++ b_b b ++
  seg_option (sC s) "C" ++ b_c b ++ seg_option (sD s) "D" ++ b_d b ++
  seg_answer (sK s) (b_ans b) (sX s) ++ b_exp b.

Fixpoint render (s : seps) (first : bool) (bs : list block) : str :=
  match bs with
  | [] => []
  | b :: bs' => render_block s first b ++ render s (sQ s) bs'
  end.

(** A document in which every marker has its own layout: each block
    comes with the separators of its own markers, [sQ] that of its
    QUESTION marker. *)
Fixpoint render_each (l : list (seps * block)) : str :=
  match l with
  | [] => []
  | sb :: l' => render_block sb.1 (sQ sb.1) sb.2 ++ render_each l'
  end.

(** The character before the scanning position is no newline. *)
Definition okprev (p : option char) : Prop := p <> Some NL.

(** The character before the scanning position after [f] was passed. *)
Definition last_of (p : option char) (f : str) : option char :=
  fold_left (fun _ c => Some c) f p.

(** [rest] is what can come after a field. *)
Definition follows (rest : str) : Prop :=
  exists closed next rest',
    (closed, next) ∈ followers /\ rest = next ++ rest' /\
    (closed = true -> rest' = []).

(** How a pass treats the pieces of a document: [gq], [go], [gk], [gx]
    say which markers it puts a newline before. *)
Record pass_ok (P : re) (tpl : list titem)
    (gq : bool -> bool) (go : string -> bool -> bool) (gk gx : bool -> bool) : Prop := {
  ok_field : forall t i p f rest,
    fieldtext f = true -> follows rest ->
    sub_from P tpl t 0 i p (f ++ rest) =
    f ++ sub_from P tpl t 0 (i + length f) (last_of p f) rest;
  ok_end : forall t i p, match_at P t (St i p []) = None;
  ok_question : forall t i p b num x rest,
    okprev p -> numeral num = true -> Unicode.is_space x = false ->
    drop i t = seg_question b num ++ x :: rest ->
    sub_from P tpl t 0 i p (seg_question b num ++ x :: rest) =
    seg_question (gq b) num ++
    sub_from P tpl t 0 (i + length (seg_question b num)) (Some 0x20%N) (x :: rest);
  ok_option : forall t i p b l x rest,
    l ∈ letters -> okprev p -> Unicode.is_space x = false ->
    drop i t = seg_option b l ++ x :: rest ->
    sub_from P tpl t 0 i p (seg_option b l ++ x :: rest) =
    seg_option (go l b) l ++
    sub_from P tpl t 0 (i + length (seg_option b l)) (Some 0x20%N) (x :: rest);
  ok_answer : forall t i p bK ans bX x rest,
    okprev p -> answer_letter ans = true -> Unicode.is_space x = false ->
    drop i t = seg_answer bK ans bX ++ x :: rest ->
    sub_from P tpl t 0 i p (seg_answer bK ans bX ++ x :: rest) =
    seg_answer (gk bK) ans (gx bX) ++
    sub_from P tpl t 0 (i + length (seg_answer bK ans bX)) (Some 0x20%N) (x :: rest) }.

(** The separators after a pass. *)
Definition map_seps (go : string -> bool -> bool) (gq gk gx : bool -> bool)
    (s : seps) : seps :=
  mkSeps (gq (sQ s)) (go "A" (sA s)) (go "B" (sB s)) (go "C" (sC s))
         (go "D" (sD s)) (gk (sK s)) (gx (sX s)).

(** The pass for the marker of option [l] puts a newline before it. *)
Definition only (l : string) : string -> bool -> bool :=
  fun l' b => if String.eqb l l' then true else b.

(** The pattern cannot match at the end of the text. *)
Fixpoint needs_char (r : re) : bool :=
  match r with
  | Chr _ | Plus _ => true
  | Seq r1 r2 => needs_char r1 || needs_char r2
  | Alt r1 r2 => needs_char r1 && needs_char r2
  | Group _ r1 | Ahead r1 => needs_char r1
  | _ => false
  end.

(** The text [w'] is the word [w] up to letter case. *)
Fixpoint word_matches (w w' : str) : bool :=
  match w, w' with
  | [], [] => true
  | l :: w, x :: w' => Unicode.eq_nocase l x && word_matches w w'
  | _, _ => false
  end.

(** Every marker on a line of its own; every marker glued. *)
Definition all_seps : seps := mkSeps true true true true true true true.
Definition no_seps : seps := mkSeps false false false false false false false.

(** The lookahead of an option line, where its field stops. *)
Definition stop_ok (stop : re) (mk : str) : Prop :=
  forall b j p tl c, exists st',
    exec (Seq ws stop) (St j p (nl b ++ mk ++ tl)) c accept = Some (st', c).

(** What comes after an explanation: the end of the text, or the next
    QUESTION marker on a new line. *)
Definition end_or_question (tl : str) : Prop :=
  tl = [] \/ exists num tl', numeral num = true /\
                tl = NL :: py "QUESTION:" ++ num ++ 0x20%N :: tl'.

(** The text of a block with every marker but the first on a new line. *)
Definition block_text (b : block) : str :=
  py "QUESTION:" ++ b_num b ++ py " " ++ b_q b ++
  NL :: py "Option A: " ++ b_a b ++ NL :: py "Option B: " ++ b_b b ++
  NL :: py "Option C: " ++ b_c b ++ NL :: py "Option D: " ++ b_d b ++
  NL :: py "Correct Answer: " ++ [b_ans b] ++
  NL :: py "Explanation/Reference: " ++ b_exp b.

(** Where the option line that starts at [i] with field [f] ends, and
    the group block_marks of the match of a block that starts at [i]. *)
Definition line_end (f : str) (i : nat) : nat := length (f ++ [NL]) + (10 + i).

Definition block_marks (i : nat) (b : block) : caps :=
  let i1 := length (b_q b ++ [NL]) + (10 + length (b_num b) + i) in
  let i2 := line_end (b_a b) i1 in
  let i3 := line_end (b_b b) i2 in
  let i4 := line_end (b_c b) i3 in
  let i5 := line_end (b_d b) i4 in
  let i6 := 18 + i5 in
  <["exp"%string := (23 + i6, length (b_exp b) + (23 + i6))]>
    (<["ans"%string := (16 + i5, 17 + i5)]>
       (<["D"%string := (10 + i4, i5)]>
          (<["C"%string := (10 + i3, i4)]>
             (<["B"%string := (10 + i2, i3)]>
                (<["A"%string := (10 + i1, i2)]>
                   (<["q"%string := (10 + length (b_num b) + i, i1)]>
                      (<["num"%string := (9 + i, length (b_num b) + (9 + i))]> ∅))))))).

(** The record of a block. *)
Definition block_record (b : block) : MCQ :=
  mkMCQ (digits_value (b_num b)) (b_q b)
        (<["A"%string := b_a b]> (<["B"%string := b_b b]>
           (<["C"%string := b_c b]> (<["D"%string := b_d b]> ∅))))
        [Unicode.upper_char (b_ans b)] (b_exp b).

(** ** Any text *)

Definition TAB : char := 0x09%N.

(** The literal text of a replacement template. *)
Definition template_text (tpl : list titem) : str :=
  flat_map (fun it => match it with TLit s => s | TGroup _ => [] end) tpl.

(** The [num] group of the match is longer than [int] accepts. *)
Definition over_limit (m : mtch) : bool :=
  match group m "num" with
  | Some num => int_max_str_digits <? length num
  | None => false
  end.

(** A space or a tab. *)
Definition is_blank (c : char) : bool := cset_mem (OneOf [0x20; 0x09]%N) c.

(** No tab, and no space next to another blank. *)
Fixpoint tidy (t : str) : bool :=
  match t with
  | [] => true
  | c :: t' =>
      negb (c =? TAB)%N &&
      match t' with
      | d :: _ => negb (is_blank c && is_blank d)
      | [] => true
      end && tidy t'
  end.

(** The pattern occurs nowhere in the text. *)
Definition absent (P : re) (t : str) : bool :=
  match search P t with None => true | Some _ => false end.

(** The lines of a block, one marker to a line. *)
Definition block_lines (b : block) : list str :=
  [ py "QUESTION:" ++ b_num b ++ py " " ++ b_q b;
    py "Option A: " ++ b_a b; py "Option B: " ++ b_b b;
    py "Option C: " ++ b_c b; py "Option D: " ++ b_d b;
    py "Correct Answer: " ++ [b_ans b];
    py "Explanation/Reference: " ++ b_exp b ].

(** A table cell of whitespace only. *)
Definition blank (s : str) : bool := negb (nonempty (strip s)).

(** The two questions of [two_questions], as blocks. *)
Definition two_blocks : list block :=
  [ mkBlock (py "1") (py "What is 2+2? 4 is the answer.")
            (py "3") (py "4") (py "5") (py "6") 0x42%N (py "Basic arithmetic.");
    mkBlock (py "2") (py "What is 3+3?")
            (py "5") (py "6") (py "7") (py "8") 0x62%N (py "Count on.") ].

(** The two blocks, every marker of the first glued, the markers of the
    second glued and on lines of their own in turn. *)
Definition two_layouts : list (seps * block) :=
  zip [no_seps; mkSeps true false true false true false true] two_blocks.

(** A document with the lines of [two_blocks], an empty paragraph
    among them, and a table of blank cells. *)
Definition sample_docx : docx :=
  mkDocx (block_lines (mkBlock (py "1") (py "What is 2+2? 4 is the answer.")
                         (py "3") (py "4") (py "5") (py "6") 0x42%N
                         (py "Basic arithmetic.")) ++
          [] :: block_lines (mkBlock (py "2") (py "What is 3+3?")
                         (py "5") (py "6") (py "7") (py "8") 0x62%N (py "Count on.")))
         [[[py " "; []]]].

(** Answers given on the page: the first right, the second wrong. *)
Definition sample_answers : gmap Z str :=
  {[ 1%Z := py "B"; 2%Z := py "A" ]}.

(** ** The quiz page *)

(** *** The question navigator *)

Definition per_row : nat := 20.

(** The inner loop over the columns of row [r].  [clicked i] is what
    [cols[c].button(label, key=f"jump_{i}")] returns.  The result is the
    indices of the buttons made, in order, and the index stored in
    [qstate["index"]] when a button returned true: after
    [_persist_to_url()], [st.rerun()] then ends the run, so nothing is
    made after that button.  At [i >= total] the [break] leaves the row.
    The label of a button and the query string that [_persist_to_url]
    writes are left out: they take no part in which buttons are made. *)
Fixpoint row_buttons (clicked : nat -> bool) (total r : nat) (cs : list nat)
    : list nat * option nat :=
  match cs with
  | [] => ([], None)
  | c :: cs' =>
      let i := r * per_row + c in
      if total <=? i then ([], None)
      else if clicked i then ([i], Some i)
      else let '(made, jump) := row_buttons clicked total r cs' in (i :: made, jump)
  end.

(** The outer loop over the rows: a row that ended the run ends the
    loop, a row left by [break] or run to its end is followed by the
    next. *)
Fixpoint rows_from (clicked : nat -> bool) (total : nat) (rs : list nat)
    : list nat * option nat :=
  match rs with
  | [] => ([], None)
  | r :: rs' =>
      match row_buttons clicked total r (seq 0 per_row) with
      | (made, Some i) => (made, Some i)
      | (made, None) =>
          let '(made', jump) := rows_from clicked total rs' in (made ++ made', jump)
      end
  end.

(** A run of the navigator: the indices [i] of the buttons [jump_i] it
    makes, in the order made, and the index it jumps to, if any. *)
Definition navigator (clicked : nat -> bool) (total : nat) : list nat * option nat :=
  let rows := (total + per_row - 1) / per_row in
  rows_from clicked total (seq 0 rows).

(** The buttons of a list of indices up to the first that is clicked. *)
Fixpoint up_to_click (clicked : nat -> bool) (l : list nat) : list nat * option nat :=
  match l with
  | [] => ([], None)
  | i :: l' =>
      if clicked i then ([i], Some i)
      else let '(made, jump) := up_to_click clicked l' in (i :: made, jump)
  end.

(** *** The order of the questions *)

(** [[base_questions[i] for i in order]]; [None] is an [IndexError]. *)
Definition questions_in {A} (base_questions : list A) (order : list nat)
    : option (list A) :=
  mapM (fun i => base_questions !! i) order.

(** *** The index of the question shown *)

(** [max(0, min(idx, total - 1))] *)
Definition shown_index (idx total : Z) : Z := Z.max 0 (Z.min idx (total - 1)).
(** The index the Previous and Next buttons store. *)
Definition previous_index (idx : Z) : Z := Z.max 0 (idx - 1).
Definition next_index (idx total : Z) : Z := Z.min (total - 1) (idx + 1).

(** *** The score *)

Section Score.
(** The values of the answers dictionary are whatever the page or a
    restored URL put there: [truthy] is their truth value, [same] their
    [==] against a record's answer. *)
Context {V : Type} (truthy : V -> bool) (same : V -> str -> bool).

(** One round of the loop; the state is [(correct, attempted)]. *)
Definition score_step (answers : gmap Z V) (acc : nat * nat) (item : MCQ)
    : nat * nat :=
  match answers !! number item with
  | Some user =>
      if truthy user
      then ((if same user (answer item) then S acc.1 else acc.1), S acc.2)
      else acc
  | None => acc
  end.

Definition score (answers : gmap Z V) (questions : list MCQ) : nat * nat :=
  foldl (score_step answers) (0, 0) questions.

End Score.

(** *** The options of the question shown *)

(** [[(l, options.get(l, "").strip()) for l in "ABCD" if
    options.get(l, "").strip()]] *)
Definition shown_options (options : gmap string str) : list (string * str) :=
  omap (fun l =>
          let t := strip (default [] (options !! l)) in
          if nonempty t then Some (l, t) else None)
       letters.

(** [f"{l}. {t}"] *)
Definition option_label (o : string * str) : str := py o.1 ++ py ". " ++ o.2.

Section Radio.
Context {V : Type} (truthy : V -> bool) (same_letter : V -> string -> bool).

(** [ls.index(v)]; [None] is the [ValueError]. *)
Fixpoint index_of (v : V) (ls : list string) : option nat :=
  match ls with
  | [] => None
  | l :: ls' => if same_letter v l then Some 0 else S <$> index_of v ls'
  end.

(** The index of the option selected when the question is shown;
    [prev_letter] is [answers.get(number)]. *)
Definition default_index (prev_letter : option V) (opts : list (string * str)) : nat :=
  match prev_letter with
  | Some v => if truthy v then default 0 (index_of v (map fst opts)) else 0
  | None => 0
  end.

End Radio.

(** * Proofs *)

(** ** The engine against the declarative reading *)

Module ReFacts.
Import Re ReSpec.

Lemma state_at_step t i x rest' :
  drop i t = x :: rest' ->
  t !! i = Some x /\ St (S i) (Some x) rest' = state_at t (S i).
Proof.
  intros Hd.
  assert (Hx : t !! i = Some x).
  { rewrite <- (Nat.add_0_r i), <- lookup_drop, Hd. reflexivity. }
  split; [exact Hx|].
  unfold state_at, prev_char. rewrite Hx. f_equal.
  apply drop_S in Hx. rewrite Hd in Hx. congruence.
Qed.

Lemma drop_nil_length (t : str) i : drop i t = [] -> length t <= i.
Proof.
  intros Hd. apply (f_equal length) in Hd. rewrite length_drop in Hd.
  simpl in Hd. lia.
Qed.

Lemma lookup_drop_cons (t : str) i x :
  t !! i = Some x -> drop i t = x :: drop (S i) t.
Proof. apply drop_S. Qed.

(** Positions only move forward and stay inside the text. *)
Lemma Matches_le t r i c j c' : Matches t r i c j c' -> i <= j.
Proof. induction 1; lia. Qed.

Lemma Matches_bound t r i c j c' :
  Matches t r i c j c' -> i <= length t -> j <= length t.
Proof.
  induction 1; intros Hi; auto; try lia;
    try (apply lookup_lt_Some in H; lia).
Qed.

(** *** Soundness: what the engine returns is a match *)

Lemma rep_greedy_sound t g p c k res : forall i,
  rep_greedy p i (prev_char t i) (drop i t) c k = Some res ->
  exists j, Matches t (Star g p) i c j c /\ k (state_at t j) c = Some res.
Proof.
  intros i. remember (drop i t) as rest eqn:Hr. revert i Hr.
  induction rest as [|x rest IH]; intros i Hr H; simpl in H.
  - exists i. split; [constructor|]. unfold state_at. rewrite <- Hr. exact H.
  - symmetry in Hr. destruct (state_at_step _ _ _ _ Hr) as [Hx Hst].
    destruct (cset_mem p x) eqn:Hp.
    + destruct (rep_greedy p (S i) (Some x) rest c k) eqn:Hg.
      * injection H as <-.
        assert (Hd : rest = drop (S i) t).
        { apply lookup_drop_cons in Hx. congruence. }
        specialize (IH (S i) Hd). cbn [prev_char] in IH. rewrite Hx in IH.
        destruct (IH Hg) as (j & Hm & Hk).
        exists j. split; [econstructor; eauto|exact Hk].
      * exists i. split; [constructor|]. unfold state_at. rewrite Hr. exact H.
    + exists i. split; [constructor|]. unfold state_at. rewrite Hr. exact H.
Qed.

Lemma rep_lazy_sound t g p c k res : forall i,
  rep_lazy p i (prev_char t i) (drop i t) c k = Some res ->
  exists j, Matches t (Star g p) i c j c /\ k (state_at t j) c = Some res.
Proof.
  intros i. remember (drop i t) as rest eqn:Hr. revert i Hr.
  induction rest as [|x rest IH]; intros i Hr H; simpl in H.
  - destruct (k (St i (prev_char t i) [])) eqn:Hk; [|discriminate].
    exists i. split; [constructor|]. unfold state_at. rewrite <- Hr.
    congruence.
  - symmetry in Hr. destruct (state_at_step _ _ _ _ Hr) as [Hx Hst].
    destruct (k (St i (prev_char t i) (x :: rest)) c) eqn:Hk.
    + exists i. split; [constructor|]. unfold state_at. rewrite Hr. congruence.
    + destruct (cset_mem p x) eqn:Hp; [|discriminate].
      assert (Hd : rest = drop (S i) t).
      { apply lookup_drop_cons in Hx. congruence. }
      specialize (IH (S i) Hd). cbn [prev_char] in IH. rewrite Hx in IH.
      destruct (IH H) as (j & Hm & Hk').
      exists j. split; [econstructor; eauto|exact Hk'].
Qed.

Theorem exec_sound t r : forall i c k res,
  exec r (state_at t i) c k = Some res ->
  exists j c', Matches t r i c j c' /\ k (state_at t j) c' = Some res.
Proof.
  induction r as [|p|r1 IH1 r2 IH2|r1 IH1 r2 IH2|g p|p|r1 IH1|g r1 IH1|r1 IH1|p| | |];
    intros i c k res H; simpl in H.
  - exists i, c. split; [constructor|exact H].
  - destruct (drop i t) as [|x rest'] eqn:Hd; [discriminate|].
    destruct (state_at_step _ _ _ _ Hd) as [Hx Hst].
    destruct (cset_mem p x) eqn:Hp; [|discriminate].
    rewrite Hst in H. exists (S i), c. split; [econstructor; eauto|exact H].
  - apply IH1 in H as (j & c1 & Hm1 & H).
    apply IH2 in H as (j2 & c2 & Hm2 & H).
    exists j2, c2. split; [econstructor; eauto|exact H].
  - destruct (exec r1 (state_at t i) c k) eqn:H1.
    + injection H as <-. apply IH1 in H1 as (j & c1 & Hm & Hk).
      exists j, c1. split; [apply M_AltL; exact Hm|exact Hk].
    + apply IH2 in H as (j & c1 & Hm & Hk).
      exists j, c1. split; [apply M_AltR; exact Hm|exact Hk].
  - destruct g.
    + apply (rep_greedy_sound t true) in H as (j & Hm & Hk). eauto.
    + apply (rep_lazy_sound t false) in H as (j & Hm & Hk). eauto.
  - destruct (drop i t) as [|x rest'] eqn:Hd; [discriminate|].
    destruct (state_at_step _ _ _ _ Hd) as [Hx Hst].
    destruct (cset_mem p x) eqn:Hp; [|discriminate].
    assert (Hd' : rest' = drop (S i) t).
    { apply lookup_drop_cons in Hx. congruence. }
    subst rest'.
    assert (Hpc : Some x = prev_char t (S i)) by (simpl; congruence).
    rewrite Hpc in H.
    apply (rep_greedy_sound t true) in H as (j & Hm & Hk).
    exists j, c. split; [econstructor; eauto|exact Hk].
  - destruct (exec r1 (state_at t i) c k) eqn:H1.
    + injection H as <-. apply IH1 in H1 as (j & c1 & Hm & Hk).
      exists j, c1. split; [apply M_OptS; exact Hm|exact Hk].
    + exists i, c. split; [apply M_OptN|exact H].
  - apply IH1 in H as (j & c1 & Hm & Hk). simpl in Hk.
    exists j, (<[g := (i, j)]> c1). split; [constructor; exact Hm|exact Hk].
  - destruct (exec r1 (state_at t i) c (fun st' c' => Some (st', c'))) as [[st1 c1]|] eqn:H1;
      [|discriminate].
    apply IH1 in H1 as (j & c2 & Hm & Hk). injection Hk as _ ->.
    exists i, c1. split; [econstructor; exact Hm|exact H].
  - exists i, c. split.
    + constructor. intros x Hx. simpl in H. rewrite Hx in H.
      destruct (cset_mem p x); [discriminate|reflexivity].
    + simpl in H. destruct (prev_char t i) as [x|]; [|exact H].
      destruct (cset_mem p x); [discriminate|exact H].
  - unfold word_before, word_after in H. simpl in H.
    destruct (xorb _ _) eqn:Hx in H; [|discriminate].
    exists i, c. split; [|exact H]. constructor.
    unfold word_before_pos, word_at.
    destruct (drop i t) as [|y rest'] eqn:Hd.
    + apply drop_nil_length in Hd.
      rewrite (lookup_ge_None_2 t i) by lia. exact Hx.
    + destruct (state_at_step _ _ _ _ Hd) as [Hy _]. rewrite Hy. exact Hx.
  - destruct (drop i t) as [|y rest'] eqn:Hd; [|discriminate].
    exists i, c. split; [|exact H].
    constructor. apply drop_nil_length. exact Hd.
  - destruct (drop i t) as [|y rest'] eqn:Hd.
    + exists i, c. split; [|exact H].
      constructor. left. apply drop_nil_length. exact Hd.
    + destruct rest' as [|z rest']; [|discriminate].
      destruct (y =? NL)%N eqn:Hy; [|discriminate].
      apply N.eqb_eq in Hy. subst y.
      destruct (state_at_step _ _ _ _ Hd) as [Hx _].
      exists i, c. split; [|exact H].
      constructor. right. split; [|exact Hx].
      apply (f_equal length) in Hd. rewrite length_drop in Hd. simpl in Hd.
      apply lookup_lt_Some in Hx. lia.
Qed.

(** *** Completeness: where a match exists the engine finds one *)

Lemma rep_greedy_fallback p k c : forall rest i prev,
  k (St i prev rest) c <> None -> rep_greedy p i prev rest c k <> None.
Proof.
  intros rest i prev Hk. destruct rest as [|x rest]; simpl; [exact Hk|].
  destruct (cset_mem p x); [|exact Hk].
  destruct (rep_greedy p (S i) (Some x) rest c k); [discriminate|exact Hk].
Qed.

Lemma rep_lazy_fallback p k c : forall rest i prev,
  k (St i prev rest) c <> None -> rep_lazy p i prev rest c k <> None.
Proof.
  intros rest i prev Hk. destruct rest as [|x rest]; simpl;
    (destruct (k _ c); [discriminate|contradiction]).
Qed.

Lemma exec_Star_step t g p i x c k :
  t !! i = Some x -> cset_mem p x = true ->
  exec (Star g p) (state_at t (S i)) c k <> None ->
  exec (Star g p) (state_at t i) c k <> None.
Proof.
  intros Hx Hp H. simpl in *. rewrite (lookup_drop_cons _ _ _ Hx).
  rewrite Hx in H. destruct g; simpl; rewrite Hp.
  - destruct (rep_greedy p (S i) (Some x) (drop (S i) t) c k);
      [discriminate|contradiction].
  - destruct (k _ c); [discriminate|exact H].
Qed.

Theorem exec_complete t r i c j c' :
  Matches t r i c j c' ->
  forall k, (forall d, k (state_at t j) d <> None) ->
  forall d, exec r (state_at t i) d k <> None.
Proof.
  induction 1; intros k0 Hk d.
  - simpl. apply Hk.
  - simpl. rewrite (lookup_drop_cons _ _ _ H), H0.
    destruct (state_at_step t i x (drop (S i) t) (lookup_drop_cons _ _ _ H)) as [_ ->].
    apply Hk.
  - simpl. apply IHMatches1. intros d'. apply IHMatches2. exact Hk.
  - simpl. specialize (IHMatches k0 Hk d).
    destruct (exec r1 (state_at t i) d k0); [discriminate|contradiction].
  - simpl. destruct (exec r1 (state_at t i) d k0); [discriminate|].
    apply IHMatches. exact Hk.
  - destruct g; simpl.
    + apply rep_greedy_fallback. apply Hk.
    + apply rep_lazy_fallback. apply Hk.
  - eapply exec_Star_step; eauto.
  - specialize (IHMatches k0 Hk d). simpl in *.
    rewrite (lookup_drop_cons _ _ _ H), H0. rewrite H in IHMatches.
    exact IHMatches.
  - simpl. specialize (IHMatches k0 Hk d).
    destruct (exec r (state_at t i) d k0); [discriminate|contradiction].
  - simpl. destruct (exec r (state_at t i) d k0); [discriminate|apply Hk].
  - simpl. apply IHMatches. intros d'. apply Hk.
  - simpl.
    assert (Ha : exec r (state_at t i) d (fun st' c' => Some (st', c')) <> None).
    { apply IHMatches. discriminate. }
    destruct (exec r (state_at t i) d _) as [[st1 c1]|]; [apply Hk|contradiction].
  - simpl. destruct (prev_char t i) as [x|] eqn:Hp; [|apply Hk].
    rewrite (H x eq_refl). apply Hk.
  - simpl. unfold word_before, word_after. simpl.
    unfold word_before_pos, word_at in H.
    assert (Hw : match drop i t with
                 | y :: _ => Unicode.is_word y
                 | [] => false
                 end = match t !! i with
                       | Some y => Unicode.is_word y
                       | None => false
                       end).
    { destruct (drop i t) as [|y rest'] eqn:Hd.
      - rewrite lookup_ge_None_2; [done|]. by apply drop_nil_length.
      - by destruct (state_at_step _ _ _ _ Hd) as [-> _]. }
    rewrite Hw, H. apply Hk.
  - simpl. rewrite (drop_ge t i) by exact H. apply Hk.
  - simpl. destruct H as [H|[H1 H2]].
    + rewrite (drop_ge t i) by exact H. apply Hk.
    + rewrite (lookup_drop_cons _ _ _ H2), (drop_ge t (S i)) by lia.
      change (NL =? NL)%N with true. apply Hk.
Qed.

(** *** [finditer] and [search] *)

Lemma match_at_sound t r i m :
  match_at r t (state_at t i) = Some m ->
  m_string m = t /\ m_start m = i /\ Matches t r i ∅ (m_end m) (m_caps m).
Proof.
  unfold match_at. intros H.
  destruct (exec r (state_at t i) ∅ accept) as [[st' c']|] eqn:He; [|discriminate].
  injection H as <-. simpl.
  apply exec_sound in He as (j & c2 & Hm & Hk).
  unfold accept in Hk. injection Hk as <- <-. auto.
Qed.

Lemma match_at_complete t r i c j c' :
  Matches t r i c j c' -> match_at r t (state_at t i) <> None.
Proof.
  intros Hm. unfold match_at.
  assert (He : exec r (state_at t i) ∅ accept <> None).
  { eapply exec_complete; [exact Hm|]. discriminate. }
  destruct (exec r (state_at t i) ∅ accept) as [[st' c2]|];
    [discriminate|contradiction].
Qed.

Lemma finditer_from_sound t r m : forall rest skip i,
  i <= length t -> rest = drop i t ->
  m ∈ finditer_from r t skip i (prev_char t i) rest ->
  exists s, m_string m = t /\ m_start m = s /\ s <= length t /\
            Matches t r s ∅ (m_end m) (m_caps m).
Proof.
  induction rest as [|x rest IH]; intros skip i Hi Hr Hin.
  - destruct skip; simpl in Hin; [|by apply elem_of_nil in Hin].
    destruct (match_at r t (St i (prev_char t i) [])) as [m'|] eqn:Hm;
      [|by apply elem_of_nil in Hin].
    apply list_elem_of_singleton in Hin. subst m'.
    rewrite Hr in Hm. apply match_at_sound in Hm as (? & ? & ?).
    exists i. repeat split; auto.
  - symmetry in Hr. destruct (state_at_step _ _ _ _ Hr) as [Hx Hst].
    assert (Hd : rest = drop (S i) t).
    { apply lookup_drop_cons in Hx. congruence. }
    assert (Hp : Some x = prev_char t (S i)) by (simpl; congruence).
    assert (Hi' : S i <= length t) by (apply lookup_lt_Some in Hx; lia).
    destruct skip; simpl in Hin.
    + destruct (match_at r t (St i (prev_char t i) (x :: rest))) as [m'|] eqn:Hm.
      * apply elem_of_cons in Hin as [->|Hin].
        -- rewrite <- Hr in Hm. apply match_at_sound in Hm as (? & ? & ?).
           exists i. repeat split; auto.
        -- rewrite Hp in Hin. eapply IH; eauto.
      * rewrite Hp in Hin. eapply IH; eauto.
    + rewrite Hp in Hin. eapply IH; eauto.
Qed.

Theorem finditer_sound t r m :
  m ∈ finditer r t ->
  m_string m = t /\ m_start m <= length t /\
  Matches t r (m_start m) ∅ (m_end m) (m_caps m).
Proof.
  intros Hin. apply (finditer_from_sound t r m t 0 0 (Nat.le_0_l _) eq_refl) in Hin.
  destruct Hin as (s & ? & <- & ? & ?). auto.
Qed.

Lemma finditer_from_nonempty t r n c j c' : forall p,
  p + n <= length t ->
  Matches t r (p + n) c j c' ->
  finditer_from r t 0 p (prev_char t p) (drop p t) <> [].
Proof.
  induction n as [|n IH]; intros p Hle Hm.
  - rewrite Nat.add_0_r in Hm. apply match_at_complete in Hm.
    unfold state_at in Hm.
    destruct (drop p t) eqn:Hd; simpl;
      (destruct (match_at r t _); [discriminate|contradiction]).
  - destruct (drop p t) as [|x rest] eqn:Hd.
    + apply drop_nil_length in Hd. lia.
    + simpl. destruct (match_at r t _); [discriminate|].
      destruct (state_at_step _ _ _ _ Hd) as [Hx Hst].
      assert (Hp : Some x = prev_char t (S p)) by (simpl; congruence).
      assert (Hd' : rest = drop (S p) t).
      { apply lookup_drop_cons in Hx. congruence. }
      rewrite Hp, Hd'. apply IH; [lia|].
      replace (S p + n) with (p + S n) by lia. exact Hm.
Qed.

(** Where the pattern can match somewhere, [finditer] is not empty. *)
Theorem finditer_nonempty t r i c j c' :
  i <= length t -> Matches t r i c j c' -> finditer r t <> [].
Proof.
  intros Hi Hm. apply (finditer_from_nonempty t r i c j c' 0); simpl; auto.
Qed.

Lemma search_None_no_match t r :
  search r t = None ->
  forall i c j c', i <= length t -> ~ Matches t r i c j c'.
Proof.
  unfold search. intros Hs i c j c' Hi Hm.
  apply (finditer_nonempty _ _ _ _ _ _ Hi) in Hm.
  destruct (finditer r t); [contradiction|discriminate].
Qed.

(** *** Group marks *)

(** A group that lies on every path through the pattern is set by every
    match, and marks are never removed. *)
Lemma Matches_sure_groups t r i c j c' :
  Matches t r i c j c' ->
  forall g, g ∈ sure_groups r \/ is_Some (c !! g) -> is_Some (c' !! g).
Proof.
  induction 1; intros g0 Hg; simpl in Hg;
    try (destruct Hg as [Hg|Hg]; [by apply elem_of_nil in Hg|exact Hg]).
  - apply IHMatches2. destruct Hg as [Hg|Hg].
    + apply elem_of_app in Hg as [Hg|Hg]; [right; apply IHMatches1|]; auto.
    + right. apply IHMatches1. auto.
  - apply IHMatches. right. destruct Hg as [Hg|Hg]; [by apply elem_of_nil in Hg|exact Hg].
  - apply IHMatches. right. destruct Hg as [Hg|Hg]; [by apply elem_of_nil in Hg|exact Hg].
  - apply IHMatches. right. destruct Hg as [Hg|Hg]; [by apply elem_of_nil in Hg|exact Hg].
  - destruct (decide (g = g0)) as [->|Hne].
    + rewrite lookup_insert_eq. eauto.
    + rewrite lookup_insert_ne by exact Hne. apply IHMatches.
      destruct Hg as [Hg|Hg]; [|auto].
      apply elem_of_cons in Hg as [->|Hg]; [contradiction|auto].
  - apply IHMatches. exact Hg.
Qed.

(** A mark left by a match spans a match of the body of a group of that
    name, inside the text. *)
Lemma Matches_group_body t r i c j c' :
  Matches t r i c j c' -> i <= length t ->
  forall g a b, c' !! g = Some (a, b) ->
  c !! g = Some (a, b) \/
  exists body, (g, body) ∈ group_bodies r /\ Spans t body a b /\
               a <= b /\ b <= length t.
Proof.
  induction 1; intros Hi g0 a b Hg; simpl; auto.
  - assert (Hj : j <= length t) by (eapply Matches_bound; eauto).
    destruct (IHMatches2 Hj _ _ _ Hg) as [Hc1|(body & Hin & Hs)].
    + destruct (IHMatches1 Hi _ _ _ Hc1) as [Hc|(body & Hin & Hs)]; [auto|].
      right. exists body. split; [apply elem_of_app; auto|exact Hs].
    + right. exists body. split; [apply elem_of_app; auto|exact Hs].
  - destruct (IHMatches Hi _ _ _ Hg) as [Hc|(body & Hin & Hs)]; [auto|].
    right. exists body. split; [apply elem_of_app; auto|exact Hs].
  - destruct (IHMatches Hi _ _ _ Hg) as [Hc|(body & Hin & Hs)]; [auto|].
    right. exists body. split; [apply elem_of_app; auto|exact Hs].
  - destruct (decide (g = g0)) as [->|Hne].
    + rewrite lookup_insert_eq in Hg. injection Hg as <- <-.
      right. exists r. split; [apply elem_of_cons; auto|].
      split; [by exists c, c'|]. split.
      * eapply Matches_le; eauto.
      * eapply Matches_bound; eauto.
    + rewrite lookup_insert_ne in Hg by exact Hne.
      destruct (IHMatches Hi _ _ _ Hg) as [Hc|(body & Hin & Hs)]; [auto|].
      right. exists body. split; [apply elem_of_cons; auto|exact Hs].
Qed.

(** Runs of one-character matchers. *)
Lemma Matches_Star_chars t g p i c j c' :
  Matches t (Star g p) i c j c' ->
  c' = c /\ i <= j /\
  forall n, i <= n < j -> exists x, t !! n = Some x /\ cset_mem p x = true.
Proof.
  remember (Star g p) as r eqn:Hr. induction 1; try discriminate.
  - split; [done|]. split; [lia|]. intros n Hn. lia.
  - injection Hr as -> ->. destruct (IHMatches eq_refl) as (_ & Hle & Hall).
    split; [done|]. split; [lia|]. intros n Hn.
    destruct (decide (n = i)) as [->|Hne]; [eauto|]. apply Hall. lia.
Qed.

Lemma Matches_Plus_chars t p i c j c' :
  Matches t (Plus p) i c j c' ->
  c' = c /\ i < j /\
  forall n, i <= n < j -> exists x, t !! n = Some x /\ cset_mem p x = true.
Proof.
  inversion 1; subst.
  match goal with H : Matches _ (Star _ _) _ _ _ _ |- _ =>
    apply Matches_Star_chars in H as (_ & Hle & Hall) end.
  split; [done|]. split; [lia|]. intros n Hn.
  destruct (decide (n = i)) as [->|Hne]; [eauto|]. apply Hall. lia.
Qed.

Lemma Matches_Chr_inv t p i c j c' :
  Matches t (Chr p) i c j c' ->
  c' = c /\ j = S i /\ exists x, t !! i = Some x /\ cset_mem p x = true.
Proof. inversion 1; subst. eauto. Qed.

Lemma Matches_Seq_inv t r1 r2 i c k c2 :
  Matches t (Seq r1 r2) i c k c2 ->
  exists j c1, Matches t r1 i c j c1 /\ Matches t r2 j c1 k c2.
Proof. inversion 1; subst. eauto. Qed.

(** A pattern that is not [nullable] consumes at least one character. *)
Lemma Matches_not_nullable t r i c j c' :
  Matches t r i c j c' -> nullable r = false -> i < j.
Proof.
  induction 1; simpl; intros Hn; try discriminate; try lia; auto.
  - apply andb_false_iff in Hn as [Hn|Hn].
    + specialize (IHMatches1 Hn). apply Matches_le in H0. lia.
    + specialize (IHMatches2 Hn). apply Matches_le in H. lia.
  - apply orb_false_iff in Hn as [Hn _]. auto.
  - apply orb_false_iff in Hn as [_ Hn]. auto.
  - apply Matches_le in H1. lia.
Qed.

Lemma Matches_not_nullable_inside t r i c j c' :
  Matches t r i c j c' -> nullable r = false -> i < length t.
Proof.
  induction 1; simpl; intros Hn; try discriminate; auto;
    try (apply lookup_lt_Some in H; lia).
  - apply andb_false_iff in Hn as [Hn|Hn]; [auto|].
    specialize (IHMatches2 Hn). apply Matches_le in H. lia.
  - apply orb_false_iff in Hn as [Hn _]. auto.
  - apply orb_false_iff in Hn as [_ Hn]. auto.
Qed.

(** [search] decides whether a pattern that consumes text matches
    anywhere. *)
Theorem search_None_iff t r :
  nullable r = false ->
  search r t = None <-> (forall i j, ~ Spans t r i j).
Proof.
  intros Hn. split.
  - intros Hs i j (c & c' & Hm).
    eapply (search_None_no_match _ _ Hs i); [|exact Hm].
    apply Matches_not_nullable_inside in Hm; [lia|exact Hn].
  - intros Hno. unfold search.
    destruct (finditer r t) as [|m l] eqn:Hf; [reflexivity|exfalso].
    assert (Hin : m ∈ finditer r t) by (rewrite Hf; apply list_elem_of_here).
    apply finditer_sound in Hin as (_ & _ & Hm).
    apply (Hno (m_start m) (m_end m)). by exists ∅, (m_caps m).
Qed.

End ReFacts.

(** ** The parser *)

Module ParserFacts.
Import Re ReSpec ReFacts.

(** *** The loop and the sort *)

Lemma for_each_Ok {A B} (f : A -> result B) l bs :
  for_each f l = Ok bs -> Forall2 (fun a b => f a = Ok b) l bs.
Proof.
  revert bs. induction l as [|a l IH]; simpl; intros bs H.
  - injection H as <-. constructor.
  - destruct (f a) as [b|e] eqn:Hf; simpl in H; [|discriminate].
    destruct (for_each f l) as [bs'|e]; simpl in H; [|discriminate].
    injection H as <-. constructor; auto.
Qed.

Lemma for_each_elem {A B} (f : A -> result B) l bs b :
  for_each f l = Ok bs -> b ∈ bs -> exists a, a ∈ l /\ f a = Ok b.
Proof.
  intros H Hb. apply for_each_Ok in H.
  induction H as [|a b' l bs Hf _ IH].
  - by apply elem_of_nil in Hb.
  - apply elem_of_cons in Hb as [->|Hb].
    + exists a. split; [apply list_elem_of_here|exact Hf].
    + destruct (IH Hb) as (a' & Ha & Hf'). exists a'.
      split; [by apply list_elem_of_further|exact Hf'].
Qed.

Lemma for_each_nil_inv {A B} (f : A -> result B) l :
  for_each f l = Ok [] -> l = [].
Proof.
  destruct l as [|a l]; [done|]. simpl.
  destruct (f a); simpl; [|discriminate].
  destruct (for_each f l); simpl; discriminate.
Qed.

Definition by_number (x y : MCQ) : Prop := (number x <= number y)%Z.

Lemma insert_by_number_perm x l : Permutation (insert_by_number x l) (x :: l).
Proof.
  induction l as [|y l IH]; simpl; [reflexivity|].
  destruct (number x <=? number y)%Z; [reflexivity|].
  rewrite IH. apply perm_swap.
Qed.

Lemma sort_by_number_perm l : Permutation (sort_by_number l) l.
Proof.
  induction l as [|x l IH]; simpl; [reflexivity|].
  rewrite insert_by_number_perm. by constructor.
Qed.

Lemma insert_by_number_sorted x l :
  StronglySorted by_number l -> StronglySorted by_number (insert_by_number x l).
Proof.
  induction 1 as [|y l Hs IH Hy]; simpl.
  - repeat constructor.
  - destruct (number x <=? number y)%Z eqn:Hle.
    + apply Z.leb_le in Hle. constructor; [by constructor|].
      constructor; [exact Hle|].
      eapply Forall_impl; [exact Hy|]. unfold by_number. intros; lia.
    + apply Z.leb_gt in Hle. constructor; [exact IH|].
      rewrite insert_by_number_perm. constructor; [|exact Hy].
      unfold by_number. lia.
Qed.

Lemma sort_by_number_sorted l : StronglySorted by_number (sort_by_number l).
Proof.
  induction l as [|x l IH]; simpl; [constructor|].
  by apply insert_by_number_sorted.
Qed.

(** The sort is stable: records with the same number keep their order. *)
Lemma insert_by_number_filter n x l :
  StronglySorted by_number l ->
  filter (fun r => number r = n) (insert_by_number x l) =
  filter (fun r => number r = n) (x :: l).
Proof.
  induction 1 as [|y l Hs IH Hy]; simpl; [reflexivity|].
  destruct (number x <=? number y)%Z eqn:Hle; [reflexivity|].
  apply Z.leb_gt in Hle.
  rewrite (filter_cons _ y), IH, !(filter_cons _ x), (filter_cons _ y).
  destruct (decide (number y = n)), (decide (number x = n)); try reflexivity.
  lia.
Qed.

Lemma sort_by_number_stable n l :
  filter (fun r => number r = n) (sort_by_number l) =
  filter (fun r => number r = n) l.
Proof.
  induction l as [|x l IH]; simpl; [reflexivity|].
  rewrite insert_by_number_filter by apply sort_by_number_sorted.
  rewrite !filter_cons, IH. reflexivity.
Qed.

(** *** Digits and letters *)

Lemma digits_from_nonneg ds : forall a, (0 <= a)%Z ->
  (0 <= foldl (fun acc d => acc * 10 + Z.of_N (Unicode.decimal_value d)) a ds)%Z.
Proof.
  induction ds as [|d ds IH]; simpl; intros a Ha; [exact Ha|].
  apply IH. lia.
Qed.

Lemma digits_value_nonneg ds : (0 <= digits_value ds)%Z.
Proof. apply digits_from_nonneg. lia. Qed.

Ltac in_list :=
  repeat first [apply list_elem_of_here | apply list_elem_of_further].

Lemma lower_onto_literal_eq x l :
  Unicode.lower_onto_literal x = l ->
  (x = l \/ (0x61 <= l <= 0x7A /\ x + 32 = l) \/ (x = 0x130 /\ l = 0x69) \/
   (x = 0x212A /\ l = 0x6B) \/ (x = 0xCF /\ l = 0xEF) \/
   (x = 0x160 /\ l = 0x161))%N.
Proof.
  unfold Unicode.lower_onto_literal, Unicode.is_ascii_upper.
  destruct (N.leb_spec 0x41 x), (N.leb_spec x 0x5A); simpl;
    repeat match goal with
           | |- context [(?a =? ?b)%N] => destruct (N.eqb_spec a b)
           end; intros <-; lia.
Qed.

Lemma letter_class_inv x :
  cset_mem (SetI (py "ABCD")) x = true ->
  x ∈ [0x41; 0x42; 0x43; 0x44; 0x61; 0x62; 0x63; 0x64]%N.
Proof.
  change (py "ABCD") with [0x41; 0x42; 0x43; 0x44]%N.
  unfold cset_mem. simpl existsb. unfold Unicode.eq_nocase.
  change (Unicode.lower_onto_literal 0x41) with 0x61%N.
  change (Unicode.lower_onto_literal 0x42) with 0x62%N.
  change (Unicode.lower_onto_literal 0x43) with 0x63%N.
  change (Unicode.lower_onto_literal 0x44) with 0x64%N.
  change (Unicode.equivalents 0x61) with (@nil N).
  change (Unicode.equivalents 0x62) with (@nil N).
  change (Unicode.equivalents 0x63) with (@nil N).
  change (Unicode.equivalents 0x64) with (@nil N).
  simpl existsb. rewrite !orb_false_r. intros H.
  assert (Hx : (x = 0x41 \/ x = 0x42 \/ x = 0x43 \/ x = 0x44 \/
                x = 0x61 \/ x = 0x62 \/ x = 0x63 \/ x = 0x64)%N).
  { repeat (apply orb_true_iff in H as [H|H]);
      apply N.eqb_eq, lower_onto_literal_eq in H; lia. }
  repeat (destruct Hx as [->|Hx]; [in_list|]). subst x. in_list.
Qed.

Lemma answer_of_letter x :
  x ∈ [0x41; 0x42; 0x43; 0x44; 0x61; 0x62; 0x63; 0x64]%N ->
  upper (strip [x]) ∈ [py "A"; py "B"; py "C"; py "D"].
Proof.
  intros Hx.
  repeat (apply elem_of_cons in Hx as [->|Hx]; [vm_compute; in_list|]).
  by apply elem_of_nil in Hx.
Qed.

(** *** The groups of a block match *)

Lemma group_bodies_block :
  group_bodies QUESTION_BLOCK =
  [("num", Plus Digit); ("q", Star false Any); ("A", Star false Any);
   ("B", Star false Any); ("C", Star false Any); ("D", Star false Any);
   ("ans", Chr (SetI (py "ABCD"))); ("exp", Star false Any)]%string.
Proof. reflexivity. Qed.

Lemma sure_groups_block :
  sure_groups QUESTION_BLOCK =
  ["num"; "q"; "A"; "B"; "C"; "D"; "ans"; "exp"]%string.
Proof. reflexivity. Qed.

(** Every group of [QUESTION_BLOCK] takes part in every match, and its
    text is a match of the group's body inside the searched text. *)
Lemma block_group t m g body :
  m ∈ finditer QUESTION_BLOCK t ->
  (g, body) ∈ group_bodies QUESTION_BLOCK ->
  exists a b, m_caps m !! g = Some (a, b) /\ a <= b <= length t /\
              Spans t body a b /\ group m g = Some (substr t a b).
Proof.
  intros Hm Hg. apply finditer_sound in Hm as (Hs & Hle & Hm).
  assert (Hsure : g ∈ sure_groups QUESTION_BLOCK).
  { rewrite sure_groups_block. rewrite group_bodies_block in Hg.
    repeat (apply elem_of_cons in Hg as [Hg|Hg];
            [injection Hg as -> _; in_list|]).
    by apply elem_of_nil in Hg. }
  destruct (Matches_sure_groups _ _ _ _ _ _ Hm g (or_introl Hsure)) as [[a b] Hab].
  destruct (Matches_group_body _ _ _ _ _ _ Hm Hle _ _ _ Hab)
    as [He|(body' & Hin & Hsp & H1 & H2)].
  { by rewrite lookup_empty in He. }
  assert (body' = body) as ->.
  { rewrite group_bodies_block in Hg, Hin.
    repeat (apply elem_of_cons in Hg as [Hg|Hg];
            [injection Hg as -> ->;
             repeat (apply elem_of_cons in Hin as [Hin|Hin];
                     [congruence|]);
             by apply elem_of_nil in Hin|]).
    by apply elem_of_nil in Hg. }
  exists a, b. repeat split; auto.
  unfold group. rewrite Hab, Hs. reflexivity.
Qed.

Lemma substr_length (t : str) a b :
  a <= b <= length t -> length (substr t a b) = b - a.
Proof. intros H. unfold substr. rewrite length_take, length_drop. lia. Qed.

Lemma substr_lookup (t : str) a b n :
  n < b - a -> substr t a b !! n = t !! (a + n).
Proof.
  intros H. unfold substr. rewrite lookup_take_lt by exact H.
  apply lookup_drop.
Qed.

Lemma substr_all (t : str) a : substr t a (length t) = drop a t.
Proof. unfold substr. apply take_ge. rewrite length_drop. lia. Qed.

(** The [num] group is a non-empty run of decimal digits. *)
Lemma num_group_digits t a b :
  Spans t (Plus Digit) a b -> a <= b <= length t ->
  forallb Unicode.is_decimal (substr t a b) = true /\
  (length (substr t a b) =? 0) = false.
Proof.
  intros (c & c' & Hm) Hab.
  apply Matches_Plus_chars in Hm as (_ & Hlt & Hall).
  split.
  - apply forallb_forall. intros x Hin.
    apply list_elem_of_In, list_elem_of_lookup in Hin as [n Hx].
    assert (Hn : n < b - a).
    { apply lookup_lt_Some in Hx. rewrite substr_length in Hx; lia. }
    rewrite substr_lookup in Hx by exact Hn.
    destruct (Hall (a + n)) as (y & Hy & Hp); [lia|].
    rewrite Hy in Hx. injection Hx as <-. simpl in Hp. by rewrite Hp.
  - rewrite substr_length by exact Hab. apply Nat.eqb_neq. lia.
Qed.

(** The [ans] group is one letter among [A-D] and [a-d]. *)
Lemma ans_group_letter t a b :
  Spans t (Chr (SetI (py "ABCD"))) a b -> a <= b <= length t ->
  exists x, substr t a b = [x] /\
            x ∈ [0x41; 0x42; 0x43; 0x44; 0x61; 0x62; 0x63; 0x64]%N.
Proof.
  intros (c & c' & Hm) Hab.
  apply Matches_Chr_inv in Hm as (_ & -> & x & Hx & Hp).
  exists x. split; [|by apply letter_class_inv].
  unfold substr. replace (S a - a) with 1 by lia.
  rewrite (lookup_drop_cons _ _ _ Hx). reflexivity.
Qed.

(** *** One record per match *)

Lemma options_of_letters m a b c d :
  group m "A" = Some a -> group m "B" = Some b ->
  group m "C" = Some c -> group m "D" = Some d ->
  options_of m letters =
  Ok (<["A" := _clean a]> (<["B" := _clean b]>
        (<["C" := _clean c]> (<["D" := _clean d]> ∅)))).
Proof. intros Ha Hb Hc Hd. simpl. rewrite Ha, Hb, Hc, Hd. reflexivity. Qed.

Lemma sanitize_options a b c d :
  foldl (fun o k => alter sanitize k o)
        (<["A" := a]> (<["B" := b]> (<["C" := c]> (<["D" := d]> ∅)))) letters =
  <["A" := sanitize a]> (<["B" := sanitize b]>
    (<["C" := sanitize c]> (<["D" := sanitize d]> (∅ : gmap string str)))).
Proof.
  simpl.
  repeat (rewrite alter_insert_eq || rewrite alter_insert_ne by done).
  reflexivity.
Qed.

(** What the loop body makes of a match of [QUESTION_BLOCK]: no group is
    [None], so the only exception left is [int]'s digit limit. *)
Lemma record_of_block t m :
  m ∈ finditer QUESTION_BLOCK t ->
  exists num q a b c d x exp,
    group m "num" = Some num /\ group m "q" = Some q /\
    group m "A" = Some a /\ group m "B" = Some b /\
    group m "C" = Some c /\ group m "D" = Some d /\
    group m "ans" = Some [x] /\ group m "exp" = Some exp /\
    num <> [] /\ forallb Unicode.is_decimal num = true /\
    x ∈ [0x41; 0x42; 0x43; 0x44; 0x61; 0x62; 0x63; 0x64]%N /\
    record_of m =
      if (length num <=? int_max_str_digits)
      then Ok (mkMCQ (digits_value num) (_clean q) (options_from a b c d)
                     (upper (strip [x])) (_clean exp))
      else Raise ValueError.
Proof.
  intros Hm.
  pose proof (fun g body H => block_group t m g body Hm H) as Hg.
  rewrite group_bodies_block in Hg.
  destruct (Hg "num"%string _ ltac:(in_list)) as (n1 & n2 & _ & Hn & Hns & Hnum).
  destruct (Hg "q"%string _ ltac:(in_list)) as (q1 & q2 & _ & _ & _ & Hq).
  destruct (Hg "A"%string _ ltac:(in_list)) as (a1 & a2 & _ & _ & _ & Ha).
  destruct (Hg "B"%string _ ltac:(in_list)) as (b1 & b2 & _ & _ & _ & Hb).
  destruct (Hg "C"%string _ ltac:(in_list)) as (c1 & c2 & _ & _ & _ & Hc).
  destruct (Hg "D"%string _ ltac:(in_list)) as (d1 & d2 & _ & _ & _ & Hd).
  destruct (Hg "ans"%string _ ltac:(in_list)) as (s1 & s2 & _ & Hs & Hss & Hans).
  destruct (Hg "exp"%string _ ltac:(in_list)) as (e1 & e2 & _ & _ & _ & Hexp).
  destruct (num_group_digits _ _ _ Hns Hn) as [Hdig Hlen].
  destruct (ans_group_letter _ _ _ Hss Hs) as (x & Hx & Hletter).
  rewrite Hx in Hans.
  exists (substr t n1 n2), (substr t q1 q2), (substr t a1 a2), (substr t b1 b2),
    (substr t c1 c2), (substr t d1 d2), x, (substr t e1 e2).
  repeat (split; [assumption|]).
  split; [by intros E; rewrite E in Hlen|].
  repeat (split; [assumption|]).
  unfold record_of, py_int. rewrite Hnum, Hdig, Hlen. simpl negb. simpl andb.
  destruct (length (substr t n1 n2) <=? int_max_str_digits); [|reflexivity].
  cbn [bind]. rewrite Hq. cbn [on_str bind].
  rewrite (options_of_letters m _ _ _ _ Ha Hb Hc Hd). cbn [bind].
  rewrite sanitize_options, Hans, Hexp. reflexivity.
Qed.

Lemma parse_Ok_inv txt rs :
  parse_questions_from_text txt = Ok rs ->
  exists results,
    for_each record_of (finditer QUESTION_BLOCK (normalize_text txt)) = Ok results /\
    rs = sort_by_number results.
Proof.
  unfold parse_questions_from_text. intros H.
  destruct (for_each record_of _) as [results|e]; simpl in H; [|discriminate].
  injection H as <-. eauto.
Qed.

(** Every record of the output is the record of a match of
    [QUESTION_BLOCK] in the normalized text. *)
Lemma parse_record_match txt rs r :
  parse_questions_from_text txt = Ok rs -> r ∈ rs ->
  exists m, m ∈ finditer QUESTION_BLOCK (normalize_text txt) /\ record_of m = Ok r.
Proof.
  intros (results & Hf & ->)%parse_Ok_inv Hr.
  rewrite sort_by_number_perm in Hr.
  eapply for_each_elem; eauto.
Qed.

(** The parser raises nothing but the [ValueError] of [int]'s limit. *)
Lemma for_each_record_of_raise t l e :
  (forall m, m ∈ l -> m ∈ finditer QUESTION_BLOCK t) ->
  for_each record_of l = Raise e -> e = ValueError.
Proof.
  induction l as [|m l IH]; simpl; intros Hl H; [discriminate|].
  destruct (record_of_block t m) as (num & q & a & b & c & d & x & ex & Hrec);
    [apply Hl, list_elem_of_here|].
  destruct Hrec as (_ & _ & _ & _ & _ & _ & _ & _ & _ & _ & _ & Hrec).
  rewrite Hrec in H.
  destruct (length num <=? int_max_str_digits); simpl in H; [|congruence].
  destruct (for_each record_of l) as [bs|e'] eqn:Hl'; simpl in H; [discriminate|].
  injection H as ->. apply IH; [|reflexivity].
  intros m' Hm'. by apply Hl, list_elem_of_further.
Qed.

Lemma parse_raises_only_ValueError txt e :
  parse_questions_from_text txt = Raise e -> e = ValueError.
Proof.
  unfold parse_questions_from_text. intros H.
  destruct (for_each record_of _) as [results|e'] eqn:Hf; simpl in H; [discriminate|].
  injection H as ->.
  exact (for_each_record_of_raise (normalize_text txt) _ _ (fun m H => H) Hf).
Qed.

(** *** Matches without the marks *)

(** Whether a pattern matches between two positions does not depend on
    the marks it starts from. *)
Lemma Matches_Star_any_caps t g p i c j c' :
  Matches t (Star g p) i c j c' -> forall d, Matches t (Star g p) i d j d.
Proof.
  remember (Star g p) as r eqn:Hr. induction 1; try discriminate; intros d.
  - constructor.
  - injection Hr as -> ->. econstructor; eauto.
Qed.

Lemma Matches_any_caps t r i c j c' :
  Matches t r i c j c' -> forall d, exists d', Matches t r i d j d'.
Proof.
  induction 1; intros d;
    try (eexists; econstructor; eauto using Matches_Star_any_caps; fail).
  - destruct (IHMatches1 d) as [d1 Hd1]. destruct (IHMatches2 d1) as [d2 Hd2].
    exists d2. econstructor; eauto.
  - destruct (IHMatches d) as [d1 Hd1]. exists d1. by apply M_AltL.
  - destruct (IHMatches d) as [d1 Hd1]. exists d1. by apply M_AltR.
  - destruct (IHMatches d) as [d1 Hd1]. exists d1. by apply M_OptS.
  - destruct (IHMatches d) as [d1 Hd1]. eexists. constructor. exact Hd1.
  - destruct (IHMatches d) as [d1 Hd1]. exists d1. econstructor. exact Hd1.
Qed.

Lemma Spans_Seq t r1 r2 i j k :
  Spans t r1 i j -> Spans t r2 j k -> Spans t (Seq r1 r2) i k.
Proof.
  intros (c & c1 & H1) (d & d1 & H2).
  destruct (Matches_any_caps _ _ _ _ _ _ H2 c1) as [c2 H2'].
  exists c, c2. econstructor; eauto.
Qed.

Lemma Spans_Seq_inv t r1 r2 i k :
  Spans t (Seq r1 r2) i k -> exists j, Spans t r1 i j /\ Spans t r2 j k.
Proof.
  intros (c & c' & H). apply Matches_Seq_inv in H as (j & c1 & H1 & H2).
  exists j. split; eexists _, _; eauto.
Qed.

Lemma Spans_le t r i j : Spans t r i j -> i <= j.
Proof. intros (c & c' & H). eapply Matches_le; eauto. Qed.

Lemma Spans_Group_inv t g r i j : Spans t (Group g r) i j -> Spans t r i j.
Proof. intros (c & c' & H). inversion H; subst. eexists _, _; eauto. Qed.

Lemma Matches_Group_inv t g r i c j c' :
  Matches t (Group g r) i c j c' ->
  exists c1, Matches t r i c j c1 /\ c' = <[g := (i, j)]> c1.
Proof. inversion 1; subst. eauto. Qed.

Lemma Matches_Ahead_inv t r i c j c' :
  Matches t (Ahead r) i c j c' -> j = i /\ exists j', Matches t r i c j' c'.
Proof. inversion 1; subst. eauto. Qed.

(** A pattern without groups leaves the marks alone. *)
Lemma Matches_no_groups t r i c j c' :
  Matches t r i c j c' -> group_bodies r = [] -> c' = c.
Proof.
  induction 1; simpl; intros Hg; auto; try discriminate.
  apply app_eq_nil in Hg as [Hg1 Hg2].
  rewrite (IHMatches2 Hg2). auto.
  all: try (apply app_eq_nil in Hg as [Hg1 Hg2]; auto).
Qed.

(** *** The shape of a block match *)

Lemma option_line_shape t l stop i c j c' :
  Matches t (option_line l stop) i c j c' ->
  exists i1, Spans t (option_marker l) i i1 /\ i1 <= j.
Proof.
  unfold option_line. cbn [cat]. intros H.
  apply Matches_Seq_inv in H as (i1 & c1 & H1 & H2).
  exists i1. split; [by eexists _, _|]. eapply Matches_le; eauto.
Qed.

Lemma question_line_shape t i c j c' :
  Matches t question_line i c j c' ->
  exists i1, Spans t question_marker i i1 /\ i1 <= j.
Proof.
  unfold question_line, question_marker. cbn [cat]. intros H.
  apply Matches_Seq_inv in H as (p1 & c1 & H1 & H).
  apply Matches_Seq_inv in H as (p2 & c2 & H2 & H).
  apply Matches_Seq_inv in H as (p3 & c3 & H3 & H).
  apply Matches_Seq_inv in H as (p4 & c4 & H4 & H).
  apply Matches_Seq_inv in H as (p5 & c5 & H5 & H).
  apply Matches_Group_inv in H5 as (c5' & H5 & _).
  exists p5. split; [|eapply Matches_le; eauto].
  repeat (eapply Spans_Seq; [eexists _, _; eassumption|]).
  eexists _, _; eassumption.
Qed.

Lemma answer_line_shape t i c j c' :
  Matches t answer_line i c j c' ->
  exists i1, Spans t answer_marker i i1 /\ i1 <= j.
Proof.
  unfold answer_line, answer_marker. cbn [cat]. intros H.
  apply Matches_Seq_inv in H as (p1 & c1 & H1 & H).
  apply Matches_Seq_inv in H as (p2 & c2 & H2 & H).
  apply Matches_Seq_inv in H as (p3 & c3 & H3 & H).
  apply Matches_Group_inv in H3 as (c3' & H3 & _).
  exists p3. split; [|eapply Matches_le; eauto].
  repeat (eapply Spans_Seq; [eexists _, _; eassumption|]).
  eexists _, _; eassumption.
Qed.

(** The last line of a block: the [exp] group starts after the marker
    and whitespace, and ends where the whole match ends, which is the end
    of the text or the place of a [q_stop]. *)
Lemma explanation_line_shape t i c j c' :
  Matches t explanation_line i c j c' ->
  exists i1 i2,
    Spans t explanation_marker i i1 /\ Spans t ws i1 i2 /\
    c' !! "exp"%string = Some (i2, j) /\ i2 <= j /\
    (length t <= j \/ exists j', Spans t q_stop j j').
Proof.
  unfold explanation_line, field. cbn [cat]. intros H.
  apply Matches_Seq_inv in H as (p1 & c1 & H1 & H).
  apply Matches_Seq_inv in H as (p2 & c2 & H2 & H).
  apply Matches_Seq_inv in H as (p3 & c3 & H3 & H).
  apply Matches_Group_inv in H3 as (c3' & H3 & ->).
  apply Matches_Ahead_inv in H as (-> & j' & H).
  assert (Hc : c' = <["exp"%string := (p2, p3)]> c3').
  { eapply Matches_no_groups; [exact H|reflexivity]. }
  exists p1, p2. split; [by eexists _, _|]. split; [by eexists _, _|].
  split; [by rewrite Hc, lookup_insert_eq|].
  split; [eapply Matches_le; eauto|].
  inversion H; subst.
  - right. exists j'. by eexists _, _.
  - left. match goal with H : Matches _ EndZ _ _ _ _ |- _ => inversion H end.
    done.
Qed.

Lemma block_shape t s c e c' :
  Matches t QUESTION_BLOCK s c e c' ->
  markers_in_order t s e /\
  exists x0 x1 i,
    s <= x0 /\ Spans t explanation_marker x0 x1 /\ Spans t ws x1 i /\
    c' !! "exp"%string = Some (i, e) /\
    (length t <= e \/ exists e', Spans t q_stop e e').
Proof.
  unfold QUESTION_BLOCK. cbn [cat]. intros H.
  apply Matches_Seq_inv in H as (p1 & c1 & H1 & H).
  apply Matches_Seq_inv in H as (p2 & c2 & H2 & H).
  apply Matches_Seq_inv in H as (p3 & c3 & H3 & H).
  apply Matches_Seq_inv in H as (p4 & c4 & H4 & H).
  apply Matches_Seq_inv in H as (p5 & c5 & H5 & H).
  apply Matches_Seq_inv in H as (p6 & c6 & H6 & H).
  apply question_line_shape in H1 as (q1 & Hq & Hq1).
  apply option_line_shape in H2 as (a1 & Ha & Ha1).
  apply option_line_shape in H3 as (b1 & Hb & Hb1).
  apply option_line_shape in H4 as (c1' & Hc & Hc1).
  apply option_line_shape in H5 as (d1 & Hd & Hd1).
  apply answer_line_shape in H6 as (k1 & Hk & Hk1).
  apply explanation_line_shape in H as (x1 & i & Hx & Hw & Hexp & Hie & Hstop).
  pose proof (Spans_le _ _ _ _ Hq). pose proof (Spans_le _ _ _ _ Ha).
  pose proof (Spans_le _ _ _ _ Hb). pose proof (Spans_le _ _ _ _ Hc).
  pose proof (Spans_le _ _ _ _ Hd). pose proof (Spans_le _ _ _ _ Hk).
  pose proof (Spans_le _ _ _ _ Hx). pose proof (Spans_le _ _ _ _ Hw).
  split.
  - exists q1, p1, a1, p2, b1, p3, c1', p4, d1, p5, k1, p6, x1.
    repeat (split; [first [assumption|lia]|]). lia.
  - exists p6, x1, i. repeat (split; [first [assumption|lia]|]). exact Hstop.
Qed.

(** *** The order in which the engine tries the ends of a field *)

(** Each match [finditer] returns is what [match_at] finds at some
    position. *)
Lemma finditer_from_match_at t r m : forall rest skip i,
  i <= length t -> rest = drop i t ->
  m ∈ finditer_from r t skip i (prev_char t i) rest ->
  exists s, s <= length t /\ match_at r t (state_at t s) = Some m.
Proof.
  induction rest as [|x rest IH]; intros skip i Hi Hr Hin.
  - destruct skip; simpl in Hin; [|by apply elem_of_nil in Hin].
    destruct (match_at r t (St i (prev_char t i) [])) as [m'|] eqn:Hm;
      [|by apply elem_of_nil in Hin].
    apply list_elem_of_singleton in Hin. subst m'.
    rewrite Hr in Hm. by exists i.
  - symmetry in Hr. destruct (state_at_step _ _ _ _ Hr) as [Hx Hst].
    assert (Hd : rest = drop (S i) t).
    { apply lookup_drop_cons in Hx. congruence. }
    assert (Hp : Some x = prev_char t (S i)) by (simpl; congruence).
    assert (Hi' : S i <= length t) by (apply lookup_lt_Some in Hx; lia).
    destruct skip; simpl in Hin.
    + destruct (match_at r t (St i (prev_char t i) (x :: rest))) as [m'|] eqn:Hm.
      * apply elem_of_cons in Hin as [->|Hin].
        -- rewrite <- Hr in Hm. by exists i.
        -- rewrite Hp in Hin. eapply IH; eauto.
      * rewrite Hp in Hin. eapply IH; eauto.
    + rewrite Hp in Hin. eapply IH; eauto.
Qed.

Lemma finditer_match_at t r m :
  m ∈ finditer r t -> exists s, s <= length t /\ match_at r t (state_at t s) = Some m.
Proof. apply (finditer_from_match_at t r m t 0 0 (Nat.le_0_l _) eq_refl). Qed.

Lemma exec_Seq_sound t r1 r2 i c k res :
  exec (Seq r1 r2) (state_at t i) c k = Some res ->
  exists j c1, Matches t r1 i c j c1 /\ exec r2 (state_at t j) c1 k = Some res.
Proof.
  change (exec (Seq r1 r2) (state_at t i) c k)
    with (exec r1 (state_at t i) c (fun st' c' => exec r2 st' c' k)).
  apply exec_sound.
Qed.

(** A lazy repetition ends at the first position at which what follows
    succeeds. *)
Lemma rep_lazy_first t p c k res : forall i,
  i <= length t ->
  rep_lazy p i (prev_char t i) (drop i t) c k = Some res ->
  exists j, i <= j <= length t /\ k (state_at t j) c = Some res /\
            forall j', i <= j' < j -> k (state_at t j') c = None.
Proof.
  intros i. remember (drop i t) as rest eqn:Hr. revert i Hr.
  induction rest as [|x rest IH]; intros i Hr Hi H; simpl in H.
  - destruct (k (St i (prev_char t i) []) c) eqn:Hk; [|discriminate].
    exists i. split; [lia|]. split; [|intros j' Hj'; lia].
    unfold state_at. rewrite <- Hr. congruence.
  - symmetry in Hr. destruct (state_at_step _ _ _ _ Hr) as [Hx Hst].
    destruct (k (St i (prev_char t i) (x :: rest)) c) eqn:Hk.
    + exists i. split; [lia|]. split; [|intros j' Hj'; lia].
      unfold state_at. rewrite Hr. congruence.
    + destruct (cset_mem p x) eqn:Hp; [|discriminate].
      assert (Hd : rest = drop (S i) t).
      { apply lookup_drop_cons in Hx. congruence. }
      assert (Hi' : S i <= length t) by (apply lookup_lt_Some in Hx; lia).
      specialize (IH (S i) Hd Hi'). cbn [prev_char] in IH. rewrite Hx in IH.
      destruct (IH H) as (j & Hj & Hkj & Hfirst).
      exists j. split; [lia|]. split; [exact Hkj|].
      intros j' Hj'. destruct (decide (j' = i)) as [->|Hne].
      * unfold state_at. by rewrite Hr.
      * apply Hfirst. lia.
Qed.

(** A greedy repetition before something that succeeds wherever it is
    tried takes every character of the class. *)
Lemma rep_greedy_all t p c k res : forall i,
  (forall st d, k st d <> None) ->
  rep_greedy p i (prev_char t i) (drop i t) c k = Some res ->
  exists j, Matches t (Star true p) i c j c /\ k (state_at t j) c = Some res /\
            (forall x, t !! j = Some x -> cset_mem p x = false).
Proof.
  intros i Hk. remember (drop i t) as rest eqn:Hr. revert i Hr.
  induction rest as [|x rest IH]; intros i Hr H; simpl in H.
  - exists i. split; [constructor|]. split.
    + unfold state_at. by rewrite <- Hr.
    + intros x Hx. symmetry in Hr. apply drop_nil_length in Hr.
      apply lookup_lt_Some in Hx. lia.
  - symmetry in Hr. destruct (state_at_step _ _ _ _ Hr) as [Hx Hst].
    destruct (cset_mem p x) eqn:Hp.
    + assert (Hd : rest = drop (S i) t).
      { apply lookup_drop_cons in Hx. congruence. }
      specialize (IH (S i) Hd). cbn [prev_char] in IH. rewrite Hx in IH.
      pose proof (rep_greedy_fallback p k c rest (S i) (Some x) (Hk _ _)) as Hne.
      destruct (rep_greedy p (S i) (Some x) rest c k) as [res'|] eqn:Hg; [|done].
      injection H as ->. destruct (IH eq_refl) as (j & Hm & Hkj & Hmax).
      exists j. split; [econstructor; eauto|]. by split.
    + exists i. split; [constructor|]. split.
      * unfold state_at. by rewrite Hr.
      * intros y Hy. congruence.
Qed.

(** The end of an explanation: the field and the lookahead after it
    succeed wherever they are tried, at the end of the text at the
    latest. *)
Lemma explanation_end_total st c :
  exec (Seq (field "exp") (Ahead (Alt (Seq ws q_marker) EndZ))) st c accept <> None.
Proof.
  destruct st as [i p rest]. unfold field.
  change (exec (Seq (Group "exp" (Star false Any)) (Ahead (Alt (Seq ws q_marker) EndZ)))
            (St i p rest) c accept)
    with (rep_lazy Any i p rest c
            (fun st' c' => exec (Ahead (Alt (Seq ws q_marker) EndZ)) st'
                             (<["exp"%string := (i, st_pos st')]> c') accept)).
  generalize i at 2. intros i0. revert i p.
  induction rest as [|x rest IH]; intros i p.
  - apply rep_lazy_fallback. done.
  - cbn [rep_lazy]. destruct (exec _ _ _ accept); [done|].
    change (cset_mem Any x) with true. cbv iota. apply IH.
Qed.

(** In a match of the block pattern the whitespace after the
    Explanation/Reference marker is passed whole, and the explanation
    ends at the first position from there on at which its stop can be
    matched, or at the end of the text when there is none. *)
Lemma block_first_stop t s m :
  s <= length t -> match_at QUESTION_BLOCK t (state_at t s) = Some m ->
  exists x0 x1 i,
    s <= x0 /\ Spans t explanation_marker x0 x1 /\ Spans t ws x1 i /\
    (forall x, t !! i = Some x -> Unicode.is_space x = false) /\
    i <= m_end m <= length t /\
    m_caps m !! "exp"%string = Some (i, m_end m) /\
    forall j, i <= j < m_end m -> q_stop_at t j = false.
Proof.
  intros Hs. unfold match_at. intros H.
  destruct (exec QUESTION_BLOCK (state_at t s) ∅ accept) as [[st' c']|] eqn:He;
    [|discriminate].
  injection H as <-. cbn [m_end m_caps].
  unfold QUESTION_BLOCK in He. cbn [cat] in He.
  apply exec_Seq_sound in He as (p1 & c1 & H1 & He).
  apply exec_Seq_sound in He as (p2 & c2 & H2 & He).
  apply exec_Seq_sound in He as (p3 & c3 & H3 & He).
  apply exec_Seq_sound in He as (p4 & c4 & H4 & He).
  apply exec_Seq_sound in He as (p5 & c5 & H5 & He).
  apply exec_Seq_sound in He as (p6 & c6 & H6 & He).
  unfold explanation_line in He. cbn [cat] in He.
  apply exec_Seq_sound in He as (x1 & c7 & H7 & He).
  pose proof (Matches_le _ _ _ _ _ _ H1). pose proof (Matches_le _ _ _ _ _ _ H2).
  pose proof (Matches_le _ _ _ _ _ _ H3). pose proof (Matches_le _ _ _ _ _ _ H4).
  pose proof (Matches_le _ _ _ _ _ _ H5). pose proof (Matches_le _ _ _ _ _ _ H6).
  pose proof (Matches_bound _ _ _ _ _ _ H1 Hs) as B1.
  pose proof (Matches_bound _ _ _ _ _ _ H2 B1) as B2.
  pose proof (Matches_bound _ _ _ _ _ _ H3 B2) as B3.
  pose proof (Matches_bound _ _ _ _ _ _ H4 B3) as B4.
  pose proof (Matches_bound _ _ _ _ _ _ H5 B4) as B5.
  pose proof (Matches_bound _ _ _ _ _ _ H6 B5) as B6.
  pose proof (Matches_bound _ _ _ _ _ _ H7 B6) as B7.
  set (L := Alt (Seq ws q_marker) EndZ) in *.
  change (exec (Seq ws (Seq (field "exp") (Ahead L))) (state_at t x1) c7 accept)
    with (rep_greedy Space x1 (prev_char t x1) (drop x1 t) c7
            (fun st' c' => exec (Seq (field "exp") (Ahead L)) st' c' accept)) in He.
  apply rep_greedy_all in He as (i & Hw & He & Hmax);
    [|intros st d; apply explanation_end_total].
  pose proof (Matches_bound _ _ _ _ _ _ Hw B7) as Bi.
  unfold field in He.
  change (exec (Seq (Group "exp" (Star false Any)) (Ahead L)) (state_at t i) c7 accept)
    with (rep_lazy Any i (prev_char t i) (drop i t) c7
            (fun st' c' => exec (Ahead L) st'
                             (<["exp"%string := (i, st_pos st')]> c') accept)) in He.
  apply rep_lazy_first in He as (j & Hj & He & Hfirst); [|exact Bi].
  cbn [state_at st_pos] in He.
  assert (Hres : (st', c') = (state_at t j, <["exp"%string := (i, j)]> c7)).
  { cbn [exec] in He.
    destruct (exec L (state_at t j) (<["exp"%string := (i, j)]> c7)
                (fun st'0 c'0 => Some (st'0, c'0))) as [[st1 d1]|] eqn:HL;
      [|discriminate].
    unfold accept in He. injection He as <- <-.
    apply exec_sound in HL as (j2 & d2 & HM & Hk). injection Hk as _ <-.
    f_equal. eapply Matches_no_groups; [exact HM|reflexivity]. }
  injection Hres as -> ->. cbn [state_at st_pos].
  exists p6, x1, i. split; [lia|]. split; [by eexists _, _|].
  split; [by eexists _, _|]. split; [exact Hmax|]. split; [lia|].
  split; [by rewrite lookup_insert|].
  intros j' Hj'. specialize (Hfirst j' Hj'). cbn [state_at st_pos exec] in Hfirst.
  destruct (q_stop_at t j') eqn:Hq; [exfalso|done].
  unfold q_stop_at in Hq.
  destruct (match_at q_stop t (state_at t j')) as [mq|] eqn:Hmq; [|discriminate].
  apply match_at_sound in Hmq as (_ & _ & HM).
  assert (HML : Matches t L j' ∅ (m_end mq) (m_caps mq)) by (by apply M_AltL).
  pose proof (exec_complete _ _ _ _ _ _ HML (fun st'0 c'0 => Some (st'0, c'0))
                ltac:(done) (<["exp"%string := (i, j')]> c7)) as Hne.
  destruct (exec L (state_at t j') (<["exp"%string := (i, j')]> c7)
              (fun st'0 c'0 => Some (st'0, c'0))) as [[st1 d1]|]; done.
Qed.

End ParserFacts.

(** ** The properties of the specification *)

Module Properties.
Import Re ReSpec ReFacts ParserFacts.

(** C1: parsing the minimal well-formed block yields exactly one record,
    with number 1, question "What is 2+2?", options A to D mapped to "3",
    "4", "5" and "6", answer "B" and explanation "Basic arithmetic.". *)
Theorem minimal_block_parses :
  parse_questions_from_text minimal_block =
  Ok [mkMCQ 1 (py "What is 2+2?")
            {[ "A"%string := py "3"; "B"%string := py "4";
               "C"%string := py "5"; "D"%string := py "6" ]}
            (py "B") (py "Basic arithmetic.")].
Proof. vm_compute. reflexivity. Qed.

Lemma StronglySorted_ascending rs :
  StronglySorted by_number rs -> ascending rs.
Proof.
  induction 1 as [|r rs Hs IH Hr]; intros i j x y Hij Hx Hy.
  - by rewrite lookup_nil in Hx.
  - destruct j as [|j]; [lia|]. simpl in Hy. destruct i as [|i]; simpl in Hx.
    + injection Hx as <-. rewrite Forall_forall in Hr.
      apply Hr. eapply list_elem_of_lookup_2; eauto.
    + eapply IH; [|eauto|eauto]. lia.
Qed.

(** C4: for every input text, the records that the parse returns are in
    ascending order of [number], whatever the order of the blocks in the
    document: they are the records of the matches, rearranged. *)
Theorem output_sorted txt rs :
  parse_questions_from_text txt = Ok rs ->
  ascending rs /\
  exists results,
    for_each record_of (finditer QUESTION_BLOCK (normalize_text txt)) = Ok results /\
    Permutation rs results.
Proof.
  intros (results & Hf & ->)%parse_Ok_inv. split.
  - apply StronglySorted_ascending, sort_by_number_sorted.
  - exists results. split; [exact Hf|apply sort_by_number_perm].
Qed.

Lemma output_sorted_witness :
  exists r1 r2,
    parse_questions_from_text reversed_blocks = Ok [r1; r2] /\
    number r1 = 1%Z /\ number r2 = 2%Z /\ ascending [r1; r2].
Proof.
  eexists _, _. split; [vm_compute; reflexivity|].
  split; [reflexivity|]. split; [reflexivity|].
  refine (proj1 (output_sorted reversed_blocks _ _)).
  vm_compute. reflexivity.
Defined.

(** C5: for every input text, the [answer] of every record of the output
    is one of the four labels A, B, C, D. *)
Theorem answer_is_label txt rs r :
  parse_questions_from_text txt = Ok rs -> r ∈ rs ->
  answer r ∈ [py "A"; py "B"; py "C"; py "D"].
Proof.
  intros Hp Hr.
  destruct (parse_record_match _ _ _ Hp Hr) as (m & Hm & Hrec).
  destruct (record_of_block _ _ Hm)
    as (num & q & a & b & c & d & x & ex & _ & _ & _ & _ & _ & _ & _ & _ & _ & _ & Hx & Hrec').
  rewrite Hrec' in Hrec.
  destruct (length num <=? int_max_str_digits); [|discriminate].
  injection Hrec as <-. simpl. by apply answer_of_letter.
Qed.

Lemma answer_is_label_witness :
  exists r, parse_questions_from_text question_zero = Ok [r] /\
            answer r = py "A" /\
            answer r ∈ [py "A"; py "B"; py "C"; py "D"].
Proof.
  eexists. split; [vm_compute; reflexivity|]. split; [reflexivity|].
  refine (answer_is_label question_zero _ _ _ _).
  - vm_compute. reflexivity.
  - apply list_elem_of_here.
Defined.

(** C6, as the specification states it, fails: a block numbered 0 gives a
    record whose [number] is 0, which is not positive. *)
Lemma number_zero_counterexample :
  exists r, parse_questions_from_text question_zero = Ok [r] /\
            number r = 0%Z /\ ~ (0 < number r)%Z.
Proof.
  eexists. split; [vm_compute; reflexivity|]. split; [reflexivity|].
  simpl. lia.
Qed.

(** C6, amended: for every input text, the [number] of every record of
    the output is a non-negative integer, the value of the non-empty run
    of decimal digits written after QUESTION. *)
Theorem number_nonnegative txt rs r :
  parse_questions_from_text txt = Ok rs -> r ∈ rs ->
  (0 <= number r)%Z /\
  exists m ds,
    m ∈ finditer QUESTION_BLOCK (normalize_text txt) /\
    group m "num" = Some ds /\ ds <> [] /\
    forallb Unicode.is_decimal ds = true /\ number r = digits_value ds.
Proof.
  intros Hp Hr.
  destruct (parse_record_match _ _ _ Hp Hr) as (m & Hm & Hrec).
  destruct (record_of_block _ _ Hm)
    as (num & q & a & b & c & d & x & ex & Hnum & _ & _ & _ & _ & _ & _ & _ & Hne & Hdig & _ & Hrec').
  rewrite Hrec' in Hrec.
  destruct (length num <=? int_max_str_digits); [|discriminate].
  injection Hrec as <-. simpl. split; [apply digits_value_nonneg|].
  exists m, num. auto.
Qed.

Lemma number_nonnegative_witness :
  exists r, parse_questions_from_text minimal_block = Ok [r] /\
            number r = 1%Z /\ (0 <= number r)%Z.
Proof.
  eexists. split; [vm_compute; reflexivity|]. split; [reflexivity|].
  refine (proj1 (number_nonnegative minimal_block _ _ _ _)).
  - vm_compute. reflexivity.
  - apply list_elem_of_here.
Defined.

(** C10, as the specification states it, fails in its aside: a block that
    leaves out [Option B] is not skipped when a later block supplies the
    marker; its record takes the later block's options. *)
Lemma omitted_option_counterexample :
  search (option_marker "B") missing_option_b = None /\
  parse_questions_from_text missing_option_b = Ok [] /\
  exists r, parse_questions_from_text malformed_then_good = Ok [r] /\
            number r = 1%Z /\ options r !! "B"%string = Some (py "2").
Proof.
  split; [vm_compute; reflexivity|]. split; [vm_compute; reflexivity|].
  eexists. split; [vm_compute; reflexivity|]. split; reflexivity.
Qed.

(** C10, amended: for every input text, the [options] of every record of
    the output has the four keys A, B, C, D, each holding the cleaned text
    of the option group of a match that has the four option markers in
    order, so no record lacks a key; the value of an option may be the
    empty string. *)
Theorem options_complete :
  (forall txt rs r,
     parse_questions_from_text txt = Ok rs -> r ∈ rs ->
     dom (options r) = list_to_set letters /\
     exists m a b c d,
       m ∈ finditer QUESTION_BLOCK (normalize_text txt) /\
       group m "A" = Some a /\ group m "B" = Some b /\
       group m "C" = Some c /\ group m "D" = Some d /\
       options r = options_from a b c d /\
       markers_in_order (normalize_text txt) (m_start m) (m_end m)) /\
  (exists r, parse_questions_from_text question_zero = Ok [r] /\
             options r !! "A"%string = Some []).
Proof.
  split.
  - intros txt rs r Hp Hr.
    destruct (parse_record_match _ _ _ Hp Hr) as (m & Hm & Hrec).
    destruct (record_of_block _ _ Hm)
      as (num & q & a & b & c & d & x & ex & _ & _ & Ha & Hb & Hc & Hd & _ & _ & _ & _ & _ & Hrec').
    rewrite Hrec' in Hrec.
    destruct (length num <=? int_max_str_digits); [|discriminate].
    injection Hrec as <-. simpl. split.
    + unfold options_from. rewrite !dom_insert_L, dom_empty_L.
      unfold letters. simpl. reflexivity.
    + exists m, a, b, c, d. repeat (split; [assumption|]). split; [reflexivity|].
      apply finditer_sound in Hm as (_ & _ & Hm).
      by apply block_shape in Hm as [Hm _].
  - eexists. split; [vm_compute; reflexivity|]. reflexivity.
Qed.

Lemma options_complete_witness :
  exists r, parse_questions_from_text minimal_block = Ok [r] /\
            dom (options r) = list_to_set letters.
Proof.
  eexists. split; [vm_compute; reflexivity|].
  refine (proj1 (proj1 options_complete minimal_block _ _ _ _)).
  - vm_compute. reflexivity.
  - apply list_elem_of_here.
Defined.

Lemma markers_not_nullable mk : mk ∈ markers -> nullable mk = false.
Proof.
  intros H. unfold markers in H.
  repeat (apply elem_of_cons in H as [->|H]; [reflexivity|]).
  by apply elem_of_nil in H.
Qed.

(** A text in which one of the seven markers is nowhere to be found has
    no seven markers in order. *)
Lemma missing_marker_no_order t mk :
  mk ∈ markers -> search mk t = None ->
  forall s e, ~ markers_in_order t s e.
Proof.
  intros Hmk Hs s e Hord.
  pose proof (proj1 (search_None_iff t mk (markers_not_nullable _ Hmk)) Hs) as Hno.
  destruct Hord as (q1 & a0 & a1 & b0 & b1 & c0 & c1 & d0 & d1 & k0 & k1 & x0 & x1
                    & Hq & _ & Ha & _ & Hb & _ & Hc & _ & Hd & _ & Hk & _ & Hx & _).
  unfold markers in Hmk.
  repeat (apply elem_of_cons in Hmk as [->|Hmk]; [by eapply Hno|]).
  by apply elem_of_nil in Hmk.
Qed.

(** C8, as the specification states it, fails: two blocks that are each
    malformed (each alone parses to nothing) are read as one block when
    the second supplies the markers the first lacks. *)
Lemma malformed_blocks_counterexample :
  parse_questions_from_text lacks_options_bcd = Ok [] /\
  parse_questions_from_text lacks_option_a = Ok [] /\
  exists r,
    parse_questions_from_text (lacks_options_bcd ++ py " " ++ lacks_option_a)
      = Ok [r] /\
    number r = 1%Z /\ options r !! "B"%string = Some (py "b") /\
    explanation r = py "f".
Proof.
  split; [vm_compute; reflexivity|]. split; [vm_compute; reflexivity|].
  eexists. split; [vm_compute; reflexivity|]. repeat split; reflexivity.
Qed.

(** C8, amended: for every input text whose normalized form does not hold
    the seven markers in order (in particular when one of them occurs
    nowhere), the parse returns the empty sequence and raises nothing. *)
Theorem no_block_no_record txt :
  (forall s e, ~ markers_in_order (normalize_text txt) s e) ->
  finditer QUESTION_BLOCK (normalize_text txt) = [] /\
  parse_questions_from_text txt = Ok [].
Proof.
  intros Hno.
  assert (Hf : finditer QUESTION_BLOCK (normalize_text txt) = []).
  { destruct (finditer QUESTION_BLOCK (normalize_text txt)) as [|m l] eqn:Hf;
      [reflexivity|exfalso].
    assert (Hm : m ∈ finditer QUESTION_BLOCK (normalize_text txt))
      by (rewrite Hf; apply list_elem_of_here).
    apply finditer_sound in Hm as (_ & _ & Hm).
    apply block_shape in Hm as [Hm _]. by eapply Hno. }
  split; [exact Hf|].
  unfold parse_questions_from_text. rewrite Hf. reflexivity.
Qed.

Lemma no_block_no_record_witness :
  parse_questions_from_text (py "hello world") = Ok [] /\
  parse_questions_from_text missing_option_b = Ok [].
Proof.
  split.
  - refine (proj2 (no_block_no_record (py "hello world") _)).
    apply (missing_marker_no_order _ question_marker);
      [apply list_elem_of_here|vm_compute; reflexivity].
  - refine (proj2 (no_block_no_record missing_option_b _)).
    apply (missing_marker_no_order _ (option_marker "B"));
      [unfold markers; in_list|vm_compute; reflexivity].
Defined.

Lemma q_stop_at_complete t j j' : Spans t q_stop j j' -> q_stop_at t j = true.
Proof.
  intros (c & c' & Hm). unfold q_stop_at.
  apply match_at_complete in Hm.
  by destruct (match_at q_stop t (state_at t j)).
Qed.

Lemma no_q_stop_from_at t i j :
  no_q_stop_from t i = true -> i <= j <= length t -> q_stop_at t j = false.
Proof.
  unfold no_q_stop_from. rewrite forallb_forall. intros Hall Hj.
  apply negb_true_iff, Hall, in_seq. lia.
Qed.

(** C7, as the specification states it, fails: an explanation that
    mentions "Q3" and runs to the end of the input, with no QUESTION
    marker after it, is cut before "Q3". *)
Lemma terminal_explanation_counterexample :
  q3_explanation =
    join_nl [py "QUESTION:1 What is 2+2?"; py "Option A: 3"; py "Option B: 4";
             py "Option C: 5"; py "Option D: 6"; py "Correct Answer: B";
             py "Explanation/Reference:" ++ py " See Q3 results."] /\
  search question_marker (py " See Q3 results.") = None /\
  exists r, parse_questions_from_text q3_explanation = Ok [r] /\
            explanation r = py "See" /\
            explanation r <> _clean (py " See Q3 results.").
Proof.
  split; [reflexivity|]. split; [vm_compute; reflexivity|].
  eexists. split; [vm_compute; reflexivity|]. split; [reflexivity|].
  vm_compute. discriminate.
Qed.

(** C7, amended: for every input text and every record of the output, the
    explanation is the cleaned text of the normalized input that begins
    where the whitespace after the block's Explanation/Reference marker
    ends and runs to the first position from there on at which a stop
    (whitespace, Q or QUESTION, an optional colon, digits) can be
    matched, or to the end of the normalized input when there is no such
    position.  The block is the match [m] the record is made from; the
    text is its [exp] group, which ends where the match ends. *)
Theorem explanation_runs_to_stop txt rs r :
  parse_questions_from_text txt = Ok rs -> r ∈ rs ->
  exists m x0 x1 i j,
    m ∈ finditer QUESTION_BLOCK (normalize_text txt) /\ record_of m = Ok r /\
    m_start m <= x0 /\ j = m_end m /\
    m_caps m !! "exp"%string = Some (i, j) /\
    Spans (normalize_text txt) explanation_marker x0 x1 /\
    Spans (normalize_text txt) ws x1 i /\
    (forall x, normalize_text txt !! i = Some x -> Unicode.is_space x = false) /\
    i <= j <= length (normalize_text txt) /\
    explanation r = _clean (substr (normalize_text txt) i j) /\
    (j = length (normalize_text txt) \/ q_stop_at (normalize_text txt) j = true) /\
    (forall j', i <= j' < j -> q_stop_at (normalize_text txt) j' = false) /\
    (no_q_stop_from (normalize_text txt) i = true ->
     explanation r = _clean (drop i (normalize_text txt))).
Proof.
  intros Hp Hr. set (t := normalize_text txt) in *.
  destruct (parse_record_match _ _ _ Hp Hr) as (m & Hm & Hrec). fold t in Hm.
  pose proof Hrec as Hrec0.
  destruct (record_of_block _ _ Hm)
    as (num & q & a & b & c & d & x & ex & _ & _ & _ & _ & _ & _ & _ & Hexp & _ & _ & _ & Hrec').
  rewrite Hrec' in Hrec.
  destruct (length num <=? int_max_str_digits); [|discriminate].
  injection Hrec as <-. simpl.
  pose proof Hm as Hm'.
  apply finditer_sound in Hm' as (Hstr & Hle & Hmatch).
  apply block_shape in Hmatch as (_ & _ & _ & _ & _ & _ & _ & _ & Hstop).
  destruct (finditer_match_at _ _ _ Hm) as (s & Hs & Hat).
  pose proof (match_at_sound _ _ _ _ Hat) as (_ & Hstart & _).
  destruct (block_first_stop _ _ _ Hs Hat)
    as (x0 & x1 & i & Hsx & Hx & Hw & Hmax & Hie & Hcap & Hfirst).
  assert (Hex : ex = substr t i (m_end m)).
  { unfold group in Hexp. rewrite Hcap, Hstr in Hexp. congruence. }
  exists m, x0, x1, i, (m_end m).
  split; [exact Hm|]. split; [exact Hrec0|]. split; [lia|]. split; [done|].
  repeat (split; [first [assumption|lia]|]).
  split; [by rewrite Hex|]. split; [|split; [exact Hfirst|]].
  - destruct Hstop as [Hz|[e' He']]; [left; lia|right].
    by eapply q_stop_at_complete.
  - intros Hno. rewrite Hex. f_equal.
    destruct Hstop as [Hz|[e' He']].
    + replace (m_end m) with (length t) by lia. apply substr_all.
    + apply q_stop_at_complete in He'.
      rewrite (no_q_stop_from_at t i (m_end m) Hno) in He' by lia. discriminate.
Qed.

Lemma explanation_runs_to_stop_witness :
  exists r, parse_questions_from_text q3_explanation = Ok [r] /\
    explanation r = py "See" /\
    exists m x0 x1 i j,
      m ∈ finditer QUESTION_BLOCK (normalize_text q3_explanation) /\
      record_of m = Ok r /\
      m_start m <= x0 /\ j = m_end m /\
      m_caps m !! "exp"%string = Some (i, j) /\
      Spans (normalize_text q3_explanation) explanation_marker x0 x1 /\
      Spans (normalize_text q3_explanation) ws x1 i /\
      (forall x, normalize_text q3_explanation !! i = Some x ->
                 Unicode.is_space x = false) /\
      i <= j <= length (normalize_text q3_explanation) /\
      explanation r = _clean (substr (normalize_text q3_explanation) i j) /\
      (j = length (normalize_text q3_explanation) \/
       q_stop_at (normalize_text q3_explanation) j = true) /\
      (forall j', i <= j' < j -> q_stop_at (normalize_text q3_explanation) j' = false) /\
      (no_q_stop_from (normalize_text q3_explanation) i = true ->
       explanation r = _clean (drop i (normalize_text q3_explanation))).
Proof.
  eexists. split; [vm_compute; reflexivity|]. split; [reflexivity|].
  refine (explanation_runs_to_stop q3_explanation _ _ _ _).
  - vm_compute. reflexivity.
  - apply list_elem_of_here.
Defined.

Lemma conditions_distinct e : UnsupportedFormat e -> ~ ExtractionUnavailable e.
Proof.
  unfold UnsupportedFormat, ExtractionUnavailable. intros -> [H|H]; discriminate.
Qed.

Lemma extraction_unavailable_pdf env file_bytes :
  pdf_extract_text env = None ->
  exists e, extract_text_from_pdf env file_bytes = Raise e /\
            ExtractionUnavailable e.
Proof.
  intros H. unfold extract_text_from_pdf. rewrite H.
  eexists. split; [reflexivity|]. by left.
Qed.

Lemma extraction_unavailable_docx env file_bytes :
  Document env = None ->
  exists e, extract_text_from_docx env file_bytes = Raise e /\
            ExtractionUnavailable e.
Proof.
  intros H. unfold extract_text_from_docx. rewrite H.
  eexists. split; [reflexivity|]. by right.
Qed.

(** C9: for every payload and every file name whose lower-cased form ends
    in neither [.pdf] nor [.docx], [parse_any] raises the unsupported-file
    error, whatever the extraction libraries; it is not one of the errors
    raised when an extraction library is missing. *)
Theorem unsupported_kind env file_bytes filename :
  endswith (lower filename) (py ".pdf") = false ->
  endswith (lower filename) (py ".docx") = false ->
  exists e, parse_any env file_bytes filename = Raise e /\
            UnsupportedFormat e /\ ~ ExtractionUnavailable e.
Proof.
  intros Hpdf Hdocx. unfold parse_any. rewrite Hpdf, Hdocx.
  eexists. split; [reflexivity|]. split; [reflexivity|].
  by apply conditions_distinct.
Qed.

Lemma unsupported_kind_witness :
  parse_any no_extractors [] (py "notes.txt") =
    Raise (RuntimeError unsupported_file_type) /\
  parse_any no_extractors [] (py "exam.PDF") = Raise (RuntimeError pdf_required) /\
  exists e, parse_any no_extractors [] (py "notes.txt") = Raise e /\
            UnsupportedFormat e /\ ~ ExtractionUnavailable e.
Proof.
  split; [reflexivity|]. split; [reflexivity|].
  destruct (unsupported_kind no_extractors [] (py "notes.txt") eq_refl eq_refl)
    as (e & He & Hu & Hn).
  exists e. auto.
Defined.

(** C3, as the specification states it, fails in two ways: each
    normalization strips one URL from the end of the text, and each
    removes the innermost [Select one:] prompts only, so the text
    normalized once more parses to another explanation, or to another
    question. *)
Lemma idempotence_counterexample :
  (exists r1 r2,
    parse_questions_from_text (normalize_text url_tails) = Ok [r1] /\
    parse_questions_from_text (normalize_text (normalize_text url_tails)) = Ok [r2] /\
    explanation r1 = py "Basic arithmetic. see https://a.b/c" /\
    explanation r2 = py "Basic arithmetic. see" /\
    parse_questions_from_text (normalize_text url_tails) <>
    parse_questions_from_text (normalize_text (normalize_text url_tails))) /\
  (exists r1 r2,
    parse_questions_from_text (normalize_text nested_prompts) = Ok [r1] /\
    parse_questions_from_text (normalize_text (normalize_text nested_prompts)) = Ok [r2] /\
    question r1 = py "What Select one: is?" /\
    question r2 = py "What is?" /\
    parse_questions_from_text (normalize_text nested_prompts) <>
    parse_questions_from_text (normalize_text (normalize_text nested_prompts))).
Proof.
  split.
  - eexists _, _. split; [vm_compute; reflexivity|].
    split; [vm_compute; reflexivity|].
    split; [reflexivity|]. split; [reflexivity|].
    vm_compute. discriminate.
  - eexists _, _. split; [vm_compute; reflexivity|].
    split; [vm_compute; reflexivity|].
    split; [reflexivity|]. split; [reflexivity|].
    vm_compute. discriminate.
Qed.

End Properties.

(** ** The normalizer on documents made of blocks *)

Module Scanning.
Import Re ReSpec ReFacts ParserFacts.

(** *** The reach of a pattern *)

Lemma reach_seq_flag (F : nat -> list nat * bool) b ns :
  (foldr (fun n acc => join (shift n (F n)) acc) ([], b) ns).2 = false ->
  b = false /\ forall n, n ∈ ns -> (F n).2 = false.
Proof.
  induction ns as [|n ns IH]; simpl.
  - intros ->. split; [done|]. intros n Hn. by apply elem_of_nil in Hn.
  - intros H. apply orb_false_iff in H as [H1 H2].
    destruct (IH H2) as [Hb Hns]. split; [done|].
    intros m Hm. apply elem_of_cons in Hm as [->|Hm]; auto.
Qed.

Lemma reach_seq_mem (F : nat -> list nat * bool) b ns n m :
  n ∈ ns -> m ∈ (F n).1 ->
  n + m ∈ (foldr (fun n acc => join (shift n (F n)) acc) ([], b) ns).1.
Proof.
  intros Hn Hm. induction ns as [|n' ns IH]; [by apply elem_of_nil in Hn|].
  simpl. apply elem_of_app. apply elem_of_cons in Hn as [->|Hn].
  - left. apply list_elem_of_fmap. by exists m.
  - right. by apply IH.
Qed.

Lemma rep_greedy_reach q : forall w rest i p c k,
  (run_length q w = length w -> rest = []) ->
  (forall n p' c', n <= run_length q w ->
     k (St (n + i) p' (drop n w ++ rest)) c' = None) ->
  rep_greedy q i p (w ++ rest) c k = None.
Proof.
  induction w as [|x w IH]; intros rest i p c k Hrun Hk.
  - rewrite (Hrun eq_refl) in Hk |- *. apply (Hk 0). cbn. lia.
  - cbn [app rep_greedy]. cbn [run_length length] in Hrun, Hk.
    destruct (cset_mem q x).
    + rewrite IH.
      * apply (Hk 0). lia.
      * intros E. apply Hrun. by rewrite E.
      * intros n p' c' Hn. replace (n + S i) with (S n + i) by lia.
        apply (Hk (S n)). lia.
    + apply (Hk 0). lia.
Qed.

Lemma rep_lazy_reach q : forall w rest i p c k,
  (run_length q w = length w -> rest = []) ->
  (forall n p' c', n <= run_length q w ->
     k (St (n + i) p' (drop n w ++ rest)) c' = None) ->
  rep_lazy q i p (w ++ rest) c k = None.
Proof.
  induction w as [|x w IH]; intros rest i p c k Hrun Hk.
  - rewrite (Hrun eq_refl) in Hk |- *. cbn [app rep_lazy].
    pose proof (Hk 0 p c ltac:(cbn; lia)) as H0. cbn in H0. by rewrite H0.
  - cbn [app rep_lazy]. cbn [run_length length] in Hrun, Hk.
    pose proof (Hk 0 p c ltac:(lia)) as H0. cbn [drop Nat.add] in H0.
    change (x :: w ++ rest) with ((x :: w) ++ rest). rewrite H0. cbn [app].
    destruct (cset_mem q x); [|reflexivity].
    apply IH; [intros E; apply Hrun; by rewrite E|].
    intros n p' c' Hn. replace (n + S i) with (S n + i) by lia.
    apply (Hk (S n)). lia.
Qed.

(** If what follows fails wherever the pattern can hand over, and the
    pattern cannot read past [w], the match fails. *)
Lemma exec_reach cl r : forall w rest i p c k,
  (cl = true -> rest = []) ->
  (reach cl r w).2 = false ->
  (forall n p' c', n ∈ (reach cl r w).1 ->
     k (St (n + i) p' (drop n w ++ rest)) c' = None) ->
  exec r (St i p (w ++ rest)) c k = None.
Proof.
  intros w rest i p c k Hcl. revert w i p c k.
  induction r as [|q|r1 IH1 r2 IH2|r1 IH1 r2 IH2|g q|q|r1 IH1|g r1 IH1|r1 IH1|q| | |];
    intros w i p c k Hf Hk.
  - apply (Hk 0). by apply list_elem_of_here.
  - destruct w as [|x w].
    + cbn in Hf. apply negb_false_iff in Hf. by rewrite (Hcl Hf).
    + cbn in Hk |- *. destruct (cset_mem q x); [|reflexivity].
      apply (Hk 1). by apply list_elem_of_here.
  - cbn [exec]. cbn [reach] in Hf, Hk.
    apply reach_seq_flag in Hf as [Hf1 Hf2].
    apply IH1; [exact Hf1|]. intros n p' c' Hn.
    apply IH2; [by apply Hf2|]. intros m p'' c'' Hm.
    rewrite drop_drop. replace (m + (n + i)) with (n + m + i) by lia.
    apply Hk. by apply reach_seq_mem.
  - cbn [exec]. cbn [reach join] in Hf, Hk. apply orb_false_iff in Hf as [Hf1 Hf2].
    rewrite IH1; [apply IH2|..]; auto.
    + intros n p' c' Hn. apply Hk, elem_of_app. by right.
    + intros n p' c' Hn. apply Hk, elem_of_app. by left.
  - cbn [reach] in Hf, Hk.
    assert (Hrun : run_length q w = length w -> rest = []).
    { intros E. apply Hcl. rewrite E, Nat.eqb_refl, andb_true_r in Hf.
      by apply negb_false_iff in Hf. }
    assert (Hk' : forall n p' c', n <= run_length q w ->
              k (St (n + i) p' (drop n w ++ rest)) c' = None).
    { intros n p' c' Hn. apply Hk. cbn [fst]. apply elem_of_seq. lia. }
    destruct g; cbn [exec st_pos st_prev st_rest].
    + by apply rep_greedy_reach.
    + by apply rep_lazy_reach.
  - cbn [reach] in Hf, Hk.
    destruct w as [|x w].
    + cbn in Hf. rewrite andb_true_r in Hf. apply negb_false_iff in Hf.
      by rewrite (Hcl Hf).
    + cbn [app exec st_rest st_pos run_length length] in *.
      destruct (cset_mem q x); [|reflexivity].
      apply rep_greedy_reach.
      * intros E. apply Hcl. rewrite E, Nat.eqb_refl, andb_true_r in Hf.
        by apply negb_false_iff in Hf.
      * intros n p' c' Hn. replace (n + S i) with (S n + i) by lia.
        apply (Hk (S n)). cbn [fst]. apply elem_of_seq. lia.
  - cbn [exec]. cbn [reach join] in Hf, Hk.
    rewrite IH1; [| exact Hf |].
    + apply (Hk 0). by apply list_elem_of_here.
    + intros n p' c' Hn. apply Hk. by apply list_elem_of_further.
  - cbn [exec]. cbn [reach] in Hf, Hk. apply IH1; [exact Hf|].
    intros n p' c' Hn. cbn [st_pos]. by apply Hk.
  - cbn [exec]. cbn [reach] in Hf, Hk.
    destruct (reach cl r1 w) as [[|n ns] [|]] eqn:E.
    + destruct (exec r1 _ c _) as [[st c']|]; [|reflexivity].
      apply (Hk 0). by apply list_elem_of_here.
    + rewrite IH1; [reflexivity| by rewrite E |].
      intros n p' c' Hn. rewrite E in Hn. by apply elem_of_nil in Hn.
    + destruct (exec r1 _ c _) as [[st c']|]; [|reflexivity].
      apply (Hk 0). by apply list_elem_of_here.
    + destruct (exec r1 _ c _) as [[st c']|]; [|reflexivity].
      apply (Hk 0). by apply list_elem_of_here.
  - cbn [exec st_prev]. pose proof (Hk 0 p c (list_elem_of_here _ _)) as H0.
    destruct p as [y|]; [destruct (cset_mem q y)|]; done.
  - cbn [exec]. pose proof (Hk 0 p c (list_elem_of_here _ _)) as H0.
    destruct (xorb _ _); done.
  - destruct w as [|x w]; cbn in Hk |- *.
    + pose proof (Hk 0 p c (list_elem_of_here _ _)) as H0.
      destruct rest; done.
    + reflexivity.
  - pose proof (Hk 0 p c (list_elem_of_here _ _)) as H0. cbn in H0 |- *.
    rewrite drop_0 in H0. revert H0. destruct (w ++ rest) as [|x [|y l]]; [done| |done].
    destruct (x =? NL)%N; done.
Qed.

Lemma exec_dead cl r w rest i p c k :
  (cl = true -> rest = []) ->
  dead cl r w = true -> exec r (St i p (w ++ rest)) c k = None.
Proof.
  unfold dead. intros Hcl H.
  destruct (reach cl r w) as [[|n ns] [|]] eqn:E; try discriminate.
  apply (exec_reach cl); [done|by rewrite E|]. rewrite E.
  intros n p' c' Hn. by apply elem_of_nil in Hn.
Qed.

Lemma match_at_dead cl r t w rest i p :
  (cl = true -> rest = []) ->
  dead cl r w = true -> match_at r t (St i p (w ++ rest)) = None.
Proof. intros Hcl H. unfold match_at. by rewrite (exec_dead cl). Qed.

Lemma dead_Seq cl r1 r2 w : dead cl r1 w = true -> dead cl (Seq r1 r2) w = true.
Proof.
  unfold dead. cbn [reach].
  destruct (reach cl r1 w) as [[|n ns] [|]]; try discriminate. reflexivity.
Qed.

(** *** Scanning *)

Lemma sub_from_miss r tpl t i p c rest :
  match_at r t (St i p (c :: rest)) = None ->
  sub_from r tpl t 0 i p (c :: rest) = c :: sub_from r tpl t 0 (S i) (Some c) rest.
Proof. intros H. simpl. by rewrite H. Qed.

Lemma sub_from_end r tpl t i p :
  match_at r t (St i p []) = None -> sub_from r tpl t 0 i p [] = [].
Proof. intros H. simpl. by rewrite H. Qed.

Lemma sub_from_skip r tpl t n i p c rest :
  sub_from r tpl t (S n) i p (c :: rest) = sub_from r tpl t n (S i) (Some c) rest.
Proof. reflexivity. Qed.

Lemma last_of_cons p c f : last_of (Some c) f = last_of p (c :: f).
Proof. reflexivity. Qed.

(** Scanning a text at no position of which the pattern gets anywhere
    copies the text. *)
Lemma sub_from_dead cl r tpl t next rest f : forall i p,
  (cl = true -> rest = []) ->
  all_tails (fun w => dead cl r (w ++ next)) f = true ->
  sub_from r tpl t 0 i p (f ++ next ++ rest) =
  f ++ sub_from r tpl t 0 (i + length f) (last_of p f) (next ++ rest).
Proof.
  intros i p Hcl. revert i p.
  induction f as [|c f IH]; intros i p Hf.
  - simpl. by rewrite Nat.add_0_r.
  - cbn [all_tails] in Hf. apply andb_true_iff in Hf as [Hc Hf].
    change ((c :: f) ++ next ++ rest) with (c :: f ++ next ++ rest) at 1.
    rewrite sub_from_miss.
    + rewrite IH by exact Hf. cbn [length app].
      rewrite <- last_of_cons.
      replace (i + S (length f)) with (S i + length f) by lia. reflexivity.
    + change (c :: f ++ next ++ rest) with ((c :: f) ++ next ++ rest).
      rewrite app_assoc. by apply (match_at_dead cl).
Qed.

Lemma all_tails_impl (Q Q' : str -> bool) f :
  (forall w, Q w = true -> Q' w = true) ->
  all_tails Q f = true -> all_tails Q' f = true.
Proof.
  intros HQ. induction f as [|c f IH]; [done|]. cbn.
  intros [H1 H2]%andb_true_iff. rewrite (HQ _ H1), IH; done.
Qed.

Lemma quiet_dead cl next P f :
  P ∈ probes -> quiet_before cl next f = true ->
  all_tails (fun w => dead cl P (w ++ next)) f = true.
Proof.
  intros HP. apply all_tails_impl. intros w Hw.
  rewrite forallb_forall in Hw. by apply Hw, list_elem_of_In.
Qed.

Lemma fieldtext_quiet cl next f :
  (cl, next) ∈ followers -> fieldtext f = true -> quiet_before cl next f = true.
Proof.
  unfold fieldtext. intros Hn [_ H]%andb_true_iff.
  rewrite forallb_forall in H. by apply (H (cl, next)), list_elem_of_In.
Qed.

Lemma fieldtext_spaced f : fieldtext f = true -> spaced true f = true.
Proof. unfold fieldtext. by intros [? _]%andb_true_iff. Qed.

Lemma probe_field P tpl t i p f rest :
  P ∈ probes -> fieldtext f = true -> follows rest ->
  sub_from P tpl t 0 i p (f ++ rest) =
  f ++ sub_from P tpl t 0 (i + length f) (last_of p f) rest.
Proof.
  intros HP Hf (cl & next & rest' & Hn & -> & Hcl).
  apply (sub_from_dead cl); [done|].
  apply quiet_dead; [done|]. by apply fieldtext_quiet.
Qed.

Lemma numeral_quiet n : numeral n = true -> quiet_before false (py " ") n = true.
Proof. unfold numeral. by intros [_ ?]%andb_true_iff. Qed.

Lemma numeral_spaced n : numeral n = true -> spaced true n = true.
Proof.
  unfold numeral. by intros [[[? _]%andb_true_iff _]%andb_true_iff _]%andb_true_iff.
Qed.

Lemma probe_numeral P tpl t i p n rest :
  P ∈ probes -> numeral n = true ->
  sub_from P tpl t 0 i p (n ++ 0x20%N :: rest) =
  n ++ sub_from P tpl t 0 (i + length n) (last_of p n) (0x20%N :: rest).
Proof.
  intros HP Hn.
  apply (sub_from_dead false P tpl t [0x20%N] rest); [done|].
  apply quiet_dead; [done|]. by apply numeral_quiet.
Qed.

(** *** Words and single spaces *)

Lemma not_space_neq x y :
  Unicode.is_space x = false -> Unicode.is_space y = true -> (x =? y)%N = false.
Proof. intros Hx Hy. apply N.eqb_neq. intros ->. congruence. Qed.

Lemma spaced_inv b x f :
  spaced b (x :: f) = true ->
  (x = 0x20%N /\ b = false /\ spaced true f = true) \/
  (Unicode.is_space x = false /\ spaced false f = true).
Proof.
  cbn [spaced]. destruct (N.eqb_spec x 0x20) as [->|Hne].
  - intros [Hb Hf]%andb_true_iff. left. by destruct b.
  - intros [Hx Hf]%andb_true_iff. right. by apply negb_true_iff in Hx.
Qed.

Lemma spaced_first f :
  spaced true f = true ->
  exists x f', f = x :: f' /\ Unicode.is_space x = false /\ spaced false f' = true.
Proof.
  destruct f as [|x f']; [discriminate|].
  intros [(_ & [=] & _)|[Hx Hf]]%spaced_inv. by exists x, f'.
Qed.

Lemma spaced_last f : forall b p,
  f <> [] -> spaced b f = true -> okprev (last_of p f).
Proof.
  induction f as [|x f IH]; intros b p Hne H; [done|].
  destruct f as [|y f].
  - apply spaced_inv in H as [(_ & _ & [=])|[Hx _]].
    cbn. intros [= ->]. discriminate Hx.
  - rewrite <- last_of_cons.
    apply spaced_inv in H as [(_ & _ & H)|[_ H]]; by eapply IH.
Qed.

Lemma fieldtext_inv f :
  fieldtext f = true ->
  exists x f', f = x :: f' /\ Unicode.is_space x = false.
Proof.
  intros (x & f' & -> & Hx & _)%fieldtext_spaced%spaced_first. by exists x, f'.
Qed.

Lemma fieldtext_last p f : fieldtext f = true -> okprev (last_of p f).
Proof.
  intros H. pose proof (fieldtext_inv _ H) as (x & f' & -> & _).
  by apply (spaced_last _ true), fieldtext_spaced.
Qed.

Lemma drop_to_suffix (t : str) i u v :
  drop i t = u ++ v -> drop (i + length u) t = v.
Proof.
  intros H. rewrite <- drop_drop, H. by rewrite drop_app_length.
Qed.

Lemma wf_block_inv b :
  wf_block b = true ->
  numeral (b_num b) = true /\ fieldtext (b_q b) = true /\
  fieldtext (b_a b) = true /\ fieldtext (b_b b) = true /\
  fieldtext (b_c b) = true /\ fieldtext (b_d b) = true /\
  answer_letter (b_ans b) = true /\ fieldtext (b_exp b) = true.
Proof.
  unfold wf_block. intros H.
  do 7 (apply andb_true_iff in H as [H ?]). auto 10.
Qed.

(** *** What follows a field *)

Ltac is_follower := unfold followers; cbn [flat_map app]; in_list.

Lemma follows_nil : follows [].
Proof. exists true, [], []. split; [is_follower|done]. Qed.

Lemma follows_option b l rest : l ∈ letters -> follows (seg_option b l ++ rest).
Proof.
  intros Hl. unfold letters in Hl.
  repeat (apply elem_of_cons in Hl as [->|Hl]); [| | | |by apply elem_of_nil in Hl].
  all: destruct b.
  all: lazymatch goal with
       | |- follows (seg_option ?b ?l ++ _) =>
           exists false, (seg_option b l), rest;
           split; [is_follower|split; [reflexivity|done]]
       end.
Qed.

Lemma follows_answer bK ans bX rest : follows (seg_answer bK ans bX ++ rest).
Proof.
  exists false, (nl bK ++ py "Correct Answer: "), ([ans] ++ nl bX ++ py "Explanation/Reference: " ++ rest).
  split; [destruct bK; is_follower|]. split; [|done].
  unfold seg_answer. by rewrite <- !app_assoc.
Qed.

Lemma follows_question b num rest : follows (seg_question b num ++ rest).
Proof.
  exists false, (nl b ++ py "QUESTION:"), (num ++ py " " ++ rest).
  split; [destruct b; is_follower|]. split; [|done].
  unfold seg_question. by rewrite <- !app_assoc.
Qed.

Lemma follows_render s first bs : follows (render s first bs).
Proof.
  destruct bs as [|b bs]; [apply follows_nil|].
  cbn [render]. unfold render_block. rewrite <- !app_assoc. apply follows_question.
Qed.

Section Pass.
Context (P : re) (tpl : list titem).
Context (gq : bool -> bool) (go : string -> bool -> bool) (gk gx : bool -> bool).
Context (HP : pass_ok P tpl gq go gk gx).

(** A piece and the field after it: the piece is rewritten by its rule,
    the field is copied. *)
Lemma scan_piece_field (S S' : str) :
  (forall t i p x rest,
     okprev p -> Unicode.is_space x = false -> drop i t = S ++ x :: rest ->
     sub_from P tpl t 0 i p (S ++ x :: rest) =
     S' ++ sub_from P tpl t 0 (i + length S) (Some 0x20%N) (x :: rest)) ->
  forall t i p f rest,
    okprev p -> fieldtext f = true -> follows rest -> drop i t = S ++ f ++ rest ->
    sub_from P tpl t 0 i p (S ++ f ++ rest) =
      S' ++ f ++ sub_from P tpl t 0 (i + length (S ++ f))
                          (last_of (Some 0x20%N) f) rest /\
    okprev (last_of (Some 0x20%N) f) /\
    drop (i + length (S ++ f)) t = rest.
Proof.
  intros Hrule t i p f rest Hp Hf Hfo Hd.
  destruct (fieldtext_inv _ Hf) as (x & f' & E & Hx).
  split; [|split].
  - rewrite E in Hd |- * at 1. cbn [app] in Hd |- *.
    rewrite (Hrule t i p x _ Hp Hx Hd).
    change (x :: f' ++ rest) with ((x :: f') ++ rest). rewrite <- E.
    rewrite (ok_field _ _ _ _ _ _ HP) by done.
    rewrite length_app, Nat.add_assoc. reflexivity.
  - by apply fieldtext_last.
  - rewrite app_assoc in Hd. by apply drop_to_suffix in Hd.
Qed.

Lemma pass_block s first b : forall t i p rest,
  wf_block b = true -> okprev p -> follows rest ->
  drop i t = render_block s first b ++ rest ->
  exists j q,
    sub_from P tpl t 0 i p (render_block s first b ++ rest) =
      render_block (map_seps go gq gk gx s) (gq first) b ++
      sub_from P tpl t 0 j q rest /\
    okprev q /\ drop j t = rest.
Proof.
  intros t i p rest Hwf Hp Hfo Hd.
  apply wf_block_inv in Hwf as (Hn & Hq & Ha & Hb & Hc & Hd' & Hans & He).
  unfold render_block in *. cbn [map_seps sA sB sC sD sK sX sQ].
  repeat rewrite <- app_assoc in *.
  destruct (scan_piece_field (seg_question first (b_num b))
              (seg_question (gq first) (b_num b))
              (fun t i p x rest Hp Hx => ok_question _ _ _ _ _ _ HP t i p _ _ x rest Hp Hn Hx)
              _ _ _ _ _ Hp Hq (follows_option _ "A" _ ltac:(in_list)) Hd)
    as (-> & Hp1 & Hd1).
  destruct (scan_piece_field (seg_option (sA s) "A") (seg_option (go "A" (sA s)) "A")
              (fun t i p x rest Hp Hx =>
                 ok_option _ _ _ _ _ _ HP t i p _ "A"%string x rest ltac:(in_list) Hp Hx)
              _ _ _ _ _ Hp1 Ha (follows_option _ "B" _ ltac:(in_list)) Hd1)
    as (-> & Hp2 & Hd2).
  destruct (scan_piece_field (seg_option (sB s) "B") (seg_option (go "B" (sB s)) "B")
              (fun t i p x rest Hp Hx =>
                 ok_option _ _ _ _ _ _ HP t i p _ "B"%string x rest ltac:(in_list) Hp Hx)
              _ _ _ _ _ Hp2 Hb (follows_option _ "C" _ ltac:(in_list)) Hd2)
    as (-> & Hp3 & Hd3).
  destruct (scan_piece_field (seg_option (sC s) "C") (seg_option (go "C" (sC s)) "C")
              (fun t i p x rest Hp Hx =>
                 ok_option _ _ _ _ _ _ HP t i p _ "C"%string x rest ltac:(in_list) Hp Hx)
              _ _ _ _ _ Hp3 Hc (follows_option _ "D" _ ltac:(in_list)) Hd3)
    as (-> & Hp4 & Hd4).
  destruct (scan_piece_field (seg_option (sD s) "D") (seg_option (go "D" (sD s)) "D")
              (fun t i p x rest Hp Hx =>
                 ok_option _ _ _ _ _ _ HP t i p _ "D"%string x rest ltac:(in_list) Hp Hx)
              _ _ _ _ _ Hp4 Hd' (follows_answer _ _ _ _) Hd4)
    as (-> & Hp5 & Hd5).
  destruct (scan_piece_field (seg_answer (sK s) (b_ans b) (sX s))
              (seg_answer (gk (sK s)) (b_ans b) (gx (sX s)))
              (fun t i p x rest Hp Hx =>
                 ok_answer _ _ _ _ _ _ HP t i p _ _ _ x rest Hp Hans Hx)
              _ _ _ _ _ Hp5 He Hfo Hd5) as (-> & Hp6 & Hd6).
  eexists _, _. split; [repeat rewrite <- app_assoc; reflexivity|].
  split; assumption.
Qed.

(** The pass on a whole document. *)
Lemma pass_render bs : forall s first t i p,
  Forall (fun b => wf_block b = true) bs -> okprev p ->
  drop i t = render s first bs ->
  sub_from P tpl t 0 i p (render s first bs) =
  render (map_seps go gq gk gx s) (gq first) bs.
Proof.
  induction bs as [|b bs IH]; intros s first t i p Hwf Hp Hd.
  - simpl. apply sub_from_end. apply (ok_end _ _ _ _ _ _ HP).
  - apply Forall_cons in Hwf as [Hb Hbs]. cbn [render] in *.
    destruct (pass_block s first b t i p _ Hb Hp (follows_render _ _ _) Hd)
      as (j & q & -> & Hq & Hj).
    rewrite (IH s (sQ s) t j q Hbs Hq Hj). reflexivity.
Qed.

Lemma sub_render bs s first :
  Forall (fun b => wf_block b = true) bs ->
  sub P tpl (render s first bs) =
  render (map_seps go gq gk gx s) (gq first) bs.
Proof. intros Hwf. unfold sub. by apply pass_render. Qed.

End Pass.

(** *** The end of the text *)

Lemma exec_end_same r : forall i p c k,
  (forall c', k (St i p []) c' = None) -> exec r (St i p []) c k = None.
Proof.
  induction r as [|q|r1 IH1 r2 IH2|r1 IH1 r2 IH2|g q|q|r1 IH1|g r1 IH1|r1 IH1|q| | |];
    intros i p c k Hk; simpl.
  - apply Hk.
  - reflexivity.
  - apply IH1. intros c'. by apply IH2.
  - rewrite IH1; auto.
  - destruct g; simpl; by rewrite Hk.
  - reflexivity.
  - rewrite IH1; auto.
  - apply IH1. intros c'. apply Hk.
  - destruct (exec r1 _ c _) as [[st c']|]; auto.
  - destruct p as [y|]; auto. destruct (cset_mem q y); auto.
  - destruct (xorb _ _); auto.
  - apply Hk.
  - apply Hk.
Qed.

Lemma exec_end r : forall i p c k,
  needs_char r = true -> exec r (St i p []) c k = None.
Proof.
  induction r as [|q|r1 IH1 r2 IH2|r1 IH1 r2 IH2|g q|q|r1 IH1|g r1 IH1|r1 IH1|q| | |];
    intros i p c k Hn; simpl in *; try discriminate.
  - reflexivity.
  - apply orb_true_iff in Hn as [Hn|Hn]; [by apply IH1|].
    apply exec_end_same. intros c'. by apply IH2.
  - apply andb_true_iff in Hn as [H1 H2]. rewrite IH1; auto.
  - reflexivity.
  - by apply IH1.
  - by rewrite IH1.
Qed.

Lemma match_at_end r t i p : needs_char r = true -> match_at r t (St i p []) = None.
Proof. intros H. unfold match_at. by rewrite exec_end. Qed.

(** *** The pieces of a document, pass by pass *)

Ltac concrete s :=
  let v := eval vm_compute in (py s) in change (py s) with v in *.

Ltac literals :=
  concrete "QUESTION:"%string; concrete " "%string; concrete "Option "%string;
  concrete ": "%string; concrete "A"%string; concrete "B"%string;
  concrete "C"%string; concrete "D"%string;
  concrete "Correct Answer: "%string; concrete "Explanation/Reference: "%string.

Lemma numeral_inv num :
  numeral num = true ->
  exists d num', num = d :: num' /\ Unicode.is_space d = false /\
    Forall (fun x => cset_mem Digit x = true) (d :: num').
Proof.
  intros H. pose proof (numeral_spaced _ H) as (d & num' & -> & Hd & _)%spaced_first.
  exists d, num'. split; [done|]. split; [done|].
  unfold numeral in H.
  apply andb_true_iff in H as [[[_ H]%andb_true_iff _]%andb_true_iff _].
  apply Forall_forall. intros x Hx%list_elem_of_In.
  rewrite forallb_forall in H. by apply H.
Qed.

Lemma answer_letter_inv x :
  answer_letter x = true ->
  x ∈ [0x41; 0x42; 0x43; 0x44; 0x61; 0x62; 0x63; 0x64]%N.
Proof.
  unfold answer_letter. change (py "ABCDabcd") with [0x41; 0x42; 0x43; 0x44; 0x61; 0x62; 0x63; 0x64]%N.
  intros H. apply existsb_exists in H as (y & Hy & ->%N.eqb_eq).
  by apply list_elem_of_In.
Qed.

Lemma answer_letter_okprev x : answer_letter x = true -> okprev (Some x).
Proof.
  intros H%answer_letter_inv [= ->].
  repeat (apply elem_of_cons in H as [H|H]; [discriminate|]).
  by apply elem_of_nil in H.
Qed.

(** The lookbehind of the marker passes. *)
Lemma match_at_unanchored pat t i p cur :
  okprev p ->
  match_at (unanchored pat) t (St i p cur) = match_at (Group "1" pat) t (St i p cur).
Proof.
  intros Hp. unfold match_at, unanchored. simpl.
  destruct p as [y|]; [|reflexivity].
  destruct (N.eqb_spec y NL) as [->|Hne]; [by destruct Hp|reflexivity].
Qed.

Lemma match_at_dead1 r t c rest i p :
  dead false r [c] = true -> match_at r t (St i p (c :: rest)) = None.
Proof. by apply (match_at_dead false r t [c] rest). Qed.

Ltac miss_side :=
  first [ apply match_at_dead1; vm_compute; reflexivity
        | vm_compute; reflexivity
        | rewrite match_at_unanchored by eauto using answer_letter_okprev;
          vm_compute; reflexivity ].

Ltac step :=
  lazymatch goal with
  | |- context [sub_from ?r ?tpl ?t 0 ?i ?p (?c :: ?rest)] =>
      tryif is_var c then fail else
      rewrite (sub_from_miss r tpl t i p c rest) by miss_side
  end.

(** The scan has reached the same place on both sides. *)
Ltac finish :=
  lazymatch goal with
  | |- ?L = ?R =>
      lazymatch L with
      | context [sub_from ?r ?tpl ?t 0 ?a ?p ?cur] =>
          lazymatch R with
          | context [sub_from r tpl t 0 ?b _ cur] =>
              replace b with a by (rewrite ?length_app; cbn [length]; lia);
              reflexivity
          end
      end
  end.

(** The digits of the number, inside a piece. *)
Ltac run_digits Hf Hn :=
  lazymatch goal with
  | |- context [sub_from ?r ?tpl ?t 0 ?i ?p (?num ++ 32%N :: ?rest)] =>
      rewrite (Hf t i p num rest Hn)
  end.

(** The answer letter, when the pattern cannot start at a letter. *)
Ltac step_letter Hans :=
  lazymatch goal with
  | |- context [sub_from ?r ?tpl ?t 0 ?i ?p (?c :: ?rest)] =>
      rewrite (sub_from_miss r tpl t i p c rest)
        by (apply match_at_dead1;
            let H := fresh in
            pose proof (answer_letter_inv _ Hans) as H;
            repeat (apply elem_of_cons in H as [->|H]; [vm_compute; reflexivity|]);
            by apply elem_of_nil in H)
  end.

Ltac is_probe := unfold probes, scans, stops, markers; cbn [map app]; in_list.

Ltac inert_pass HP :=
  let Hf := fresh "Hf" in
  lazymatch goal with
  | |- pass_ok ?P ?tpl _ _ _ _ =>
      pose proof (fun t i p n rest => probe_numeral P tpl t i p n rest HP) as Hf
  end;
  split;
  [ intros; by apply probe_field
  | intros; by apply match_at_end
  | let Hn := fresh "Hn" in
    intros t i p b num x rest Hp Hn Hx _; unfold seg_question, nl, id;
    rewrite <- !app_assoc;
    destruct b; literals; cbn [app length]; repeat step;
    run_digits Hf Hn; repeat step; finish
  | let Hl := fresh "Hl" in
    intros t i p b l x rest Hl Hp Hx _; unfold seg_option, nl, letters in *;
    repeat (apply elem_of_cons in Hl as [->|Hl]); [| | | |by apply elem_of_nil in Hl];
    destruct b; literals; cbn [app length]; repeat step; finish
  | let Hans := fresh "Hans" in
    intros t i p bK ans bX x rest Hp Hans Hx _; unfold seg_answer, nl, id;
    rewrite <- !app_assoc;
    destruct bK, bX; literals; cbn [app length]; repeat step;
    step_letter Hans; repeat step; finish ].

Lemma select_one_ok : pass_ok select_one [] id (fun _ b => b) id id.
Proof.
  assert (HP : select_one ∈ probes) by is_probe.
  inert_pass HP.
Qed.

Lemma url_line_ok : pass_ok url_line [TLit [NL]] id (fun _ b => b) id id.
Proof.
  assert (HP : url_line ∈ probes) by is_probe.
  inert_pass HP.
Qed.

Lemma URL_TRAILER_ok : pass_ok URL_TRAILER [] id (fun _ b => b) id id.
Proof.
  assert (HP : URL_TRAILER ∈ probes) by is_probe.
  inert_pass HP.
Qed.

(** *** The whitespace pass *)

Lemma collapse_hit t i p c rest :
  cset_mem (OneOf [0x20; 0x09]%N) c = false ->
  sub_from collapse [TLit [0x20%N]] t 0 i p (0x20%N :: c :: rest) =
  0x20%N :: sub_from collapse [TLit [0x20%N]] t 0 (S i) (Some 0x20%N) (c :: rest).
Proof.
  intros Hc. cbn [sub_from]. unfold match_at, collapse. cbn [exec st_rest st_pos st_prev].
  change (cset_mem (OneOf [0x20; 0x09]%N) 0x20%N) with true. cbv iota.
  cbn [rep_greedy]. rewrite Hc. unfold accept. cbn [m_end st_pos].
  replace (S i =? i) with false by (symmetry; apply Nat.eqb_neq; lia).
  replace (S i - i - 1) with 0 by lia.
  reflexivity.
Qed.

Lemma not_space_not_blank x :
  Unicode.is_space x = false -> cset_mem (OneOf [0x20; 0x09]%N) x = false.
Proof.
  intros Hs. cbn.
  rewrite (not_space_neq x 0x20 Hs eq_refl), (not_space_neq x 0x09 Hs eq_refl).
  reflexivity.
Qed.

Lemma answer_not_blank x :
  answer_letter x = true -> cset_mem (OneOf [0x20; 0x09]%N) x = false.
Proof.
  intros H%answer_letter_inv.
  repeat (apply elem_of_cons in H as [->|H]; [reflexivity|]).
  by apply elem_of_nil in H.
Qed.

(** Single spaces between words are replaced by themselves. *)
Lemma collapse_spaced t f : forall b i p rest,
  spaced b f = true ->
  sub_from collapse [TLit [0x20%N]] t 0 i p (f ++ rest) =
  f ++ sub_from collapse [TLit [0x20%N]] t 0 (i + length f) (last_of p f) rest.
Proof.
  induction f as [|x f IH]; intros b i p rest Hf.
  - simpl. by rewrite Nat.add_0_r.
  - cbn [app length]. rewrite <- last_of_cons.
    replace (i + S (length f)) with (S i + length f) by lia.
    apply spaced_inv in Hf as [(-> & _ & Hf)|[Hx Hf]].
    + pose proof (spaced_first _ Hf) as (y & f' & E & Hy & _).
      rewrite E at 1. cbn [app]. rewrite collapse_hit by (by apply not_space_not_blank).
      change (y :: f' ++ rest) with ((y :: f') ++ rest). rewrite <- E.
      by rewrite (IH true).
    + rewrite sub_from_miss.
      * by rewrite (IH false).
      * apply match_at_dead1. unfold dead, collapse. cbn [reach run_length].
        by rewrite (not_space_not_blank x Hx).
Qed.

Lemma collapse_field t i p f rest :
  fieldtext f = true ->
  sub_from collapse [TLit [0x20%N]] t 0 i p (f ++ rest) =
  f ++ sub_from collapse [TLit [0x20%N]] t 0 (i + length f) (last_of p f) rest.
Proof. intros H%fieldtext_spaced. by apply (collapse_spaced t f true). Qed.

Ltac step_collapse :=
  lazymatch goal with
  | |- context [sub_from collapse ?tpl ?t 0 ?i ?p (32%N :: ?c :: ?rest)] =>
      rewrite (collapse_hit t i p c rest)
        by first [ vm_compute; reflexivity
                 | apply not_space_not_blank; assumption
                 | apply answer_not_blank; assumption ]
  end.

Ltac steps := repeat first [step_collapse | step].

Lemma collapse_ok : pass_ok collapse [TLit (py " ")] id (fun _ b => b) id id.
Proof.
  concrete " "%string.
  pose proof (fun t i p n rest (H : numeral n = true) =>
                collapse_spaced t n true i p (0x20%N :: rest) (numeral_spaced n H)) as Hf.
  split.
  - intros. by apply collapse_field.
  - intros. by apply match_at_end.
  - intros t i p b num x rest Hp Hn Hx _. unfold seg_question, nl, id.
    rewrite <- !app_assoc.
    pose proof (numeral_inv _ Hn) as (d & num' & E & Hd & _).
    destruct b; literals; cbn [app length]; steps;
      run_digits Hf Hn; steps; finish.
  - intros t i p b l x rest Hl Hp Hx _. unfold seg_option, nl, letters in *.
    repeat (apply elem_of_cons in Hl as [->|Hl]); [| | | |by apply elem_of_nil in Hl];
      destruct b; literals; cbn [app length]; steps; finish.
  - intros t i p bK ans bX x rest Hp Hans Hx _. unfold seg_answer, nl, id.
    rewrite <- !app_assoc.
    destruct bK, bX; literals; cbn [app length]; steps;
      step_letter Hans; steps; finish.
Qed.

(** *** The marker passes *)

Lemma sub_from_skips r tpl t n : forall i p cur,
  n <= length cur ->
  sub_from r tpl t n i p cur =
  sub_from r tpl t 0 (n + i) (last_of p (take n cur)) (drop n cur).
Proof.
  induction n as [|n IH]; intros i p cur Hn; [reflexivity|].
  destruct cur as [|c cur]; [simpl in Hn; lia|].
  cbn [take drop]. rewrite <- last_of_cons. rewrite sub_from_skip.
  rewrite IH by (simpl in Hn; lia).
  replace (n + S i) with (S n + i) by lia. reflexivity.
Qed.

(** A marker not preceded by a newline gets one: the match, which
    group 1 spans whole, is copied after a newline. *)
Lemma marker_hit pat t i0 full k i p cur n :
  okprev p ->
  drop i0 t = full -> drop k full = cur -> i = k + i0 ->
  match exec (Group "1" pat) (St i p cur) ∅ accept with
  | Some (st', c') => st_pos st' = n + i /\ c' !! "1"%string = Some (i, n + i)
  | None => False
  end ->
  0 < n <= length cur ->
  sub_from (unanchored pat) newline_then_match t 0 i p cur =
  NL :: take n cur ++
  sub_from (unanchored pat) newline_then_match t 0 (n + i)
           (last_of p (take n cur)) (drop n cur).
Proof.
  intros Hp Hd0 Hk Hi Hex Hn.
  assert (Hd : drop i t = cur).
  { subst i. rewrite Nat.add_comm, <- drop_drop, Hd0. exact Hk. }
  destruct n as [|n]; [lia|].
  destruct cur as [|c cur]; [simpl in Hn; lia|].
  cbn [sub_from]. rewrite match_at_unanchored by exact Hp.
  unfold match_at.
  destruct (exec (Group "1" pat) (St i p (c :: cur)) ∅ accept) as [[st' c']|];
    [|contradiction].
  destruct Hex as [Hpos Hcap]. cbn [m_end st_pos].
  rewrite Hpos.
  replace (S n + i =? i) with false by (symmetry; apply Nat.eqb_neq; lia).
  replace (S n + i - i - 1) with n by lia.
  unfold expand, newline_then_match. cbn [flat_map]. unfold group. cbn [m_caps m_string].
  rewrite Hcap. cbn [default]. unfold substr. rewrite Hd.
  replace (S n + i - i) with (S n) by lia. rewrite app_nil_r.
  rewrite sub_from_skips by (simpl in Hn; lia).
  cbn [take drop app]. rewrite <- last_of_cons.
  replace (n + S i) with (S n + i) by lia. reflexivity.
Qed.

Ltac hit_at k n :=
  lazymatch goal with
  | Hd : drop ?i0 ?t = ?full
    |- context [sub_from (unanchored ?pat) ?tpl ?t 0 ?i ?p (?c :: ?cur)] =>
      tryif is_var c then fail else
      rewrite (marker_hit pat t i0 full k i p (c :: cur) n);
      [ cbn [take drop app last_of fold_left Nat.add]
      | eauto using answer_letter_okprev
      | exact Hd
      | reflexivity
      | reflexivity
      | vm_compute; split; reflexivity
      | cbn [length]; lia ]
  end.

Ltac letter_cases Hans :=
  apply answer_letter_inv in Hans;
  repeat (apply elem_of_cons in Hans as [->|Hans]);
  [| | | | | | | |by apply elem_of_nil in Hans].

Lemma option_pass_ok l :
  l ∈ letters ->
  pass_ok (unanchored (option_marker l)) newline_then_match id (only l) id id.
Proof.
  intros Hl.
  assert (HP : unanchored (option_marker l) ∈ probes).
  { unfold letters in Hl.
    repeat (apply elem_of_cons in Hl as [->|Hl]; [is_probe|]).
    by apply elem_of_nil in Hl. }
  pose proof (fun t i p n rest => probe_numeral _ newline_then_match t i p n rest HP) as Hf.
  unfold letters in Hl.
  repeat (apply elem_of_cons in Hl as [->|Hl]); [| | | |by apply elem_of_nil in Hl].
  all: split;
    [ intros; by apply probe_field
    | intros; by apply match_at_end
    | intros t i p b num x rest Hp Hn Hx _; unfold seg_question, nl, id;
      rewrite <- !app_assoc;
      destruct b; literals; cbn [app length]; repeat step;
      run_digits Hf Hn; repeat step; finish
    | intros t i p b l x rest Hl Hp Hx Hd; unfold seg_option, nl, letters, only in *;
      repeat (apply elem_of_cons in Hl as [->|Hl]); [| | | |by apply elem_of_nil in Hl];
      destruct b; literals; cbn [app length String.eqb Ascii.eqb Bool.eqb] in *;
      first [hit_at 0 9 | idtac]; repeat step; finish
    | intros t i p bK ans bX x rest Hp Hans Hx _; unfold seg_answer, nl, id;
      rewrite <- !app_assoc;
      destruct bK, bX; literals; cbn [app length]; repeat step;
      step_letter Hans; repeat step; finish ].
Qed.

Lemma explanation_pass_ok :
  pass_ok (unanchored explanation_marker) newline_then_match
          id (fun _ b => b) id (fun _ => true).
Proof.
  assert (HP : unanchored explanation_marker ∈ probes) by is_probe.
  pose proof (fun t i p n rest => probe_numeral _ newline_then_match t i p n rest HP) as Hf.
  split.
  - intros. by apply probe_field.
  - intros. by apply match_at_end.
  - intros t i p b num x rest Hp Hn Hx _. unfold seg_question, nl, id.
    rewrite <- !app_assoc.
    destruct b; literals; cbn [app length]; repeat step;
      run_digits Hf Hn; repeat step; finish.
  - intros t i p b l x rest Hl Hp Hx _. unfold seg_option, nl, letters in *.
    repeat (apply elem_of_cons in Hl as [->|Hl]); [| | | |by apply elem_of_nil in Hl];
      destruct b; literals; cbn [app length]; repeat step; finish.
  - intros t i p bK ans bX x rest Hp Hans Hx Hd. unfold seg_answer, nl, id in *.
    rewrite <- !app_assoc in *.
    destruct bK, bX; literals; cbn [app length] in *; repeat step;
      step_letter Hans; repeat step;
      first [hit_at 17 22 | hit_at 18 22 | idtac]; repeat step; finish.
Qed.

Lemma answer_pass_ok :
  pass_ok (unanchored answer_marker) newline_then_match
          id (fun _ b => b) (fun _ => true) id.
Proof.
  assert (HP : unanchored answer_marker ∈ probes) by is_probe.
  pose proof (fun t i p n rest => probe_numeral _ newline_then_match t i p n rest HP) as Hf.
  split.
  - intros. by apply probe_field.
  - intros. by apply match_at_end.
  - intros t i p b num x rest Hp Hn Hx _. unfold seg_question, nl, id.
    rewrite <- !app_assoc.
    destruct b; literals; cbn [app length]; repeat step;
      run_digits Hf Hn; repeat step; finish.
  - intros t i p b l x rest Hl Hp Hx _. unfold seg_option, nl, letters in *.
    repeat (apply elem_of_cons in Hl as [->|Hl]); [| | | |by apply elem_of_nil in Hl];
      destruct b; literals; cbn [app length]; repeat step; finish.
  - intros t i p bK ans bX x rest Hp Hans Hx Hd. unfold seg_answer, nl, id in *.
    rewrite <- !app_assoc in *.
    letter_cases Hans;
      destruct bK, bX; literals; cbn [app length] in *;
      first [hit_at 0 17 | idtac]; repeat step; finish.
Qed.

(** *** The QUESTION marker with its number *)

Lemma rep_greedy_run q k c : forall ds i p y rest res,
  Forall (fun x => cset_mem q x = true) ds ->
  cset_mem q y = false ->
  k (St (length ds + i) (last_of p ds) (y :: rest)) c = Some res ->
  rep_greedy q i p (ds ++ y :: rest) c k = Some res.
Proof.
  induction ds as [|x ds IH]; intros i p y rest res Hrun Hy Hk.
  - cbn [app rep_greedy]. rewrite Hy. exact Hk.
  - apply Forall_cons in Hrun as [Hx Hrun]. cbn [app rep_greedy]. rewrite Hx.
    rewrite (IH (S i) (Some x) y rest res Hrun Hy); [reflexivity|].
    rewrite <- Hk. cbn [length]. rewrite <- last_of_cons.
    replace (length ds + S i) with (S (length ds) + i) by lia. reflexivity.
Qed.

Lemma exec_word w : forall w' i p rest c k,
  w <> [] -> word_matches w w' = true ->
  exec (word w) (St i p (w' ++ rest)) c k =
  k (St (length w' + i) (last_of p w') rest) c.
Proof.
  induction w as [|l w IH]; intros w' i p rest c k Hne Hm; [done|].
  destruct w' as [|x w']; [discriminate|].
  cbn [word_matches] in Hm. apply andb_true_iff in Hm as [Hx Hm].
  destruct w as [|l' w].
  - destruct w'; [|discriminate]. cbn. rewrite Hx. reflexivity.
  - cbn [word exec app st_rest st_pos cset_mem]. rewrite Hx.
    rewrite IH by done. cbn [length]. rewrite <- last_of_cons.
    replace (length w' + S i) with (S (length w') + i) by lia. reflexivity.
Qed.

Lemma question_exec i p num rest :
  numeral num = true ->
  match exec (Group "1" question_marker)
             (St i p (py "QUESTION:" ++ num ++ 0x20%N :: rest)) ∅ accept with
  | Some (st', c') =>
      st_pos st' = (9 + length num) + i /\
      c' !! "1"%string = Some (i, (9 + length num) + i)
  | None => False
  end.
Proof.
  intros (d & num' & -> & Hsp & Hdig)%numeral_inv.
  apply Forall_cons in Hdig as [Hd Hdig].
  unfold question_marker. cbn [cat exec st_pos].
  change (py "QUESTION:") with (py "QUESTION" ++ [0x3A%N]).
  rewrite <- app_assoc.
  rewrite exec_word by (try done; vm_compute; reflexivity).
  cbn [app ws exec rep_greedy st_pos st_prev st_rest cset_mem].
  change (Unicode.is_space 0x3A%N) with false. cbv iota.
  unfold colon. cbn [exec st_pos st_prev st_rest].
  change (cset_mem (SetI colon_chars) 0x3A%N) with true. cbv iota.
  cbn [rep_greedy cset_mem]. rewrite Hsp. cbn [st_rest st_pos].
  cbn [cset_mem] in Hd. rewrite Hd.
  erewrite rep_greedy_run; [| exact Hdig | reflexivity | reflexivity].
  unfold accept. cbn [st_pos]. rewrite lookup_insert_eq.
  change (length (py "QUESTION")) with 8.
  split; [|f_equal; f_equal]; cbn [length]; lia.
Qed.

Lemma question_pass_ok :
  pass_ok (unanchored question_marker) newline_then_match
          (fun _ => true) (fun _ b => b) id id.
Proof.
  assert (HP : unanchored question_marker ∈ probes) by is_probe.
  pose proof (fun t i p n rest => probe_numeral _ newline_then_match t i p n rest HP) as Hf.
  split.
  - intros. by apply probe_field.
  - intros. by apply match_at_end.
  - intros t i p b num x rest Hp Hn Hx Hd. unfold seg_question, nl, id in *.
    rewrite <- !app_assoc in *. destruct b.
    + literals; cbn [app length]; repeat step;
        run_digits Hf Hn; repeat step; finish.
    + cbn [app] in *.
      rewrite (marker_hit question_marker t i _ 0 i p
                 (py "QUESTION:" ++ num ++ py " " ++ x :: rest)
                 (9 + length num) Hp Hd eq_refl eq_refl).
      * concrete " "%string. cbn [app].
        assert (HT : py "QUESTION:" ++ num ++ 0x20%N :: x :: rest =
                     (py "QUESTION:" ++ num) ++ 0x20%N :: x :: rest)
          by (by rewrite <- app_assoc).
        assert (Hlen : 9 + length num = length (py "QUESTION:" ++ num))
          by (by rewrite length_app).
        rewrite HT, Hlen, take_app_length, drop_app_length.
        rewrite (sub_from_miss _ _ _ _ _ 0x20%N)
          by (apply match_at_dead1; vm_compute; reflexivity).
        rewrite <- !app_assoc.
        replace (i + length (py "QUESTION:" ++ num ++ [0x20%N]))
          with (S (length (py "QUESTION:" ++ num) + i))
          by (rewrite !length_app; cbn [length]; lia).
        reflexivity.
      * concrete " "%string. apply (question_exec i p num (x :: rest) Hn).
      * rewrite !length_app. cbn [length]. change (length (py "QUESTION:")) with 9. lia.
  - intros t i p b l x rest Hl Hp Hx _. unfold seg_option, nl, letters in *.
    repeat (apply elem_of_cons in Hl as [->|Hl]); [| | | |by apply elem_of_nil in Hl];
      destruct b; literals; cbn [app length]; repeat step; finish.
  - intros t i p bK ans bX x rest Hp Hans Hx _. unfold seg_answer, nl, id.
    rewrite <- !app_assoc.
    destruct bK, bX; literals; cbn [app length]; repeat step;
      step_letter Hans; repeat step; finish.
Qed.

(** *** The normalizer on a document *)

Lemma spaced_no_ff f :
  spaced true f = true -> map (fun c => if (c =? FF)%N then NL else c) f = f.
Proof.
  revert f. generalize true at 1. intros b f H. revert b H.
  induction f as [|x f IH]; intros b H; [done|].
  cbn [map]. apply spaced_inv in H as [(-> & _ & H)|[Hx H]].
  - by rewrite (IH _ H).
  - rewrite (not_space_neq x FF Hx eq_refl). by rewrite (IH _ H).
Qed.

Lemma render_no_ff bs : forall s first,
  Forall (fun b => wf_block b = true) bs ->
  map (fun c => if (c =? FF)%N then NL else c) (render s first bs) = render s first bs.
Proof.
  induction bs as [|b bs IH]; intros s first Hwf; [done|].
  apply Forall_cons in Hwf as [Hb Hbs]. cbn [render]. rewrite map_app, IH by done.
  f_equal.
  apply wf_block_inv in Hb as (Hn%numeral_spaced & Hq & Ha & Hb & Hc & Hd & Hans & He).
  unfold render_block, seg_question, seg_option, seg_answer.
  rewrite !map_app.
  apply fieldtext_spaced in Hq, Ha, Hb, Hc, Hd, He.
  rewrite (spaced_no_ff _ Hn), (spaced_no_ff _ Hq), (spaced_no_ff _ Ha),
    (spaced_no_ff _ Hb), (spaced_no_ff _ Hc), (spaced_no_ff _ Hd),
    (spaced_no_ff _ He).
  assert (Hl : map (fun c => if (c =? FF)%N then NL else c) [b_ans b] = [b_ans b]).
  { apply answer_letter_inv in Hans.
    repeat (apply elem_of_cons in Hans as [->|Hans]; [reflexivity|]).
    by apply elem_of_nil in Hans. }
  rewrite Hl.
  by destruct first, s as [? [] [] [] [] [] []].
Qed.

Lemma wf_normal_form bs s first :
  Forall (fun b => wf_block b = true) bs ->
  normalize_text (render s first bs) = render all_seps true bs.
Proof.
  intros Hwf. unfold normalize_text.
  rewrite render_no_ff by done.
  rewrite (sub_render _ _ _ _ _ _ select_one_ok) by done.
  unfold markers. cbn [foldl].
  rewrite (sub_render _ _ _ _ _ _ question_pass_ok) by done.
  rewrite (sub_render _ _ _ _ _ _ (option_pass_ok "A" ltac:(in_list))) by done.
  rewrite (sub_render _ _ _ _ _ _ (option_pass_ok "B" ltac:(in_list))) by done.
  rewrite (sub_render _ _ _ _ _ _ (option_pass_ok "C" ltac:(in_list))) by done.
  rewrite (sub_render _ _ _ _ _ _ (option_pass_ok "D" ltac:(in_list))) by done.
  rewrite (sub_render _ _ _ _ _ _ answer_pass_ok) by done.
  rewrite (sub_render _ _ _ _ _ _ explanation_pass_ok) by done.
  rewrite (sub_render _ _ _ _ _ _ collapse_ok) by done.
  rewrite (sub_render _ _ _ _ _ _ url_line_ok) by done.
  rewrite (sub_render _ _ _ _ _ _ URL_TRAILER_ok) by done.
  reflexivity.
Qed.

(** *** Documents with a layout for each block *)

Lemma follows_render_each l : follows (render_each l).
Proof.
  destruct l as [|sb l]; [apply follows_nil|].
  cbn [render_each]. unfold render_block. rewrite <- !app_assoc. apply follows_question.
Qed.

Lemma pass_render_each P tpl gq go gk gx (HP : pass_ok P tpl gq go gk gx) l :
  forall t i p,
  Forall (fun sb : seps * block => wf_block sb.2 = true) l -> okprev p ->
  drop i t = render_each l ->
  sub_from P tpl t 0 i p (render_each l) =
  render_each (map (fun sb => (map_seps go gq gk gx sb.1, sb.2)) l).
Proof.
  induction l as [|[s b] l IH]; intros t i p Hwf Hp Hd.
  - simpl. apply sub_from_end. apply (ok_end _ _ _ _ _ _ HP).
  - apply Forall_cons in Hwf as [Hb Hbs]. cbn [render_each map fst snd] in *.
    destruct (pass_block P tpl gq go gk gx HP s (sQ s) b t i p _ Hb Hp
                (follows_render_each _) Hd) as (j & q & -> & Hq & Hj).
    rewrite (IH t j q Hbs Hq Hj). reflexivity.
Qed.

Lemma sub_render_each P tpl gq go gk gx (HP : pass_ok P tpl gq go gk gx) l :
  Forall (fun sb : seps * block => wf_block sb.2 = true) l ->
  sub P tpl (render_each l) =
  render_each (map (fun sb => (map_seps go gq gk gx sb.1, sb.2)) l).
Proof. intros Hwf. unfold sub. by apply pass_render_each. Qed.

Lemma render_each_uniform s bs :
  render_each (map (pair s) bs) = render s (sQ s) bs.
Proof. induction bs as [|b bs IH]; [done|]. cbn [map render_each render fst snd]. by rewrite IH. Qed.

Lemma render_each_no_ff l :
  Forall (fun sb : seps * block => wf_block sb.2 = true) l ->
  map (fun c => if (c =? FF)%N then NL else c) (render_each l) = render_each l.
Proof.
  induction l as [|[s b] l IH]; intros Hwf; [done|].
  apply Forall_cons in Hwf as [Hb Hbs]. cbn [render_each fst snd]. rewrite map_app, IH by done.
  f_equal.
  pose proof (render_no_ff [b] s (sQ s) ltac:(by constructor)) as H.
  cbn [render] in H. by rewrite !app_nil_r in H.
Qed.

Lemma wf_seconds (l : list (seps * block)) f :
  Forall (fun sb : seps * block => wf_block sb.2 = true) l ->
  Forall (fun sb : seps * block => wf_block sb.2 = true)
         (map (fun sb : seps * block => (f sb.1, sb.2)) l).
Proof. intros H. apply Forall_map. by eapply Forall_impl; [exact H|]. Qed.

Lemma render_each_all (f : seps * block -> seps * block) l :
  (forall sb, f sb = (all_seps, sb.2)) ->
  render_each (map f l) = render all_seps true (map snd l).
Proof.
  intros Hf. induction l as [|sb l IH]; [done|].
  cbn [map render_each render]. by rewrite Hf, IH.
Qed.

Lemma each_normal_form l :
  Forall (fun sb : seps * block => wf_block sb.2 = true) l ->
  normalize_text (render_each l) = render all_seps true (map snd l).
Proof.
  intros Hwf. unfold normalize_text.
  rewrite render_each_no_ff by done.
  rewrite (sub_render_each _ _ _ _ _ _ select_one_ok) by done.
  unfold markers. cbn [foldl].
  rewrite (sub_render_each _ _ _ _ _ _ question_pass_ok) by (repeat apply wf_seconds; done).
  rewrite (sub_render_each _ _ _ _ _ _ (option_pass_ok "A" ltac:(in_list)))
    by (repeat apply wf_seconds; done).
  rewrite (sub_render_each _ _ _ _ _ _ (option_pass_ok "B" ltac:(in_list)))
    by (repeat apply wf_seconds; done).
  rewrite (sub_render_each _ _ _ _ _ _ (option_pass_ok "C" ltac:(in_list)))
    by (repeat apply wf_seconds; done).
  rewrite (sub_render_each _ _ _ _ _ _ (option_pass_ok "D" ltac:(in_list)))
    by (repeat apply wf_seconds; done).
  rewrite (sub_render_each _ _ _ _ _ _ answer_pass_ok) by (repeat apply wf_seconds; done).
  rewrite (sub_render_each _ _ _ _ _ _ explanation_pass_ok)
    by (repeat apply wf_seconds; done).
  rewrite (sub_render_each _ _ _ _ _ _ collapse_ok) by (repeat apply wf_seconds; done).
  rewrite (sub_render_each _ _ _ _ _ _ url_line_ok) by (repeat apply wf_seconds; done).
  rewrite (sub_render_each _ _ _ _ _ _ URL_TRAILER_ok) by (repeat apply wf_seconds; done).
  rewrite !map_map. apply render_each_all. by intros [[] b].
Qed.

End Scanning.

(** ** The block parser on documents made of blocks *)

Module Blocks.
Import Re ReSpec ReFacts ParserFacts Scanning.

(** *** The block pattern on a block *)

Lemma exec_Seq r1 r2 st c k :
  exec (Seq r1 r2) st c k = exec r1 st c (fun st' c' => exec r2 st' c' k).
Proof. reflexivity. Qed.

Lemma exec_ws_none i p x rest c k :
  Unicode.is_space x = false ->
  exec ws (St i p (x :: rest)) c k = k (St i p (x :: rest)) c.
Proof. intros Hx. unfold ws. cbn [exec rep_greedy cset_mem st_rest st_pos st_prev]. by rewrite Hx. Qed.

Lemma exec_ws_one i p s x rest c k res :
  Unicode.is_space s = true -> Unicode.is_space x = false ->
  k (St (S i) (Some s) (x :: rest)) c = Some res ->
  exec ws (St i p (s :: x :: rest)) c k = Some res.
Proof.
  intros Hs Hx Hk. unfold ws. cbn [exec rep_greedy cset_mem st_rest st_pos st_prev].
  by rewrite Hs, Hx, Hk.
Qed.

Lemma exec_colon i p rest c k :
  exec colon (St i p (0x3A%N :: rest)) c k = k (St (S i) (Some 0x3A%N) rest) c.
Proof. reflexivity. Qed.

Lemma exec_Opt_ok r st c k res :
  exec r st c k = Some res -> exec (Opt r) st c k = Some res.
Proof. intros H. cbn [exec]. by rewrite H. Qed.

(** A lazy repetition stops at the first place where what follows
    succeeds. *)
Lemma rep_lazy_skip q k c : forall f i p tl res,
  Forall (fun x => cset_mem q x = true) f ->
  (forall u w, f = u ++ w -> w <> [] ->
     k (St (length u + i) (last_of p u) (w ++ tl)) c = None) ->
  k (St (length f + i) (last_of p f) tl) c = Some res ->
  rep_lazy q i p (f ++ tl) c k = Some res.
Proof.
  induction f as [|x f IH]; intros i p tl res Hq Hfail Hk.
  - cbn in Hk |- *. destruct tl; cbn; by rewrite Hk.
  - apply Forall_cons in Hq as [Hx Hq]. cbn [app rep_lazy].
    pose proof (Hfail [] (x :: f) eq_refl ltac:(done)) as H0. cbn in H0.
    rewrite H0, Hx.
    apply IH; [done| |].
    + intros u w -> Hw.
      pose proof (Hfail (x :: u) w eq_refl Hw) as H1.
      cbn [length] in H1. rewrite <- last_of_cons in H1.
      by replace (length u + S i) with (S (length u) + i) by lia.
    + cbn [length] in Hk. rewrite <- last_of_cons in Hk.
      by replace (length f + S i) with (S (length f) + i) by lia.
Qed.

Lemma Forall_any (f : str) : Forall (fun x => cset_mem Any x = true) f.
Proof. by apply Forall_forall. Qed.

(** A field of the block pattern. *)
Lemma exec_field g f tl i p c k res :
  (forall u w p' , f = u ++ w -> w <> [] ->
     k (St (length u + i) p' (w ++ tl)) (<[g := (i, length u + i)]> c) = None) ->
  k (St (length f + i) (last_of p f) tl) (<[g := (i, length f + i)]> c) = Some res ->
  exec (field g) (St i p (f ++ tl)) c k = Some res.
Proof.
  intros Hfail Hk. unfold field. cbn [exec st_pos st_prev st_rest].
  apply rep_lazy_skip; [apply Forall_any| |exact Hk].
  intros u w E Hw. cbn [st_pos]. by apply Hfail.
Qed.

Lemma all_tails_split (Q : str -> bool) f u w :
  all_tails Q f = true -> f = u ++ w -> w <> [] -> Q w = true.
Proof.
  revert f. induction u as [|x u IH]; intros f H E Hw; subst f.
  - destruct w; [done|]. cbn in H. by apply andb_true_iff in H as [? _].
  - cbn in H. apply andb_true_iff in H as [_ H]. by eapply IH.
Qed.

Lemma app_snoc_split (a u w : str) (y : char) :
  a ++ [y] = u ++ w -> w <> [] ->
  (exists wa, w = wa ++ [y] /\ a = u ++ wa /\ wa <> []) \/ (w = [y] /\ u = a).
Proof.
  intros E Hw.
  destruct (exists_last Hw) as (wa & y' & ->).
  rewrite app_assoc in E. apply app_inj_tail in E as [-> ->].
  destruct wa as [|z wa].
  - right. by rewrite app_nil_r.
  - left. by exists (z :: wa).
Qed.

Lemma dead_Ahead cl r w : dead cl r w = true -> dead cl (Ahead r) w = true.
Proof.
  unfold dead. cbn [reach].
  by destruct (reach cl r w) as [[|n ns] [|]].
Qed.

Lemma exec_Ahead_ok r st c k st' :
  exec r st c accept = Some (st', c) -> exec (Ahead r) st c k = k st c.
Proof. intros H. cbn [exec]. unfold accept in H. by rewrite H. Qed.

Lemma exec_Ahead_fail r st c k :
  (forall c', k st c' = None) -> exec (Ahead r) st c k = None.
Proof.
  intros H. cbn [exec]. destruct (exec r st c _) as [[st' c']|]; [apply H|done].
Qed.

(** Evaluation of the character tests on given characters. *)
Ltac ev :=
  repeat match goal with
  | |- context [Unicode.eq_nocase ?a ?b] =>
      let v := eval vm_compute in (Unicode.eq_nocase a b) in
      lazymatch v with
      | true => change (Unicode.eq_nocase a b) with true
      | false => change (Unicode.eq_nocase a b) with false
      end
  | |- context [Unicode.is_space ?a] =>
      let v := eval vm_compute in (Unicode.is_space a) in
      lazymatch v with
      | true => change (Unicode.is_space a) with true
      | false => change (Unicode.is_space a) with false
      end
  | |- context [existsb ?f ?l] =>
      let v := eval vm_compute in (existsb f l) in
      lazymatch v with
      | true => change (existsb f l) with true
      | false => change (existsb f l) with false
      end
  end.

Ltac go :=
  cbn [cat word exec st_rest st_pos st_prev cset_mem app]; ev; cbv iota beta.
Ltac first_branch :=
  lazymatch goal with
  | |- match ?X with Some _ => _ | None => _ end = Some ?r =>
      let H := fresh in
      assert (H : X = Some r); [|by rewrite H]
  end.
Ltac ws_one := apply exec_ws_one; [reflexivity|(reflexivity || assumption)|]; cbv beta.
Ltac ws_none := rewrite exec_ws_none by (reflexivity || assumption); cbv beta.

Ltac words :=
  concrete "Option"%string; concrete "Correct"%string; concrete "Answer"%string;
  concrete "Explanation/Reference"%string; concrete "QUESTION"%string;
  concrete "Q"%string; concrete "UESTION"%string; concrete "ABCD"%string.

(** The markers on their own text. *)
Lemma option_marker_exec l i p tl c k res :
  l ∈ letters ->
  k (St (9 + i) (Some 0x3A%N) tl) c = Some res ->
  exec (option_marker l) (St i p (py "Option " ++ py l ++ 0x3A%N :: tl)) c k = Some res.
Proof.
  intros Hl Hk. unfold letters in Hl.
  repeat (apply elem_of_cons in Hl as [->|Hl]); [| | | |by apply elem_of_nil in Hl].
  all: unfold option_marker; cbn [cat]; literals; words; cbn [app];
    unfold colon; go; ws_one; go; ws_none; go; exact Hk.
Qed.

Lemma correct_answer_marker_exec i p tl c k res :
  k (St (15 + i) (Some 0x3A%N) tl) c = Some res ->
  exec correct_answer_marker (St i p (py "Correct Answer:" ++ tl)) c k = Some res.
Proof.
  intros Hk. unfold correct_answer_marker. cbn [cat]. concrete "Correct Answer:"%string.
  words. cbn [app].
  unfold colon; go; ws_one; go; ws_none; go; exact Hk.
Qed.

Lemma explanation_marker_exec i p tl c k res :
  k (St (22 + i) (Some 0x3A%N) tl) c = Some res ->
  exec explanation_marker (St i p (py "Explanation/Reference:" ++ tl)) c k = Some res.
Proof.
  intros Hk. unfold explanation_marker. cbn [cat]. concrete "Explanation/Reference:"%string.
  words. cbn [app].
  unfold colon; go; ws_none; go; exact Hk.
Qed.

Lemma last_of_snoc p (f : str) y : last_of p (f ++ [y]) = Some y.
Proof. unfold last_of. by rewrite fold_left_app. Qed.

Lemma fieldtext_dead cl next P f u w :
  (cl, next) ∈ followers -> P ∈ probes -> fieldtext f = true ->
  f = u ++ w -> w <> [] -> dead cl P (w ++ next) = true.
Proof.
  intros Hn HP Hf E Hw.
  apply (all_tails_split (fun w => dead cl P (w ++ next)) f u w); [|done..].
  apply quiet_dead; [done|]. by apply fieldtext_quiet.
Qed.

Lemma stop_option_ok l : l ∈ letters -> stop_ok (option_marker l) (py "Option " ++ py l ++ py ": ").
Proof.
  intros Hl b j p tl c. destruct b; eexists; rewrite exec_Seq;
  concrete ": "%string; rewrite <- !app_assoc; cbn [nl app].
  - concrete "Option "%string. cbn [app]. ws_one.
    change (79%N :: 112%N :: 116%N :: 105%N :: 111%N :: 110%N :: 32%N :: ?x)
      with (py "Option " ++ x).
    apply option_marker_exec; [done|]. reflexivity.
  - concrete "Option "%string. cbn [app]. ws_none.
    change (79%N :: 112%N :: 116%N :: 105%N :: 111%N :: 110%N :: 32%N :: ?x)
      with (py "Option " ++ x).
    apply option_marker_exec; [done|]. reflexivity.
Qed.

Lemma stop_answer_ok : stop_ok correct_answer_marker (py "Correct Answer: ").
Proof.
  intros b j p tl c. destruct b; eexists; rewrite exec_Seq; cbn [nl app].
  - concrete "Correct Answer: "%string. cbn [app]. ws_one.
    change (67%N :: 111%N :: 114%N :: 114%N :: 101%N :: 99%N :: 116%N :: 32%N ::
            65%N :: 110%N :: 115%N :: 119%N :: 101%N :: 114%N :: 58%N :: ?x)
      with (py "Correct Answer:" ++ x).
    apply correct_answer_marker_exec. reflexivity.
  - concrete "Correct Answer: "%string. cbn [app]. ws_none.
    change (67%N :: 111%N :: 114%N :: 114%N :: 101%N :: 99%N :: 116%N :: 32%N ::
            65%N :: 110%N :: 115%N :: 119%N :: 101%N :: 114%N :: 58%N :: ?x)
      with (py "Correct Answer:" ++ x).
    apply correct_answer_marker_exec. reflexivity.
Qed.

(** An option line on its text: the field runs to the newline before
    the next marker, newline included. *)
Lemma option_line_exec l stop mk i p a tl c k res :
  l ∈ letters ->
  Seq ws stop ∈ probes -> (false, NL :: mk) ∈ followers -> stop_ok stop mk ->
  fieldtext a = true ->
  (forall p' c', k (St (length a + (10 + i)) p' (NL :: mk ++ tl)) c' = None) ->
  k (St (length (a ++ [NL]) + (10 + i)) (Some NL) (mk ++ tl))
    (<[l := (10 + i, length (a ++ [NL]) + (10 + i))]> c) = Some res ->
  exec (option_line l stop)
       (St i p (py "Option " ++ py l ++ py ": " ++ a ++ NL :: mk ++ tl)) c k = Some res.
Proof.
  intros Hl Hprobe Hfol Hstop Ha Hnl Hk.
  unfold option_line. cbn [cat]. rewrite exec_Seq.
  change (py ": ") with (0x3A%N :: [0x20%N]). cbn [app].
  apply option_marker_exec; [done|].
  rewrite exec_Seq.
  pose proof (fieldtext_inv _ Ha) as (x & a' & E & Hx).
  rewrite E at 1. cbn [app]. ws_one. rewrite exec_Seq.
  change (x :: a' ++ NL :: mk ++ tl) with ((x :: a') ++ NL :: mk ++ tl).
  rewrite <- E.
  change (a ++ NL :: mk ++ tl) with (a ++ [NL] ++ mk ++ tl). rewrite app_assoc.
  apply exec_field.
  - intros u w p' Huw Hw.
    destruct (app_snoc_split _ _ _ _ Huw Hw) as [(wa & -> & Ea & Hwa)|[-> ->]].
    + rewrite <- app_assoc. cbn [app].
      change (wa ++ NL :: mk ++ tl) with (wa ++ (NL :: mk) ++ tl). rewrite app_assoc.
      apply (exec_dead false); [done|]. apply dead_Ahead.
      by apply (fieldtext_dead false (NL :: mk) _ a u wa).
    + apply exec_Ahead_fail. intros c'. apply Hnl.
  - rewrite last_of_snoc.
    destruct (Hstop false (length (a ++ [NL]) + S (9 + i)) (Some NL) tl
                (<[l:=(S (9 + i), length (a ++ [NL]) + S (9 + i))]> c)) as [st' Hst].
    rewrite (exec_Ahead_ok _ _ _ _ st' Hst). exact Hk.
Qed.

(** The question line on its text. *)
Lemma question_line_exec i p num q mk tl c k res :
  numeral num = true -> fieldtext q = true ->
  (forall u w p' c', q = u ++ w -> w <> [] ->
     k (St (length u + (10 + length num + i)) p' (w ++ NL :: mk ++ tl)) c' = None) ->
  (forall p' c', k (St (length q + (10 + length num + i)) p' (NL :: mk ++ tl)) c' = None) ->
  k (St (length (q ++ [NL]) + (10 + length num + i)) (Some NL) (mk ++ tl))
    (<["q"%string := (10 + length num + i, length (q ++ [NL]) + (10 + length num + i))]>
       (<["num"%string := (9 + i, length num + (9 + i))]> c)) = Some res ->
  exec question_line
       (St i p (py "QUESTION:" ++ num ++ 0x20%N :: q ++ NL :: mk ++ tl)) c k = Some res.
Proof.
  intros Hn Hq Htails Hnl Hk.
  pose proof (numeral_inv _ Hn) as (d & num' & En & Hsp & Hdig).
  pose proof (fieldtext_inv _ Hq) as (x & q' & Eq & Hx).
  unfold question_line. concrete "QUESTION:"%string. words. unfold colon. cbn [app].
  go. ws_none. go. first_branch. rewrite En at 1. cbn [app]. ws_none.
  apply Forall_cons in Hdig as [Hd Hdig]. cbn [cset_mem] in Hd.
  cbn [st_rest st_pos st_prev]. rewrite Hd.
  apply rep_greedy_run; [exact Hdig|reflexivity|].
  rewrite Eq at 1. cbn [app]. ws_one. cbn [exec st_rest st_pos st_prev].
  change (x :: q' ++ NL :: mk ++ tl) with ((x :: q') ++ [NL] ++ mk ++ tl).
  rewrite <- Eq, app_assoc.
  assert (Epos : S (length num' + S (S (S (S (S (S (S (S (S (S i)))))))))) = 10 + length num + i).
  { rewrite En. cbn [length]. lia. }
  assert (Epos' : length num' + S (S (S (S (S (S (S (S (S (S i))))))))) = length num + (9 + i)).
  { rewrite En. cbn [length]. lia. }
  rewrite Epos, Epos'. change (S (S (S (S (S (S (S (S (S i))))))))) with (9 + i).
  apply exec_field.
  - intros u w p' Huw Hw.
    destruct (app_snoc_split _ _ _ _ Huw Hw) as [(wa & -> & Ea & Hwa)|[-> ->]].
    + rewrite <- app_assoc. cbn [app]. by apply Htails.
    + cbn [app]. apply Hnl.
  - rewrite last_of_snoc. exact Hk.
Qed.

Lemma answer_letter_class x :
  answer_letter x = true ->
  cset_mem (SetI (py "ABCD")) x = true /\ Unicode.is_space x = false.
Proof.
  intros H%answer_letter_inv.
  repeat (apply elem_of_cons in H as [->|H]; [by vm_compute|]).
  by apply elem_of_nil in H.
Qed.

(** The answer line on its text. *)
Lemma answer_line_exec i p ans y tl c k res :
  answer_letter ans = true -> Unicode.is_space y = false ->
  k (St (18 + i) (Some NL) (y :: tl))
    (<["ans"%string := (16 + i, 17 + i)]> c) = Some res ->
  exec answer_line (St i p (py "Correct Answer: " ++ [ans] ++ NL :: y :: tl)) c k
  = Some res.
Proof.
  intros [Hcls Hsp]%answer_letter_class Hy Hk.
  unfold answer_line. cbn [cat]. rewrite exec_Seq.
  change (py "Correct Answer: ") with (py "Correct Answer:" ++ [0x20%N]).
  rewrite <- app_assoc.
  apply correct_answer_marker_exec. cbn [app].
  rewrite exec_Seq. ws_one.
  cbn [exec st_rest st_pos st_prev]. rewrite Hcls.
  apply exec_ws_one; [reflexivity|exact Hy|]. cbn [st_pos]. exact Hk.
Qed.

(** The stop of an explanation before the next question. *)
Lemma q_marker_exec i p num tl c :
  numeral num = true ->
  exists st',
    exec (Alt (Seq ws q_marker) EndZ)
         (St i p (NL :: py "QUESTION:" ++ num ++ 0x20%N :: tl)) c accept = Some (st', c).
Proof.
  intros Hn. pose proof (numeral_inv _ Hn) as (d & num' & En & Hsp & Hdig).
  eexists. cbn [exec]. first_branch.
  concrete "QUESTION:"%string. cbn [app]. ws_one.
  unfold q_marker. words. unfold colon. go.
  first_branch. ws_none. go. first_branch.
  rewrite En. cbn [app]. ws_none. cbn [st_rest st_pos st_prev].
  apply Forall_cons in Hdig as [Hd Hdig]. cbn [cset_mem] in Hd. rewrite Hd.
  apply rep_greedy_run; [exact Hdig|reflexivity|]. reflexivity.
Qed.

(** The explanation line on its text. *)
Lemma explanation_line_exec i p e tl c k res :
  fieldtext e = true -> end_or_question tl ->
  k (St (length e + (23 + i)) (last_of (Some 0x20%N) e) tl)
    (<["exp"%string := (23 + i, length e + (23 + i))]> c) = Some res ->
  exec explanation_line (St i p (py "Explanation/Reference: " ++ e ++ tl)) c k
  = Some res.
Proof.
  intros He Htl Hk.
  pose proof (fieldtext_inv _ He) as (x & e' & E & Hx).
  unfold explanation_line. cbn [cat]. rewrite exec_Seq.
  change (py "Explanation/Reference: ") with (py "Explanation/Reference:" ++ [0x20%N]).
  rewrite <- app_assoc.
  apply explanation_marker_exec. cbn [app].
  rewrite exec_Seq. rewrite E at 1. cbn [app]. ws_one. rewrite exec_Seq.
  change (x :: e' ++ tl) with ((x :: e') ++ tl). rewrite <- E.
  apply exec_field.
  - intros u w p' Huw Hw.
    destruct Htl as [->|(num & tl' & Hnum & ->)].
    + apply (exec_dead true); [done|]. apply dead_Ahead.
      rewrite <- (app_nil_r w).
      apply (fieldtext_dead true [] _ e u w); try done; [is_follower|is_probe].
    + change (w ++ NL :: py "QUESTION:" ++ num ++ 32%N :: tl')
        with (w ++ (NL :: py "QUESTION:") ++ num ++ 32%N :: tl').
      rewrite app_assoc.
      apply (exec_dead false); [done|]. apply dead_Ahead.
      apply (fieldtext_dead false (NL :: py "QUESTION:") _ e u w); try done;
        [is_follower|is_probe].
  - assert (Hok : exists st', exec (Alt (Seq ws q_marker) EndZ)
                    (St (length e + S (22 + i)) (last_of (Some 32%N) e) tl)
                    (<["exp"%string := (S (22 + i), length e + S (22 + i))]> c) accept
                  = Some (st', <["exp"%string := (S (22 + i), length e + S (22 + i))]> c)).
    { destruct Htl as [->|(num & tl' & Hnum & ->)].
      - eexists. reflexivity.
      - by apply q_marker_exec. }
    destruct Hok as [st' Hst].
    rewrite (exec_Ahead_ok _ _ _ _ st' Hst). exact Hk.
Qed.

(** *** Cleaning the text of a field *)

Lemma spaced_snoc f : forall b,
  spaced b f = true -> f <> [] ->
  exists f0 y, f = f0 ++ [y] /\ Unicode.is_space y = false.
Proof.
  induction f as [|x f IH]; intros b H Hne; [done|].
  destruct f as [|z f].
  - apply spaced_inv in H as [(_ & _ & [=])|[Hx _]]. by exists [], x.
  - apply spaced_inv in H as [(_ & _ & H)|[_ H]];
      destruct (IH _ H ltac:(done)) as (f0 & y & E & Hy);
      exists (x :: f0), y; by rewrite E.
Qed.

Lemma spaced_no_cr f : forall b,
  spaced b f = true -> remove_char CR f = f.
Proof.
  unfold remove_char.
  induction f as [|x f IH]; intros b H; [done|].
  assert (Hx : x <> CR).
  { apply spaced_inv in H as [(-> & _)|[Hx _]]; [done|].
    intros ->. discriminate Hx. }
  rewrite filter_cons_True by done.
  apply spaced_inv in H as [(_ & _ & H)|[_ H]]; by rewrite (IH _ H).
Qed.

Lemma lstrip_word x f : Unicode.is_space x = false -> lstrip (x :: f) = x :: f.
Proof. intros H. cbn [lstrip]. by rewrite H. Qed.

Lemma rstrip_word f y : Unicode.is_space y = false -> rstrip (f ++ [y]) = f ++ [y].
Proof.
  intros H. unfold rstrip. rewrite rev_app_distr. cbn [rev app].
  rewrite lstrip_word by done. cbn [rev]. by rewrite rev_involutive.
Qed.

Lemma strip_spaced f : spaced true f = true -> strip f = f.
Proof.
  intros H. pose proof (spaced_first _ H) as (x & f' & E & Hx & _).
  destruct (spaced_snoc f true H) as (f0 & y & E' & Hy); [by rewrite E|].
  unfold strip. rewrite E at 1. rewrite lstrip_word by done. rewrite <- E.
  rewrite E' at 1. rewrite rstrip_word by done. by rewrite <- E'.
Qed.

Lemma strip_spaced_nl f : spaced true f = true -> strip (f ++ [NL]) = f.
Proof.
  intros H. pose proof (spaced_first _ H) as (x & f' & E & Hx & _).
  destruct (spaced_snoc f true H) as (f0 & y & E' & Hy); [by rewrite E|].
  unfold strip. rewrite E at 1. cbn [app]. rewrite lstrip_word by done.
  change (x :: f' ++ [NL]) with ((x :: f') ++ [NL]). rewrite <- E.
  unfold rstrip. rewrite rev_app_distr. cbn [rev app lstrip].
  change (Unicode.is_space NL) with true. cbv iota.
  rewrite E' at 1. rewrite rev_app_distr. cbn [rev app]. rewrite lstrip_word by done.
  cbn [rev]. rewrite rev_involutive. by rewrite <- E'.
Qed.

Lemma clean_field f : fieldtext f = true -> _clean f = f.
Proof.
  intros H%fieldtext_spaced. unfold _clean.
  rewrite (spaced_no_cr f true H). by apply strip_spaced.
Qed.

Lemma clean_field_nl f : fieldtext f = true -> _clean (f ++ [NL]) = f.
Proof.
  intros H%fieldtext_spaced. unfold _clean, remove_char.
  rewrite filter_app. fold (remove_char CR f). rewrite (spaced_no_cr f true H).
  rewrite filter_cons_True by done. rewrite filter_nil.
  by apply strip_spaced_nl.
Qed.

Lemma sub_field P tpl f :
  P ∈ probes -> needs_char P = true -> fieldtext f = true -> sub P tpl f = f.
Proof.
  intros HP Hne Hf. unfold sub.
  rewrite <- (app_nil_r f) at 2.
  rewrite (probe_field P tpl f 0 None f [] HP Hf follows_nil).
  rewrite sub_from_end by (by apply match_at_end). by rewrite app_nil_r.
Qed.

Lemma sanitize_field f : fieldtext f = true -> sanitize f = f.
Proof.
  intros Hf. unfold sanitize.
  rewrite (sub_field CLEAN_CORRECT_IN_OPTION) by (done || is_probe).
  rewrite (strip_spaced f) by (by apply fieldtext_spaced).
  rewrite (sub_field URL_TRAILER) by (done || is_probe).
  by apply strip_spaced, fieldtext_spaced.
Qed.

(** *** A block of a document in normal form *)

Lemma render_block_body b : render_block all_seps true b = NL :: block_text b.
Proof.
  unfold render_block, block_text, seg_question, seg_option, seg_answer, all_seps.
  cbn [sA sB sC sD sK sX nl]. rewrite <- !app_assoc. reflexivity.
Qed.

Lemma render_end_or_question bs :
  Forall (fun b => wf_block b = true) bs ->
  end_or_question (render all_seps true bs).
Proof.
  destruct bs as [|b bs]; [by left|]. intros [Hb _]%Forall_cons. right.
  apply wf_block_inv in Hb as (Hn & _).
  cbn [render]. rewrite render_block_body. unfold block_text.
  eexists (b_num b), _. split; [done|].
  cbn [app]. rewrite <- !app_assoc. reflexivity.
Qed.

Ltac next_line_dead :=
  intros; apply (exec_dead false _ [NL]); [done|vm_compute; reflexivity].

Lemma body_app b tl :
  block_text b ++ tl =
  py "QUESTION:" ++ b_num b ++ 0x20%N :: b_q b ++
  NL :: py "Option A: " ++ b_a b ++ NL :: py "Option B: " ++ b_b b ++
  NL :: py "Option C: " ++ b_c b ++ NL :: py "Option D: " ++ b_d b ++
  NL :: py "Correct Answer: " ++ b_ans b ::
  NL :: py "Explanation/Reference: " ++ b_exp b ++ tl.
Proof.
  unfold block_text. change (py " ") with [0x20%N].
  repeat first [rewrite <- !app_assoc | progress cbn [app]]. reflexivity.
Qed.

Ltac option_line_at l stop :=
  rewrite exec_Seq;
  lazymatch goal with
  | |- exec _ (St _ _ (_ ++ ?a ++ NL :: ?mk ++ ?tl)) _ _ = _ =>
      apply (option_line_exec l stop mk _ _ a tl);
      [in_list|is_probe|is_follower| |done|next_line_dead|]
  end.

Lemma block_exec b tl i p :
  wf_block b = true -> end_or_question tl ->
  exec QUESTION_BLOCK (St i p (block_text b ++ tl)) ∅ accept =
  Some (St (length (block_text b) + i) (last_of (Some 0x20%N) (b_exp b)) tl, block_marks i b).
Proof.
  intros Hwf Htl.
  apply wf_block_inv in Hwf as (Hn & Hq & Ha & Hb & Hc & Hd & Hans & He).
  rewrite body_app. unfold QUESTION_BLOCK. cbn [cat].
  rewrite exec_Seq.
  lazymatch goal with
  | |- exec _ (St _ _ (_ ++ _ ++ _ :: _ ++ NL :: ?mk ++ ?tl)) _ _ = _ =>
      apply (question_line_exec _ _ (b_num b) (b_q b) mk tl); [done|done| | |]
  end.
  - intros u w p' c' Huw Hw.
    change (w ++ NL :: py "Option A: " ++ ?x)
      with (w ++ (NL :: py "Option A: ") ++ x).
    rewrite (app_assoc w (NL :: py "Option A: ")).
    apply (exec_dead false _ (w ++ NL :: py "Option A: ")); [done|]. apply dead_Seq.
    unfold option_line. cbn [cat]. apply dead_Seq.
    apply (fieldtext_dead false (NL :: py "Option A: ") _ (b_q b) u w); try done;
      [is_follower|is_probe].
  - next_line_dead.
  - option_line_at "A"%string (option_marker "B"); [exact (stop_option_ok "B" ltac:(in_list))|].
    option_line_at "B"%string (option_marker "C"); [exact (stop_option_ok "C" ltac:(in_list))|].
    option_line_at "C"%string (option_marker "D"); [exact (stop_option_ok "D" ltac:(in_list))|].
    change (b_ans b :: NL :: ?x) with ([] ++ b_ans b :: NL :: x).
    option_line_at "D"%string correct_answer_marker; [exact stop_answer_ok|].
    cbn [app]. rewrite exec_Seq.
    concrete "Explanation/Reference: "%string. cbn [app].
    apply answer_line_exec; [done|reflexivity|].
    change (69%N :: ?x) with (py "Explanation/Reference: " ++ b_exp b ++ tl).
    apply explanation_line_exec; [done|done|].
    unfold accept, block_marks, line_end. do 2 f_equal.
    rewrite !length_app. f_equal.
    unfold block_text. repeat first [rewrite length_app | progress cbn [length]].
    change (length (py "QUESTION:")) with 9.
    change (length (py " ")) with 1.
    change (length (py "Option A: ")) with 10.
    change (length (py "Option B: ")) with 10.
    change (length (py "Option C: ")) with 10.
    change (length (py "Option D: ")) with 10.
    change (length (py "Correct Answer: ")) with 16.
    change (length (py "Explanation/Reference: ")) with 23.
    lia.
Qed.

Lemma substr_mid (T : str) i pre f post a b :
  drop i T = pre ++ f ++ post -> a = length pre + i -> b = length f + a ->
  substr T a b = f.
Proof.
  intros Hd -> ->. unfold substr.
  replace (length f + (length pre + i) - (length pre + i)) with (length f) by lia.
  rewrite Nat.add_comm, <- drop_drop, Hd, drop_app_length.
  by rewrite take_app_length.
Qed.

Lemma py_int_numeral num : numeral num = true -> py_int (Some num) = Ok (digits_value num).
Proof.
  intros H. pose proof (numeral_inv _ H) as (d & num' & E & _).
  unfold numeral in H.
  apply andb_true_iff in H as [[[_ Hdec]%andb_true_iff Hlen]%andb_true_iff _].
  unfold py_int. rewrite Hdec, Hlen. by rewrite E.
Qed.

Lemma upper_strip_letter x :
  answer_letter x = true -> upper (strip [x]) = [Unicode.upper_char x].
Proof.
  intros H%answer_letter_inv.
  repeat (apply elem_of_cons in H as [->|H]; [by vm_compute|]).
  by apply elem_of_nil in H.
Qed.

Ltac lengths :=
  repeat first [rewrite length_app | progress cbn [length]];
  change (length (py "QUESTION:")) with 9;
  change (length (py " ")) with 1;
  change (length (py "Option A: ")) with 10;
  change (length (py "Option B: ")) with 10;
  change (length (py "Option C: ")) with 10;
  change (length (py "Option D: ")) with 10;
  change (length (py "Correct Answer: ")) with 16;
  change (length (py "Explanation/Reference: ")) with 23.

Ltac group_at Hd pre f :=
  unfold group; cbn [m_caps m_string]; unfold block_marks, line_end;
  repeat (rewrite lookup_insert_eq || rewrite lookup_insert_ne by done);
  f_equal;
  eapply (substr_mid _ _ pre f);
  [ rewrite Hd, body_app; repeat first [rewrite <- !app_assoc | progress cbn [app]];
    reflexivity
  | lengths; lia
  | lengths; lia ].

Lemma record_of_block_match T i e b tl :
  wf_block b = true -> drop i T = block_text b ++ tl ->
  record_of (Match T i e (block_marks i b)) = Ok (block_record b).
Proof.
  intros Hwf Hd.
  apply wf_block_inv in Hwf as (Hn & Hq & Ha & Hb & Hc & Hd' & Hans & He).
  assert (Gnum : group (Match T i e (block_marks i b)) "num" = Some (b_num b)).
  { group_at Hd (py "QUESTION:") (b_num b). }
  assert (Gq : group (Match T i e (block_marks i b)) "q" = Some (b_q b ++ [NL])).
  { group_at Hd (py "QUESTION:" ++ b_num b ++ [0x20%N]) (b_q b ++ [NL]). }
  assert (GA : group (Match T i e (block_marks i b)) "A" = Some (b_a b ++ [NL])).
  { group_at Hd (py "QUESTION:" ++ b_num b ++ 0x20%N :: b_q b ++ NL :: py "Option A: ")
             (b_a b ++ [NL]). }
  assert (GB : group (Match T i e (block_marks i b)) "B" = Some (b_b b ++ [NL])).
  { group_at Hd (py "QUESTION:" ++ b_num b ++ 0x20%N :: b_q b ++ NL ::
                 py "Option A: " ++ b_a b ++ NL :: py "Option B: ")
             (b_b b ++ [NL]). }
  assert (GC : group (Match T i e (block_marks i b)) "C" = Some (b_c b ++ [NL])).
  { group_at Hd (py "QUESTION:" ++ b_num b ++ 0x20%N :: b_q b ++ NL ::
                 py "Option A: " ++ b_a b ++ NL :: py "Option B: " ++ b_b b ++ NL ::
                 py "Option C: ")
             (b_c b ++ [NL]). }
  assert (GD : group (Match T i e (block_marks i b)) "D" = Some (b_d b ++ [NL])).
  { group_at Hd (py "QUESTION:" ++ b_num b ++ 0x20%N :: b_q b ++ NL ::
                 py "Option A: " ++ b_a b ++ NL :: py "Option B: " ++ b_b b ++ NL ::
                 py "Option C: " ++ b_c b ++ NL :: py "Option D: ")
             (b_d b ++ [NL]). }
  assert (Gans : group (Match T i e (block_marks i b)) "ans" = Some [b_ans b]).
  { group_at Hd (py "QUESTION:" ++ b_num b ++ 0x20%N :: b_q b ++ NL ::
                 py "Option A: " ++ b_a b ++ NL :: py "Option B: " ++ b_b b ++ NL ::
                 py "Option C: " ++ b_c b ++ NL :: py "Option D: " ++ b_d b ++ NL ::
                 py "Correct Answer: ")
             [b_ans b]. }
  assert (Gexp : group (Match T i e (block_marks i b)) "exp" = Some (b_exp b)).
  { group_at Hd (py "QUESTION:" ++ b_num b ++ 0x20%N :: b_q b ++ NL ::
                 py "Option A: " ++ b_a b ++ NL :: py "Option B: " ++ b_b b ++ NL ::
                 py "Option C: " ++ b_c b ++ NL :: py "Option D: " ++ b_d b ++ NL ::
                 py "Correct Answer: " ++ b_ans b :: NL :: py "Explanation/Reference: ")
             (b_exp b). }
  unfold record_of.
  rewrite Gnum, (py_int_numeral _ Hn). cbn [bind].
  rewrite Gq. cbn [on_str bind].
  rewrite (options_of_letters _ _ _ _ _ GA GB GC GD). cbn [bind].
  rewrite sanitize_options.
  rewrite Gans, Gexp. cbn [on_str bind].
  rewrite !clean_field_nl, clean_field, !sanitize_field by done.
  rewrite upper_strip_letter by done.
  reflexivity.
Qed.

(** *** The parse of a document *)

Lemma finditer_from_skips r t n : forall i p cur,
  n <= length cur ->
  finditer_from r t n i p cur =
  finditer_from r t 0 (n + i) (last_of p (take n cur)) (drop n cur).
Proof.
  induction n as [|n IH]; intros i p cur Hn; [reflexivity|].
  destruct cur as [|c cur]; [simpl in Hn; lia|].
  cbn [take drop finditer_from]. rewrite <- last_of_cons.
  rewrite IH by (simpl in Hn; lia).
  replace (n + S i) with (S n + i) by lia. reflexivity.
Qed.

Lemma body_first b : exists x rest, block_text b = x :: rest.
Proof. unfold block_text. concrete "QUESTION:"%string. cbn [app]. eauto. Qed.

Lemma records_of_render T bs : forall i p,
  Forall (fun b => wf_block b = true) bs ->
  drop i T = render all_seps true bs ->
  for_each record_of (finditer_from QUESTION_BLOCK T 0 i p (render all_seps true bs)) =
  Ok (map block_record bs).
Proof.
  induction bs as [|b bs IH]; intros i p Hwf Hd.
  - cbn [render finditer_from]. unfold match_at.
    rewrite exec_end by reflexivity. reflexivity.
  - apply Forall_cons in Hwf as [Hb Hbs].
    cbn [render] in Hd |- *. change (sQ all_seps) with true in *.
    rewrite render_block_body in Hd |- *.
    cbn [app] in Hd |- *. cbn [finditer_from].
    rewrite (match_at_dead1 QUESTION_BLOCK T NL) by (vm_compute; reflexivity).
    assert (Hd1 : drop (S i) T = block_text b ++ render all_seps true bs).
    { replace (S i) with (i + 1) by lia. rewrite <- drop_drop, Hd. reflexivity. }
    pose proof (block_exec b (render all_seps true bs) (S i) (Some NL) Hb
                  (render_end_or_question bs Hbs)) as Hex.
    destruct (body_first b) as (x & rest & Ebody).
    assert (Hm : match_at QUESTION_BLOCK T (St (S i) (Some NL) (block_text b ++ render all_seps true bs))
                 = Some (Match T (S i) (length (block_text b) + S i) (block_marks (S i) b))).
    { unfold match_at. by rewrite Hex. }
    rewrite Ebody in Hm |- * at 1. cbn [app] in Hm |- *.
    cbn [finditer_from]. rewrite Hm. cbn [m_end for_each].
    rewrite (record_of_block_match T (S i) _ b _ Hb Hd1). cbn [bind].
    assert (El : length (x :: rest) + S i - S i - 1 = length rest)
      by (cbn [length]; lia).
    rewrite El.
    rewrite finditer_from_skips by (rewrite length_app; lia).
    rewrite take_app_length, drop_app_length.
    rewrite IH; [reflexivity|done|].
    replace (length rest + S (S i)) with (S i + length (block_text b))
      by (rewrite Ebody; cbn [length]; lia).
    rewrite <- drop_drop, Hd1. by rewrite drop_app_length.
Qed.

Lemma parse_render bs s first :
  Forall (fun b => wf_block b = true) bs ->
  parse_questions_from_text (render s first bs) =
  Ok (sort_by_number (map block_record bs)).
Proof.
  intros Hwf. unfold parse_questions_from_text.
  rewrite wf_normal_form by done. unfold finditer.
  rewrite records_of_render by done. reflexivity.
Qed.

Lemma parse_render_each l :
  Forall (fun sb : seps * block => wf_block sb.2 = true) l ->
  parse_questions_from_text (render_each l) =
  Ok (sort_by_number (map block_record (map snd l))).
Proof.
  intros Hwf.
  assert (Hbs : Forall (fun b => wf_block b = true) (map snd l)).
  { apply Forall_map. by eapply Forall_impl; [exact Hwf|]. }
  rewrite <- (parse_render (map snd l) all_seps true Hbs).
  unfold parse_questions_from_text.
  by rewrite each_normal_form, (wf_normal_form _ all_seps true Hbs).
Qed.

Lemma join_nl_app l1 l2 :
  l1 <> [] -> l2 <> [] -> join_nl (l1 ++ l2) = join_nl l1 ++ NL :: join_nl l2.
Proof.
  intros H1 H2. induction l1 as [|p l1 IH]; [done|].
  destruct l1 as [|q l1].
  - cbn [app join_nl]. by destruct l2.
  - change ((p :: q :: l1) ++ l2) with (p :: (q :: l1) ++ l2).
    change (join_nl (p :: (q :: l1) ++ l2)) with (p ++ NL :: join_nl ((q :: l1) ++ l2)).
    rewrite IH by done. cbn [join_nl]. by rewrite <- app_assoc.
Qed.

Lemma join_block_lines b : join_nl (block_lines b) = block_text b.
Proof.
  unfold block_lines, block_text. cbn [join_nl].
  repeat first [rewrite <- !app_assoc | progress cbn [app]]. reflexivity.
Qed.

Lemma render_newlines bs :
  render all_seps true bs = match bs with [] => [] | _ => NL :: render all_seps false bs end.
Proof.
  destruct bs as [|b bs]; [done|]. cbn [render]. rewrite render_block_body.
  f_equal. f_equal. unfold render_block, block_text, seg_question, seg_option, seg_answer, all_seps.
  cbn [sA sB sC sD sK sX nl]. repeat first [rewrite <- !app_assoc | progress cbn [app]].
  reflexivity.
Qed.

Lemma join_lines_render bs :
  join_nl (flat_map block_lines bs) = render all_seps false bs.
Proof.
  induction bs as [|b bs IH]; [done|].
  cbn [flat_map render]. change (sQ all_seps) with true.
  assert (Eb : render_block all_seps false b = block_text b).
  { unfold render_block, block_text, seg_question, seg_option, seg_answer, all_seps.
    cbn [sA sB sC sD sK sX nl]. repeat first [rewrite <- !app_assoc | progress cbn [app]].
    reflexivity. }
  rewrite Eb, render_newlines.
  destruct bs as [|b' bs].
  - cbn [flat_map]. rewrite !app_nil_r. apply join_block_lines.
  - rewrite join_nl_app; [|done|done]. by rewrite join_block_lines, IH.
Qed.

Lemma docx_not_pdf name :
  endswith name (py ".docx") = true -> endswith name (py ".pdf") = false.
Proof.
  unfold endswith. concrete ".docx"%string. concrete ".pdf"%string. cbn [rev app].
  destruct (rev name) as [|c l]; [done|]. cbn [startswith].
  intros [Hc _]%andb_true_iff. apply N.eqb_eq in Hc. by subst c.
Qed.

End Blocks.

(** ** The normalizer and the parser on any text *)

Module Texts.
Import Re ReSpec ReFacts ParserFacts Scanning Blocks.

(** *** Where the characters of a substitution come from *)

Lemma match_at_string r t st m : match_at r t st = Some m -> m_string m = t.
Proof.
  unfold match_at. destruct (exec r st ∅ accept) as [[st' c]|]; [|done].
  by intros [= <-].
Qed.

Lemma substr_elem (t : str) i j x : x ∈ substr t i j -> x ∈ t.
Proof.
  unfold substr. intros H. eapply elem_of_sublist; [exact H|].
  etrans; [apply sublist_take|apply sublist_drop].
Qed.

Lemma expand_elem tpl m x :
  x ∈ expand tpl m -> x ∈ template_text tpl \/ x ∈ m_string m.
Proof.
  unfold expand, template_text. induction tpl as [|it tpl IH]; cbn [flat_map].
  - intros H. by apply elem_of_nil in H.
  - intros [H|H]%elem_of_app.
    + destruct it as [s|g].
      * left. apply elem_of_app. by left.
      * right. unfold group in H. destruct (m_caps m !! g) as [[i j]|]; cbn in H.
        -- by eapply substr_elem.
        -- by apply elem_of_nil in H.
    + destruct (IH H) as [?|?]; [left|by right]. apply elem_of_app. by right.
Qed.

Lemma sub_from_elem r tpl t x : forall rest skip i p,
  x ∈ sub_from r tpl t skip i p rest ->
  x ∈ rest \/ x ∈ template_text tpl \/ x ∈ t.
Proof.
  induction rest as [|c rest IH]; intros skip i p H.
  - destruct skip; cbn [sub_from] in H; [|by apply elem_of_nil in H].
    destruct (match_at r t _) as [m|] eqn:E; [|by apply elem_of_nil in H].
    rewrite app_nil_r in H. apply expand_elem in H as [?|H]; [auto|].
    rewrite (match_at_string _ _ _ _ E) in H. auto.
  - destruct skip as [|n]; cbn [sub_from] in H.
    + destruct (match_at r t _) as [m|] eqn:E.
      * apply elem_of_app in H as [H|H].
        -- apply expand_elem in H as [?|H]; [auto|].
           rewrite (match_at_string _ _ _ _ E) in H. auto.
        -- destruct (m_end m =? i).
           ++ apply elem_of_cons in H as [->|H]; [left; apply list_elem_of_here|].
              destruct (IH _ _ _ H) as [?|?]; [left; by apply list_elem_of_further|auto].
           ++ destruct (IH _ _ _ H) as [?|?]; [left; by apply list_elem_of_further|auto].
      * apply elem_of_cons in H as [->|H]; [left; apply list_elem_of_here|].
        destruct (IH _ _ _ H) as [?|?]; [left; by apply list_elem_of_further|auto].
    + destruct (IH _ _ _ H) as [?|?]; [left; by apply list_elem_of_further|auto].
Qed.

Lemma sub_elem r tpl t x :
  x ∈ sub r tpl t -> x ∈ t \/ x ∈ template_text tpl.
Proof. unfold sub. intros H%sub_from_elem. tauto. Qed.

Lemma rep_greedy_accept q : forall rest j p c,
  exists st, rep_greedy q j p rest c accept = Some (st, c) /\ j <= st_pos st.
Proof.
  induction rest as [|x rest IH]; intros j p c; cbn [rep_greedy].
  - eexists. split; [reflexivity|]. cbn. lia.
  - destruct (cset_mem q x).
    + destruct (IH (S j) (Some x) c) as (st & -> & Hle). exists st. split; [done|lia].
    + eexists. split; [reflexivity|]. cbn. lia.
Qed.

Lemma collapse_match t i p x rest :
  match match_at collapse t (St i p (x :: rest)) with
  | Some m => i < m_end m
  | None => cset_mem (OneOf [0x20; 0x09]%N) x = false
  end.
Proof.
  unfold match_at, collapse. cbn [exec st_rest st_pos st_prev].
  destruct (cset_mem (OneOf [32%N; 9%N]) x); [|done].
  destruct (rep_greedy_accept (OneOf [32%N; 9%N]) rest (S i) (Some x) ∅) as (st & -> & Hle).
  cbn [m_end]. lia.
Qed.

(** The whitespace pass leaves the characters that are no blanks, and
    puts single spaces. *)
Lemma collapse_from_elem t x : forall rest skip i p,
  x ∈ sub_from collapse [TLit (py " ")] t skip i p rest ->
  x = 0x20%N \/ (x ∈ rest /\ cset_mem (OneOf [0x20; 0x09]%N) x = false).
Proof.
  induction rest as [|c rest IH]; intros skip i p H.
  - destruct skip; cbn [sub_from] in H; [|by apply elem_of_nil in H].
    unfold match_at in H. rewrite exec_end in H by reflexivity.
    by apply elem_of_nil in H.
  - destruct skip as [|n]; cbn [sub_from] in H.
    + pose proof (collapse_match t i p c rest) as Hm.
      destruct (match_at collapse t _) as [m|].
      * apply elem_of_app in H as [H|H].
        -- left. cbn in H. by apply list_elem_of_singleton in H.
        -- replace (m_end m =? i) with false in H
             by (symmetry; apply Nat.eqb_neq; lia).
           destruct (IH _ _ _ H) as [?|[? ?]]; [by left|right].
           split; [by apply list_elem_of_further|done].
      * apply elem_of_cons in H as [->|H].
        -- right. split; [apply list_elem_of_here|done].
        -- destruct (IH _ _ _ H) as [?|[? ?]]; [by left|right].
           split; [by apply list_elem_of_further|done].
    + destruct (IH _ _ _ H) as [?|[? ?]]; [by left|right].
      split; [by apply list_elem_of_further|done].
Qed.

Lemma markers_elem t x :
  x ∈ foldl (fun t pat => sub (unanchored pat) newline_then_match t) t markers ->
  x ∈ t \/ x = NL.
Proof.
  generalize markers. intros l. revert t.
  induction l as [|pat l IH]; intros t H; cbn [foldl] in H; [by left|].
  apply IH in H as [H|H]; [|by right].
  apply sub_elem in H as [H|H]; [by left|right].
  cbn in H. by apply list_elem_of_singleton in H.
Qed.

(** *** [_clean] *)

Lemma lstrip_suffix s : exists u, s = u ++ lstrip s /\ Forall (fun c => Unicode.is_space c = true) u.
Proof.
  induction s as [|c s (u & E & Hu)]; [by exists []|]. cbn [lstrip].
  destruct (Unicode.is_space c) eqn:Hc.
  - exists (c :: u). split; [by rewrite E at 1|by constructor].
  - by exists [].
Qed.

Lemma lstrip_head s : match lstrip s with c :: _ => Unicode.is_space c = false | [] => True end.
Proof.
  induction s as [|c s IH]; [done|]. cbn [lstrip].
  destruct (Unicode.is_space c) eqn:Hc; [exact IH|exact Hc].
Qed.

Lemma lstrip_idem s : lstrip (lstrip s) = lstrip s.
Proof.
  pose proof (lstrip_head s) as H. destruct (lstrip s) as [|c l]; [done|].
  cbn [lstrip]. by rewrite H.
Qed.

Lemma lstrip_no_space s :
  match s with c :: _ => Unicode.is_space c = false | [] => True end -> lstrip s = s.
Proof. destruct s as [|c s]; [done|]. cbn [lstrip]. by intros ->. Qed.

(** [strip] takes a piece of the text that neither begins nor ends
    with whitespace. *)
Lemma strip_spec s :
  exists u v, s = u ++ strip s ++ v /\
    Forall (fun c => Unicode.is_space c = true) u /\
    Forall (fun c => Unicode.is_space c = true) v /\
    match strip s with c :: _ => Unicode.is_space c = false | [] => True end /\
    match rev (strip s) with c :: _ => Unicode.is_space c = false | [] => True end.
Proof.
  destruct (lstrip_suffix s) as (u & E & Hu).
  destruct (lstrip_suffix (rev (lstrip s))) as (v & E' & Hv).
  unfold strip, rstrip. exists u, (rev v).
  assert (El : lstrip s = rev (lstrip (rev (lstrip s))) ++ rev v).
  { rewrite <- rev_app_distr, <- E'. by rewrite rev_involutive. }
  split; [by rewrite <- El|]. split; [done|].
  split; [apply Forall_forall; intros c Hc; rewrite Forall_forall in Hv;
          apply Hv; by apply list_elem_of_In, in_rev, list_elem_of_In|].
  split.
  - pose proof (lstrip_head s) as Hh. rewrite El in Hh.
    destruct (rev (lstrip (rev (lstrip s)))) as [|c l] eqn:Er; [done|]. exact Hh.
  - rewrite rev_involutive. apply lstrip_head.
Qed.

Lemma strip_fixed s :
  match s with c :: _ => Unicode.is_space c = false | [] => True end ->
  match rev s with c :: _ => Unicode.is_space c = false | [] => True end ->
  strip s = s.
Proof.
  intros H1 H2. unfold strip, rstrip.
  rewrite (lstrip_no_space s H1), (lstrip_no_space (rev s) H2).
  apply rev_involutive.
Qed.

Lemma strip_elem s x : x ∈ strip s -> x ∈ s.
Proof.
  destruct (strip_spec s) as (u & v & E & _). intros H. rewrite E.
  apply elem_of_app. right. apply elem_of_app. by left.
Qed.

Lemma remove_char_absent old s :
  Forall (fun c => c <> old) s -> remove_char old s = s.
Proof.
  unfold remove_char. induction 1 as [|c l Hc Hl IH]; [done|].
  rewrite filter_cons_True by done. by rewrite IH.
Qed.

(** *** What the parser raises, and what it keeps *)

Lemma record_of_over t m :
  m ∈ finditer QUESTION_BLOCK t ->
  (record_of m = Raise ValueError /\ over_limit m = true) \/
  (exists r, record_of m = Ok r /\ over_limit m = false).
Proof.
  intros (num & q & a & b & c & d & x & ex & Hnum & _ & _ & _ & _ & _ & _ & _ & _ & _ & _ & Hrec)%record_of_block.
  unfold over_limit. rewrite Hnum, Hrec.
  destruct (Nat.leb_spec (length num) int_max_str_digits).
  - right. eexists. split; [reflexivity|]. apply Nat.ltb_ge. lia.
  - left. split; [reflexivity|]. apply Nat.ltb_lt. lia.
Qed.

Lemma for_each_record_of_outcome t l :
  (forall m, m ∈ l -> m ∈ finditer QUESTION_BLOCK t) ->
  match for_each record_of l with
  | Ok rs => existsb over_limit l = false /\ length rs = length l
  | Raise e => e = ValueError /\ existsb over_limit l = true
  end.
Proof.
  induction l as [|m l IH]; intros Hl; cbn [for_each existsb]; [done|].
  destruct (record_of_over t m) as [[Hr Ho]|(r & Hr & Ho)];
    [apply Hl, list_elem_of_here| |]; rewrite Hr, Ho; cbn [bind orb]; [done|].
  specialize (IH (fun m' H => Hl m' (list_elem_of_further _ _ _ H))).
  destruct (for_each record_of l) as [rs|e]; cbn [bind]; [|done].
  destruct IH as [-> E]. cbn [length]. by rewrite E.
Qed.

Lemma sub_from_no_match r tpl t : forall rest i p,
  finditer_from r t 0 i p rest = [] -> sub_from r tpl t 0 i p rest = rest.
Proof.
  induction rest as [|c rest IH]; intros i p H; cbn [finditer_from sub_from] in *.
  - by destruct (match_at r t _).
  - destruct (match_at r t _); [done|]. by rewrite IH.
Qed.

Lemma sub_absent r tpl t : absent r t = true -> sub r tpl t = t.
Proof.
  unfold absent, search, sub, finditer. intros H.
  apply sub_from_no_match. by destruct (finditer_from r t 0 0 None t).
Qed.

Lemma collapse_one t i p rest :
  match rest with d :: _ => is_blank d = false | [] => True end ->
  match_at collapse t (St i p (0x20%N :: rest)) = Some (Match t i (S i) ∅).
Proof.
  intros H. unfold match_at, collapse. cbn [exec st_rest st_pos st_prev].
  change (cset_mem (OneOf [32%N; 9%N]) 32%N) with true. cbv iota.
  destruct rest as [|d rest]; cbn [rep_greedy]; [done|].
  unfold is_blank in H. by rewrite H.
Qed.

Lemma collapse_tidy t : forall rest i p,
  tidy rest = true ->
  sub_from collapse [TLit (py " ")] t 0 i p rest = rest.
Proof.
  induction rest as [|c rest IH]; intros i p H.
  - cbn [sub_from]. unfold match_at. by rewrite exec_end.
  - cbn [tidy] in H. apply andb_true_iff in H as [[Htab Hnext]%andb_true_iff Ht].
    apply negb_true_iff in Htab.
    destruct (is_blank c) eqn:Hc.
    + assert (c = 0x20%N) as ->.
      { unfold is_blank in Hc. cbn in Hc. rewrite orb_false_r in Hc.
        apply orb_true_iff in Hc as [Hc|Hc]; [by apply N.eqb_eq in Hc|].
        unfold TAB in Htab. congruence. }
      cbn [sub_from]. rewrite collapse_one.
      * cbn [m_end]. replace (S i =? i) with false by (symmetry; apply Nat.eqb_neq; lia).
        replace (S i - i - 1) with 0 by lia.
        cbn [expand flat_map app]. destruct rest as [|d rest]; [done|].
        cbn [app]. f_equal. by apply IH.
      * destruct rest as [|d rest]; [done|]. cbn [andb] in Hnext.
        by apply negb_true_iff in Hnext.
    + rewrite sub_from_miss by (apply match_at_dead1; unfold dead, collapse; cbn [reach run_length];
                                 unfold is_blank in Hc; by rewrite Hc).
      f_equal. by apply IH.
Qed.

Lemma foldl_absent t l :
  forallb (fun P => absent P t) (map unanchored l) = true ->
  foldl (fun t pat => sub (unanchored pat) newline_then_match t) t l = t.
Proof.
  induction l as [|pat l IH]; [done|]. cbn [map forallb foldl].
  intros [H1 H2]%andb_true_iff. rewrite sub_absent by done. by apply IH.
Qed.

(** *** Substitution when the one match is the end of the text *)

Lemma sub_from_copy r tpl t : forall n i,
  i + n <= length t ->
  (forall k, i <= k < i + n -> match_at r t (state_at t k) = None) ->
  sub_from r tpl t 0 i (prev_char t i) (drop i t) =
  take n (drop i t) ++
  sub_from r tpl t 0 (i + n) (prev_char t (i + n)) (drop (i + n) t).
Proof.
  induction n as [|n IH]; intros i Hi Hno.
  - by rewrite Nat.add_0_r.
  - destruct (drop i t) as [|x rest'] eqn:Hd.
    { apply drop_nil_length in Hd. lia. }
    pose proof (state_at_step t i x rest' Hd) as [Hx Hst].
    pose proof (Hno i ltac:(lia)) as H0. unfold state_at in H0. rewrite Hd in H0.
    cbn [sub_from]. rewrite H0. cbn [take app]. f_equal.
    assert (Hp : Some x = prev_char t (S i)) by (by injection Hst).
    assert (Hr : rest' = drop (S i) t) by (by injection Hst).
    rewrite Hp, Hr.
    rewrite (IH (S i)); [|lia|intros k Hk; apply Hno; lia].
    by replace (S i + n) with (i + S n) by lia.
Qed.

Lemma sub_from_skip_all r tpl t :
  needs_char r = true ->
  forall rest n i p, length rest <= n -> sub_from r tpl t n i p rest = [].
Proof.
  intros Hr. induction rest as [|x rest IH]; intros n i p Hn.
  - destruct n; cbn [sub_from]; [|done]. by rewrite match_at_end.
  - destruct n; cbn [length] in Hn; [lia|]. cbn [sub_from]. apply IH. lia.
Qed.

Lemma sub_last_match r tpl pre tail m :
  needs_char r = true ->
  (forall k, k < length pre ->
     match_at r (pre ++ tail) (state_at (pre ++ tail) k) = None) ->
  match_at r (pre ++ tail) (state_at (pre ++ tail) (length pre)) = Some m ->
  m_end m = length (pre ++ tail) -> tail <> [] ->
  sub r tpl (pre ++ tail) = pre ++ expand tpl m.
Proof.
  intros Hr Hno Hm He Ht. unfold sub.
  change (sub_from r tpl (pre ++ tail) 0 0 None (pre ++ tail))
    with (sub_from r tpl (pre ++ tail) 0 0 (prev_char (pre ++ tail) 0)
            (drop 0 (pre ++ tail))).
  rewrite (sub_from_copy r tpl (pre ++ tail) (length pre) 0);
    [|rewrite length_app; lia|intros k Hk; apply Hno; lia].
  rewrite drop_0, take_app_length. f_equal. cbn [Nat.add].
  unfold state_at in Hm. rewrite drop_app_length in Hm |- *.
  destruct tail as [|x tail']; [done|]. cbn [sub_from]. rewrite Hm.
  rewrite He, length_app. cbn [length].
  destruct (Nat.eqb_spec (length pre + S (length tail')) (length pre)) as [E|_]; [lia|].
  rewrite sub_from_skip_all; [by rewrite app_nil_r|done|lia].
Qed.

(** *** Where a literal word matches *)

Lemma word_span t w : forall i c j c',
  Matches t (word w) i c j c' ->
  c' = c /\ j = i + length w /\
  forall n l, w !! n = Some l ->
    exists x, t !! (i + n) = Some x /\ Unicode.eq_nocase l x = true.
Proof.
  induction w as [|l w IH]; intros i c j c' H.
  - inversion H; subst. split; [done|]. split; [cbn; lia|]. by intros n l [=].
  - destruct w as [|l2 w].
    + apply Matches_Chr_inv in H as (-> & -> & x & Hx & Hc).
      split; [done|]. split; [cbn; lia|]. intros [|n] l' [=]; subst.
      rewrite Nat.add_0_r. eauto.
    + change (word (l :: l2 :: w)) with (Seq (Chr (LitI l)) (word (l2 :: w))) in H.
      apply Matches_Seq_inv in H as (k & c1 & H1 & H2).
      apply Matches_Chr_inv in H1 as (-> & -> & x & Hx & Hc).
      apply IH in H2 as (-> & -> & Hall).
      split; [done|]. split; [cbn [length]; lia|]. intros [|n] l' Hl.
      * injection Hl as <-. rewrite Nat.add_0_r. eauto.
      * cbn in Hl. destruct (Hall n l' Hl) as (y & Hy & Hcy).
        exists y. split; [|done]. by replace (i + S n) with (S i + n) by lia.
Qed.

(** A character inside the span of a word is one of its letters. *)
Lemma word_inside t w i c j c' m y :
  Matches t (word w) i c j c' -> i <= m < j -> t !! m = Some y ->
  existsb (fun l => Unicode.eq_nocase l y) w = true.
Proof.
  intros H Hm Hy. apply word_span in H as (_ & -> & Hall).
  destruct (lookup_lt_is_Some_2 w (m - i) ltac:(lia)) as [l Hl].
  destruct (Hall _ _ Hl) as (x & Hx & Hc).
  replace (i + (m - i)) with m in Hx by lia.
  assert (x = y) by congruence. subst x.
  apply existsb_exists. exists l. split; [|done].
  apply list_elem_of_In. by eapply list_elem_of_lookup_2.
Qed.

Lemma word_build t w : forall pre w' rest c,
  t = pre ++ w' ++ rest -> word_matches w w' = true ->
  Matches t (word w) (length pre) c (length pre + length w') c.
Proof.
  induction w as [|l w IH]; intros pre w' rest c Ht Hw.
  - destruct w'; [|done]. cbn. rewrite Nat.add_0_r. constructor.
  - destruct w' as [|x w']; [done|]. cbn [word_matches] in Hw.
    apply andb_true_iff in Hw as [Hx Hw].
    assert (Hlx : t !! length pre = Some x).
    { rewrite Ht. rewrite lookup_app_r by lia. by rewrite Nat.sub_diag. }
    assert (Hrec : Matches t (word w) (S (length pre)) c
                     (length pre + length (x :: w')) c).
    { specialize (IH (pre ++ [x]) w' rest c).
      rewrite length_app in IH. cbn [length] in IH |- *.
      replace (length pre + S (length w')) with (length pre + 1 + length w') by lia.
      replace (S (length pre)) with (length pre + 1) by lia.
      apply IH; [|done]. by rewrite Ht, <- app_assoc. }
    destruct w as [|l2 w].
    + destruct w'; [|done]. cbn [length].
      replace (length pre + 1) with (S (length pre)) by lia.
      by apply M_Chr with x.
    + change (word (l :: l2 :: w)) with (Seq (Chr (LitI l)) (word (l2 :: w))).
      eapply M_Seq; [by apply M_Chr with x|exact Hrec].
Qed.

(** A repetition over a stretch of characters of the class. *)
Lemma Star_build t g p : forall w pre rest c,
  t = pre ++ w ++ rest -> forallb (cset_mem p) w = true ->
  Matches t (Star g p) (length pre) c (length pre + length w) c.
Proof.
  induction w as [|x w IH]; intros pre rest c Ht Hw.
  - cbn. rewrite Nat.add_0_r. constructor.
  - cbn [forallb] in Hw. apply andb_true_iff in Hw as [Hx Hw].
    apply M_StarS with x; [|done|].
    + rewrite Ht. rewrite lookup_app_r by lia. by rewrite Nat.sub_diag.
    + specialize (IH (pre ++ [x]) rest c).
      rewrite length_app in IH. cbn [length] in IH |- *.
      replace (length pre + S (length w)) with (length pre + 1 + length w) by lia.
      replace (S (length pre)) with (length pre + 1) by lia.
      apply IH; [|done]. by rewrite Ht, <- app_assoc.
Qed.

Lemma In_among (a b : list char) :
  forallb (fun x => existsb (N.eqb x) b) a = true -> forall l, In l a -> In l b.
Proof.
  intros H l Hl. rewrite forallb_forall in H. specialize (H l Hl).
  apply existsb_exists in H as (y & Hy & E). apply N.eqb_eq in E. by subst.
Qed.

(** *** The shape of a match of the address pattern *)

Lemma URL_TRAILER_shape t i c j c' :
  Matches t URL_TRAILER i c j c' ->
  exists k0 k, i + 7 <= k0 /\ k0 < k /\ k <= j /\
    (forall m y, i <= m < k0 -> t !! m = Some y ->
       existsb (fun l => Unicode.eq_nocase l y) (py "https:/") = true) /\
    (forall m y, k0 <= m < k -> t !! m = Some y -> Unicode.is_space y = false) /\
    (forall m y, k <= m < j -> t !! m = Some y -> Unicode.is_space y = true) /\
    (length t <= j \/ (S j = length t /\ t !! j = Some NL)).
Proof.
  unfold URL_TRAILER, url. cbn [cat]. intros H.
  apply Matches_Seq_inv in H as (k & c1 & Hu & H).
  apply Matches_Seq_inv in H as (j' & c2 & Hw & He).
  inversion He; subst.
  apply Matches_Star_chars in Hw as (_ & Hkj & Hsp).
  apply Matches_Seq_inv in Hu as (a & ca & Hh & Hu).
  apply Matches_Seq_inv in Hu as (b & cb & Hs & Hu).
  apply Matches_Seq_inv in Hu as (k0 & cd & Hc & Hp).
  apply Matches_Plus_chars in Hp as (_ & Hk0 & Hns).
  pose proof (word_span _ _ _ _ _ _ Hh) as (_ & Ea & _).
  pose proof (word_span _ _ _ _ _ _ Hc) as (_ & Ek0 & _).
  cbn in Ea, Ek0.
  assert (Hb : b = a \/ (b = S a /\ exists x, t !! a = Some x /\
                            Unicode.eq_nocase 0x73%N x = true)).
  { inversion Hs; subst; [right|by left].
    match goal with H : Matches _ (Chr _) _ _ _ _ |- _ =>
      apply Matches_Chr_inv in H as (_ & -> & x & Hx & Hcx) end. eauto. }
  exists k0, k. split; [lia|]. split; [done|]. split; [done|].
  split; [|split; [|split]].
  - intros m y Hm Hy.
    destruct (decide (m < a)) as [Hma|Hma].
    { pose proof (word_inside _ _ _ _ _ _ m y Hh ltac:(lia) Hy) as Hin.
      apply existsb_exists in Hin as (l & Hl & Hly).
      apply existsb_exists. exists l. split; [|done].
      revert Hl. by apply In_among. }
    destruct (decide (b <= m)) as [Hbm|Hbm].
    { pose proof (word_inside _ _ _ _ _ _ m y Hc ltac:(lia) Hy) as Hin.
      apply existsb_exists in Hin as (l & Hl & Hly).
      apply existsb_exists. exists l. split; [|done].
      revert Hl. by apply In_among. }
    destruct Hb as [->|(-> & x & Hx & Hcx)]; [lia|].
    assert (m = a) by lia. subst m. assert (x = y) by congruence. subst x.
    apply existsb_exists. exists 0x73%N. split; [|done].
    apply (In_among [0x73%N]); [done|by left].
  - intros m y Hm Hy. destruct (Hns m Hm) as (x & Hx & Hcx).
    assert (x = y) by congruence. subst x. cbn in Hcx.
    by apply negb_true_iff in Hcx.
  - intros m y Hm Hy. destruct (Hsp m Hm) as (x & Hx & Hcx).
    assert (x = y) by congruence. by subst x.
  - done.
Qed.

(** No match of the address pattern starts at or before a space that
    some other text follows. *)
Lemma URL_TRAILER_before_space t a b z i c j c' :
  t !! a = Some 0x20%N -> t !! b = Some z -> Unicode.is_space z = false ->
  a < b -> i <= a -> ~ Matches t URL_TRAILER i c j c'.
Proof.
  intros Ha Hb Hz Hab Hia H.
  apply URL_TRAILER_shape in H as (k0 & k & H1 & H2 & H3 & Hsch & Hns & Hsp & Hend).
  assert (Hka : k <= a).
  { destruct (decide (a < k0)) as [Hlt|Hge].
    - specialize (Hsch a _ ltac:(lia) Ha). by vm_compute in Hsch.
    - destruct (decide (a < k)) as [Hlt|?]; [|lia].
      specialize (Hns a _ ltac:(lia) Ha). by vm_compute in Hns. }
  pose proof (lookup_lt_Some _ _ _ Hb) as Hbl.
  destruct (decide (b < j)) as [Hbj|Hbj].
  - specialize (Hsp b _ ltac:(lia) Hb). congruence.
  - destruct Hend as [?|[Hj HNL]]; [lia|].
    assert (b = j) by lia. subst b. assert (z = NL) by congruence. subst z.
    by vm_compute in Hz.
Qed.

Lemma word_build_at t w pre w' rest c i j :
  t = pre ++ w' ++ rest -> word_matches w w' = true ->
  i = length pre -> j = i + length w' -> Matches t (word w) i c j c.
Proof. intros Ht Hw -> ->. by eapply word_build. Qed.

Lemma Star_build_at t g p w pre rest c i j :
  t = pre ++ w ++ rest -> forallb (cset_mem p) w = true ->
  i = length pre -> j = i + length w -> Matches t (Star g p) i c j c.
Proof. intros Ht Hw -> ->. by eapply Star_build. Qed.

(** The text of an address that opens with one of the two schemes. *)
Lemma url_build pre scheme u c :
  scheme = py "http://" \/ scheme = py "https://" ->
  u <> [] -> forallb (fun x => negb (Unicode.is_space x)) u = true ->
  Matches (pre ++ scheme ++ u) URL_TRAILER (length pre) c
          (length (pre ++ scheme ++ u)) c.
Proof.
  intros Hs Hu Hns. destruct u as [|x u]; [done|].
  cbn [forallb] in Hns. apply andb_true_iff in Hns as [Hx Hns].
  set (t := pre ++ scheme ++ x :: u).
  assert (Hplus : forall q, t = q ++ x :: u ->
            Matches t (Plus NotSpace) (length q) c (length t) c).
  { intros q Hq. apply M_Plus with x; [| exact Hx |].
    - rewrite Hq. rewrite lookup_app_r by lia. by rewrite Nat.sub_diag.
    - apply (Star_build_at t true NotSpace u (q ++ [x]) [] c); [|exact Hns| |].
      + rewrite Hq, app_nil_r, <- app_assoc. done.
      + rewrite length_app. cbn. lia.
      + rewrite Hq, !length_app. cbn [length]. lia. }
  unfold URL_TRAILER, url. cbn [cat].
  apply M_Seq with (length t) c; [|apply M_Seq with (length t) c].
  - destruct Hs as [-> | ->].
    + apply M_Seq with (length pre + 4) c.
      { apply (word_build_at t _ pre (py "http") (py "://" ++ x :: u));
          [|done|done|by cbn].
        subst t. f_equal. }
      apply M_Seq with (length pre + 4) c; [apply M_OptN|].
      apply M_Seq with (length pre + 7) c.
      { apply (word_build_at t _ (pre ++ py "http") (py "://") (x :: u));
          [|done| |by cbn; lia].
        - subst t. by rewrite <- app_assoc.
        - rewrite length_app. by cbn. }
      replace (length pre + 7) with (length (pre ++ py "http://"))
        by (rewrite length_app; by cbn).
      apply Hplus. subst t. by rewrite <- app_assoc.
    + apply M_Seq with (length pre + 4) c.
      { apply (word_build_at t _ pre (py "http") (py "s://" ++ x :: u));
          [|done|done|by cbn].
        subst t. f_equal. }
      apply M_Seq with (length pre + 5) c.
      { apply M_OptS. replace (length pre + 5) with (S (length pre + 4)) by lia.
        apply M_Chr with 0x73%N; [|done].
        subst t. rewrite lookup_app_r by lia.
        by replace (length pre + 4 - length pre) with 4 by lia. }
      apply M_Seq with (length pre + 8) c.
      { apply (word_build_at t _ (pre ++ py "https") (py "://") (x :: u));
          [|done| |by cbn; lia].
        - subst t. by rewrite <- app_assoc.
        - rewrite length_app. by cbn. }
      replace (length pre + 8) with (length (pre ++ py "https://"))
        by (rewrite length_app; by cbn).
      apply Hplus. subst t. by rewrite <- app_assoc.
  - apply M_Star0.
  - apply M_EndDollar. by left.
Qed.

Lemma url_at_end pre scheme u :
  scheme = py "http://" \/ scheme = py "https://" ->
  u <> [] -> forallb (fun x => negb (Unicode.is_space x)) u = true ->
  exists m,
    match_at URL_TRAILER (pre ++ scheme ++ u)
      (state_at (pre ++ scheme ++ u) (length pre)) = Some m /\
    m_end m = length (pre ++ scheme ++ u).
Proof.
  intros Hs Hu Hns. set (t := pre ++ scheme ++ u).
  pose proof (url_build pre scheme u ∅ Hs Hu Hns) as Hm. fold t in Hm.
  destruct (match_at URL_TRAILER t (state_at t (length pre))) as [m|] eqn:E;
    [|by apply match_at_complete in Hm].
  exists m. split; [done|].
  apply match_at_sound in E as (_ & _ & HM).
  pose proof (Matches_bound _ _ _ _ _ _ HM) as Hb.
  apply URL_TRAILER_shape in HM as (k0 & k & _ & _ & _ & _ & _ & _ & Hend).
  assert (Hl : length pre <= length t) by (subst t; rewrite length_app; lia).
  specialize (Hb Hl).
  destruct Hend as [?|[Hj HNL]]; [lia|]. exfalso.
  assert (Hsl : 7 <= length scheme) by (destruct Hs as [-> | ->]; vm_compute; lia).
  assert (Hul : 0 < length u) by (destruct u; [done|cbn; lia]).
  subst t. rewrite !length_app in Hj.
  rewrite lookup_app_r in HNL by lia. rewrite lookup_app_r in HNL by lia.
  apply list_elem_of_lookup_2, list_elem_of_In in HNL.
  rewrite forallb_forall in Hns. specialize (Hns _ HNL). by vm_compute in Hns.
Qed.

Lemma strip_ends v : strip v = v ->
  match v with c :: _ => Unicode.is_space c = false | [] => True end /\
  match rev v with c :: _ => Unicode.is_space c = false | [] => True end.
Proof.
  intros E. destruct (strip_spec v) as (a & b & _ & _ & _ & H1 & H2).
  by rewrite E in H1, H2.
Qed.

Lemma strip_space_after v : strip v = v -> strip (v ++ [0x20%N]) = v.
Proof.
  intros E. destruct (strip_ends v E) as [H1 H2].
  destruct v as [|x v]; [done|].
  unfold strip. cbn [app]. rewrite lstrip_word by done.
  change (x :: v ++ [0x20%N]) with ((x :: v) ++ [0x20%N]).
  unfold rstrip. rewrite rev_app_distr.
  change (lstrip (rev [0x20%N] ++ rev (x :: v))) with (lstrip (rev (x :: v))).
  rewrite (lstrip_no_space _ H2). apply rev_involutive.
Qed.

(** *** The shape of a match of the answer fragment pattern *)

Lemma CLEAN_CORRECT_IN_OPTION_shape t i c j c' :
  Matches t CLEAN_CORRECT_IN_OPTION i c j c' ->
  exists a b d e,
    (forall m y, i <= m < a -> t !! m = Some y -> Unicode.is_space y = true) /\
    (forall m y, a <= m < a + 7 -> t !! m = Some y ->
       existsb (fun l => Unicode.eq_nocase l y) (py "Correct") = true) /\
    a + 7 <= b /\
    (forall m y, a + 7 <= m < b -> t !! m = Some y -> Unicode.is_space y = true) /\
    b + 6 <= d /\
    (forall m y, b + 6 <= m < d -> t !! m = Some y -> Unicode.is_space y = true) /\
    (exists y, t !! d = Some y /\ cset_mem (SetI colon_chars) y = true) /\
    d + 1 <= e /\
    (forall m y, d + 1 <= m < e -> t !! m = Some y -> Unicode.is_space y = true) /\
    (exists y, t !! e = Some y /\ cset_mem (SetI (py "ABCD")) y = true) /\
    e + 1 <= j /\
    (forall m y, e + 1 <= m < j -> t !! m = Some y -> Unicode.is_space y = true) /\
    (length t <= j \/ (S j = length t /\ t !! j = Some NL)).
Proof.
  unfold CLEAN_CORRECT_IN_OPTION, correct_answer_marker, colon. cbn [cat].
  intros H.
  apply Matches_Seq_inv in H as (a & c1 & Hw1 & H).
  apply Matches_Seq_inv in H as (d1 & c2 & Hmk & H).
  apply Matches_Seq_inv in H as (e & c3 & Hw4 & H).
  apply Matches_Seq_inv in H as (e1 & c4 & Hl & H).
  apply Matches_Seq_inv in H as (j' & c5 & Hw5 & He).
  inversion He; subst.
  apply Matches_Seq_inv in Hmk as (a7 & c6 & Hc & Hmk).
  apply Matches_Seq_inv in Hmk as (b & c7 & Hw2 & Hmk).
  apply Matches_Seq_inv in Hmk as (b6 & c8 & Ha & Hmk).
  apply Matches_Seq_inv in Hmk as (d & c9 & Hw3 & Hcol).
  apply Matches_Chr_inv in Hcol as (_ & -> & yc & Hyc & Hcc).
  apply Matches_Chr_inv in Hl as (_ & -> & yl & Hyl & Hcl).
  pose proof (word_span _ _ _ _ _ _ Hc) as (_ & E7 & _).
  pose proof (word_span _ _ _ _ _ _ Ha) as (_ & E6 & _).
  change (length (py "Correct")) with 7 in E7.
  change (length (py "Answer")) with 6 in E6. subst a7 b6.
  apply Matches_Star_chars in Hw1 as (_ & L1 & S1).
  apply Matches_Star_chars in Hw2 as (_ & L2 & S2).
  apply Matches_Star_chars in Hw3 as (_ & L3 & S3).
  apply Matches_Star_chars in Hw4 as (_ & L4 & S4).
  apply Matches_Star_chars in Hw5 as (_ & L5 & S5).
  assert (Hsp : forall p q,
            (forall n, p <= n < q ->
               exists x, t !! n = Some x /\ cset_mem Space x = true) ->
            forall m y, p <= m < q -> t !! m = Some y -> Unicode.is_space y = true).
  { intros p q Hpq m y Hm Hy. destruct (Hpq m Hm) as (x & Hx & Hcx).
    assert (x = y) by congruence. by subst x. }
  exists a, b, d, e.
  split; [by apply Hsp|]. split.
  { intros m y Hm Hy. by eapply word_inside. }
  split; [done|]. split; [by apply Hsp|]. split; [done|].
  split; [by apply Hsp|]. split; [eauto|]. split; [lia|].
  split; [apply Hsp; intros n Hn; apply S4; lia|].
  split; [eauto|]. split; [lia|].
  split; [apply Hsp; intros n Hn; apply S5; lia|]. done.
Qed.

Lemma lookup_after (v sp f : str) n :
  (v ++ sp ++ f) !! (length v + length sp + n) = f !! n.
Proof.
  rewrite lookup_app_r by lia. rewrite lookup_app_r by lia. f_equal. lia.
Qed.

(** A fragment at the end of a text is found where the whitespace before
    it begins, and not earlier. *)
Lemma answer_fragment_start v sp x i c j c' :
  match rev v with z :: _ => Unicode.is_space z = false | [] => True end ->
  Unicode.is_space x = false ->
  Matches (v ++ sp ++ py "Correct Answer: " ++ [x])
          CLEAN_CORRECT_IN_OPTION i c j c' ->
  length v <= i /\ j = length (v ++ sp ++ py "Correct Answer: " ++ [x]).
Proof.
  intros Hv Hx HM.
  set (f := py "Correct Answer: " ++ [x]) in *.
  set (t := v ++ sp ++ f) in *.
  set (a0 := length v + length sp).
  assert (Hlen : length t = a0 + 17).
  { subst t a0 f. rewrite !length_app. cbn. lia. }
  assert (Hat : forall n, t !! (a0 + n) = f !! n) by (intros n; apply lookup_after).
  assert (Hi : i < length t).
  { by apply (Matches_not_nullable_inside _ _ _ _ _ _ HM). }
  pose proof (Matches_bound _ _ _ _ _ _ HM ltac:(lia)) as Hj.
  apply CLEAN_CORRECT_IN_OPTION_shape in HM
    as (a & b & d & e & S1 & WC & Lb & S2 & Ld & S3 & (yc & Hyc & Hcc) & Le & S4 &
        (yl & Hyl & Hcl) & Lj & S5 & Hend).
  pose proof (Hat 16) as A16. change (f !! 16) with (Some x) in A16.
  pose proof (Hat 15) as A15. change (f !! 15) with (Some 0x20%N) in A15.
  pose proof (Hat 14) as A14. change (f !! 14) with (Some 0x3A%N) in A14.
  pose proof (Hat 13) as A13. change (f !! 13) with (Some 0x72%N) in A13.
  pose proof (Hat 7) as A7. change (f !! 7) with (Some 0x20%N) in A7.
  pose proof (Hat 6) as A6. change (f !! 6) with (Some 0x74%N) in A6.
  assert (Ej : j = a0 + 17).
  { destruct Hend as [?|[Hj1 HNL]]; [lia|].
    assert (j = a0 + 16) by lia. subst j.
    assert (x = NL) by congruence. subst x. by vm_compute in Hx. }
  pose proof (lookup_lt_Some _ _ _ Hyl) as Hel.
  assert (Ee : e = a0 + 16).
  { destruct (decide (e + 1 <= a0 + 16)) as [Hlt|?]; [|lia].
    specialize (S5 (a0 + 16) x ltac:(lia) A16). congruence. }
  assert (Ed : d = a0 + 14).
  { destruct (decide (d + 1 <= a0 + 14)) as [Hlt|?].
    { specialize (S4 (a0 + 14) _ ltac:(lia) A14). by vm_compute in S4. }
    assert (d = a0 + 15 -> False).
    { intros ->. assert (yc = 0x20%N) by congruence. subst yc.
      by vm_compute in Hcc. }
    lia. }
  assert (Eb : b = a0 + 8).
  { destruct (decide (b + 6 <= a0 + 13)) as [Hlt|?]; [|lia].
    specialize (S3 (a0 + 13) _ ltac:(lia) A13). by vm_compute in S3. }
  assert (Ea : a = a0).
  { destruct (decide (a + 7 <= a0 + 6)) as [Hlt|?].
    { specialize (S2 (a0 + 6) _ ltac:(lia) A6). by vm_compute in S2. }
    assert (a = a0 + 1 -> False).
    { intros ->. specialize (WC (a0 + 7) _ ltac:(lia) A7). by vm_compute in WC. }
    lia. }
  split; [|lia].
  destruct (rev v) as [|z rv] eqn:Er.
  { apply (f_equal (@rev _)) in Er. rewrite rev_involutive in Er. subst v.
    cbn. lia. }
  apply (f_equal (@rev _)) in Er. rewrite rev_involutive in Er. cbn [rev] in Er.
  assert (Hz : t !! length (rev rv) = Some z).
  { subst t. rewrite Er, <- app_assoc. rewrite lookup_app_r by lia.
    by rewrite Nat.sub_diag. }
  assert (Hvl : length v = length (rev rv) + 1).
  { rewrite Er, length_app. by cbn. }
  destruct (decide (length v <= i)) as [?|Hlt]; [done|].
  specialize (S1 (length (rev rv)) z ltac:(lia) Hz). congruence.
Qed.

(** The fragment itself matches from its first character. *)
Lemma answer_fragment_match x t i p :
  answer_letter x = true ->
  exists m, match_at CLEAN_CORRECT_IN_OPTION t
              (St i p (py "Correct Answer: " ++ [x])) = Some m.
Proof.
  unfold answer_letter. intros Hx. apply existsb_exists in Hx as (l & Hl & E).
  apply N.eqb_eq in E. subst l.
  vm_compute in Hl.
  repeat (destruct Hl as [<-|Hl]; [eexists; vm_compute; reflexivity|]). done.
Qed.

Lemma answer_letter_not_space x : answer_letter x = true -> Unicode.is_space x = false.
Proof.
  unfold answer_letter. intros Hx. apply existsb_exists in Hx as (l & Hl & E).
  apply N.eqb_eq in E. subst l. vm_compute in Hl.
  repeat (destruct Hl as [<-|Hl]; [reflexivity|]). done.
Qed.

Lemma answer_fragment_at_end v sp x :
  match rev v with z :: _ => Unicode.is_space z = false | [] => True end ->
  forallb Unicode.is_space sp = true -> answer_letter x = true ->
  exists m,
    match_at CLEAN_CORRECT_IN_OPTION (v ++ sp ++ py "Correct Answer: " ++ [x])
      (state_at (v ++ sp ++ py "Correct Answer: " ++ [x]) (length v)) = Some m /\
    m_end m = length (v ++ sp ++ py "Correct Answer: " ++ [x]).
Proof.
  intros Hv Hsp Hx.
  pose proof (answer_letter_not_space x Hx) as Hxs.
  set (f := py "Correct Answer: " ++ [x]) in *.
  set (t := v ++ sp ++ f) in *.
  assert (HM : exists c', Matches t CLEAN_CORRECT_IN_OPTION (length v) ∅ (length t) c').
  { destruct (answer_fragment_match x t (length (v ++ sp))
                (prev_char t (length (v ++ sp))) Hx) as (m0 & Hm0).
    assert (Hst : St (length (v ++ sp)) (prev_char t (length (v ++ sp))) f
                  = state_at t (length (v ++ sp))).
    { unfold state_at. f_equal. subst t. rewrite app_assoc.
      by rewrite drop_app_length. }
    fold f in Hm0. rewrite Hst in Hm0.
    apply match_at_sound in Hm0 as (_ & _ & H0).
    pose proof H0 as H0'. subst t.
    apply answer_fragment_start in H0' as [_ Ej]; [|done|done].
    fold f in Ej, H0 |- *. rewrite Ej in H0.
    exists (m_caps m0).
    unfold CLEAN_CORRECT_IN_OPTION in H0 |- *. cbn [cat] in H0 |- *.
    apply Matches_Seq_inv in H0 as (a & c1 & Hw & Hrest).
    apply Matches_Star_chars in Hw as (-> & La & Sa).
    assert (a = length (v ++ sp)).
    { destruct (decide (a = length (v ++ sp))) as [?|Hne]; [done|].
      destruct (Sa (length (v ++ sp)) ltac:(lia)) as (y & Hy & Hcy).
      rewrite app_assoc in Hy. rewrite lookup_app_r in Hy by lia.
      rewrite Nat.sub_diag in Hy. injection Hy as <-. by vm_compute in Hcy. }
    subst a.
    apply M_Seq with (length (v ++ sp)) ∅; [|exact Hrest].
    rewrite length_app.
    apply (Star_build_at _ true Space sp v f ∅); done. }
  destruct HM as (c' & HM).
  destruct (match_at CLEAN_CORRECT_IN_OPTION t (state_at t (length v))) as [m|] eqn:E;
    [|by apply match_at_complete in HM].
  exists m. split; [done|].
  apply match_at_sound in E as (_ & _ & H1). subst t.
  by apply answer_fragment_start in H1 as [_ Ej].
Qed.

(** *** What every normalized text is like *)

Lemma normalize_text_no_ff t :
  forallb (fun c => negb (c =? FF)%N) (normalize_text t) = true.
Proof.
  apply forallb_forall. intros x H%list_elem_of_In. apply negb_true_iff, N.eqb_neq.
  unfold normalize_text in H.
  apply sub_elem in H as [H|H]; [|by apply elem_of_nil in H].
  apply sub_elem in H as [H|H];
    [|cbn in H; apply list_elem_of_singleton in H; by subst].
  apply collapse_from_elem in H as [-> | [H _] ]; [done|].
  apply markers_elem in H as [H | ->]; [|done].
  apply sub_elem in H as [H|H]; [|by apply elem_of_nil in H].
  apply list_elem_of_fmap in H as (y & -> & _).
  destruct (y =? FF)%N eqn:E; [done|]. by apply N.eqb_neq in E.
Qed.

Lemma tidy_cons x Z rest' :
  tidy (x :: rest') = true -> tidy Z = true ->
  match Z with
  | [] => True
  | d :: _ => is_blank d = false \/ head rest' = Some d
  end ->
  tidy (x :: Z) = true.
Proof.
  cbn [tidy]. intros [[Hx Hp]%andb_true_iff _]%andb_true_iff HZ Hj.
  rewrite Hx, HZ, andb_true_r. cbn [andb].
  destruct Z as [|d Z]; [done|]. destruct Hj as [Hd|Hd].
  - by rewrite Hd, andb_false_r.
  - destruct rest' as [|e rest']; [done|]. cbn in Hd. by injection Hd as ->.
Qed.

Lemma tidy_tail x y : tidy (x :: y) = true -> tidy y = true.
Proof. cbn [tidy]. by intros [_ H]%andb_true_iff. Qed.

(** The whitespace pass leaves no tab and no two blanks in a row. *)
Lemma rep_greedy_span q c : forall rest j p,
  exists n, n <= length rest /\
    rep_greedy q j p rest c accept =
      Some (St (j + n) (last_of p (take n rest)) (drop n rest), c) /\
    match drop n rest with d :: _ => cset_mem q d = false | [] => True end.
Proof.
  induction rest as [|x rest IH]; intros j p; cbn [rep_greedy].
  - exists 0. split; [done|]. by rewrite Nat.add_0_r.
  - destruct (cset_mem q x) eqn:Hx.
    + destruct (IH (S j) (Some x)) as (n & Hn & -> & Hd).
      exists (S n). split; [cbn; lia|]. cbn [take drop]. rewrite <- last_of_cons.
      split; [|done]. by replace (j + S n) with (S j + n) by lia.
    + exists 0. split; [lia|]. rewrite Nat.add_0_r. by cbn [take drop].
Qed.

Lemma collapse_from_tidy t : forall n rest i p,
  length rest <= n ->
  tidy (sub_from collapse [TLit (py " ")] t 0 i p rest) = true /\
  match rest with
  | [] => sub_from collapse [TLit (py " ")] t 0 i p rest = []
  | d :: _ =>
      head (sub_from collapse [TLit (py " ")] t 0 i p rest) =
      Some (if is_blank d then 0x20%N else d)
  end.
Proof.
  induction n as [|n IH]; intros rest i p Hn.
  { destruct rest; [|cbn in Hn; lia]. cbn [sub_from].
    unfold match_at. by rewrite exec_end. }
  destruct rest as [|x rest].
  { cbn [sub_from]. unfold match_at. by rewrite exec_end. }
  cbn [length] in Hn. cbn [sub_from]. unfold match_at, collapse.
  cbn [exec st_rest st_pos st_prev]. fold collapse.
  change (cset_mem (OneOf [32%N; 9%N]) x) with (is_blank x).
  destruct (is_blank x) eqn:Hx.
  - destruct (rep_greedy_span (OneOf [32%N; 9%N]) ∅ rest (S i) (Some x))
      as (k & Hk & -> & Hd).
    cbn [m_end st_pos expand flat_map app].
    replace (S i + k =? i) with false by (symmetry; apply Nat.eqb_neq; lia).
    replace (S i + k - i - 1) with k by lia.
    rewrite sub_from_skips by done.
    destruct (IH (drop k rest) (k + S i) (last_of (Some x) (take k rest)))
      as [Ht Hh].
    { rewrite length_drop. lia. }
    change (py " " ++ []) with [0x20%N]. cbn [app head].
    split; [|done]. cbn [tidy].
    change (negb (32 =? TAB)%N) with true. rewrite Ht, andb_true_r. cbn [andb].
    destruct (drop k rest) as [|d rest'] eqn:E.
    + by rewrite Hh.
    + change (cset_mem (OneOf [32%N; 9%N]) d) with (is_blank d) in Hd.
      rewrite Hd in Hh.
      destruct (sub_from collapse _ t 0 _ _ (d :: rest')) as [|e out]; [done|].
      cbn in Hh. injection Hh as ->. by rewrite Hd, andb_false_r.
  - destruct (IH rest (S i) (Some x)) as [Ht Hh]; [lia|].
    split; [|done]. cbn [tidy]. rewrite Ht, andb_true_r.
    assert (Htab : (x =? TAB)%N = false).
    { destruct (x =? TAB)%N eqn:E; [|done]. apply N.eqb_eq in E. by subst. }
    rewrite Htab. cbn [negb andb].
    destruct (sub_from collapse _ t 0 _ _ rest); [done|]. by rewrite Hx.
Qed.

Lemma collapse_result_tidy t : tidy (sub collapse [TLit (py " ")] t) = true.
Proof. unfold sub. by apply (collapse_from_tidy t (length t)). Qed.

Lemma tidy_nl_cons y : tidy y = true -> tidy (NL :: y) = true.
Proof. intros H. cbn [tidy]. rewrite H. by destruct y. Qed.

(** A pass that puts a newline for each match keeps a text tidy. *)
Lemma sub_from_nl_tidy r t : forall rest skip i p,
  tidy rest = true ->
  tidy (sub_from r [TLit [NL]] t skip i p rest) = true /\
  (skip = 0 ->
   match sub_from r [TLit [NL]] t skip i p rest with
   | [] => True
   | d :: _ => is_blank d = false \/ head rest = Some d
   end).
Proof.
  induction rest as [|x rest IH]; intros skip i p Ht.
  - destruct skip; cbn [sub_from]; [|done].
    destruct (match_at r t _); [|done]. split; [done|]. intros _. by left.
  - pose proof (tidy_tail _ _ Ht) as Ht'.
    assert (Hcopy : forall j q,
              tidy (x :: sub_from r [TLit [NL]] t 0 j q rest) = true).
    { intros j q. destruct (IH 0 j q Ht') as [HZ Hj].
      by apply (tidy_cons x _ rest Ht HZ), Hj. }
    destruct skip as [|n]; cbn [sub_from].
    + destruct (match_at r t _) as [m|].
      * cbn [expand flat_map app]. split; [|intros _; by left].
        apply tidy_nl_cons. destruct (m_end m =? i); [apply Hcopy|].
        by apply IH.
      * split; [apply Hcopy|]. intros _. by right.
    + split; [|done]. by apply IH.
Qed.

Lemma tidy_take n : forall y, tidy y = true -> tidy (take n y) = true.
Proof.
  induction n as [|n IH]; intros [|x y] H; try done.
  cbn [take]. apply (tidy_cons x _ y H); [apply IH; by eapply tidy_tail|].
  destruct y as [|d y]; [by destruct n|]. destruct n; [done|]. by right.
Qed.

Lemma tidy_app_nl y : tidy y = true -> tidy (y ++ [NL]) = true.
Proof.
  induction y as [|x y IH]; [done|]. intros H. cbn [app].
  apply (tidy_cons x _ y H); [apply IH; by eapply tidy_tail|].
  destruct y as [|d y]; [by left|by right].
Qed.

(** The pass that strips a URL from the end keeps a beginning of the
    text, and a newline after it at most. *)
Lemma url_trailer_keeps t : forall rest i,
  rest = drop i t -> i <= length t ->
  exists n,
    sub_from URL_TRAILER [] t 0 i (prev_char t i) rest = take n rest \/
    sub_from URL_TRAILER [] t 0 i (prev_char t i) rest = take n rest ++ [NL].
Proof.
  induction rest as [|x rest IH]; intros i Hr Hi.
  - exists 0. left. cbn [sub_from]. by rewrite match_at_end.
  - symmetry in Hr. destruct (state_at_step _ _ _ _ Hr) as [Hx Hst].
    assert (Hd : rest = drop (S i) t).
    { apply lookup_drop_cons in Hx. congruence. }
    assert (Hp : Some x = prev_char t (S i)) by (simpl; congruence).
    assert (Hi' : S i <= length t) by (apply lookup_lt_Some in Hx; lia).
    cbn [sub_from].
    destruct (match_at URL_TRAILER t (St i (prev_char t i) (x :: rest))) as [m|] eqn:Hm.
    + exists 0. cbn [take expand flat_map app].
      rewrite <- Hr in Hm. apply match_at_sound in Hm as (_ & _ & HM).
      pose proof (Matches_bound _ _ _ _ _ _ HM ltac:(lia)) as Hb.
      pose proof (Matches_not_nullable _ _ _ _ _ _ HM eq_refl) as Hlt.
      apply URL_TRAILER_shape in HM as (_ & _ & _ & _ & _ & _ & _ & _ & Hend).
      replace (m_end m =? i) with false by (symmetry; apply Nat.eqb_neq; lia).
      rewrite sub_from_skips
        by (rewrite Hd, length_drop; lia).
      assert (Hrest : drop (m_end m - i - 1) rest = drop (m_end m) t).
      { rewrite Hd, drop_drop. f_equal. lia. }
      rewrite Hrest.
      destruct Hend as [Hge|[Hj HNL]].
      * left. rewrite drop_ge by lia. cbn [sub_from]. by rewrite match_at_end.
      * right. rewrite (lookup_drop_cons _ _ _ HNL). rewrite drop_ge by lia.
        cbn [sub_from].
        assert (E : forall j q, match_at URL_TRAILER t (St j q [NL]) = None) by done.
        rewrite E. cbn [sub_from]. by rewrite match_at_end.
    + rewrite Hp. destruct (IH (S i) Hd Hi') as (n & [E|E]); exists (S n);
        [left|right]; cbn [take app]; by rewrite E.
Qed.

Lemma url_trailer_tidy t : tidy t = true -> tidy (sub URL_TRAILER [] t) = true.
Proof.
  intros H. unfold sub.
  destruct (url_trailer_keeps t t 0 eq_refl (Nat.le_0_l _)) as (n & [E|E]);
    cbn [prev_char] in E; rewrite E.
  - by apply tidy_take.
  - by apply tidy_app_nl, tidy_take.
Qed.

Lemma normalize_text_tidy t : tidy (normalize_text t) = true.
Proof.
  unfold normalize_text. apply url_trailer_tidy.
  unfold sub at 1. apply sub_from_nl_tidy. apply collapse_result_tidy.
Qed.

(** A text without form feed, tidy, in which the normalizer finds none
    of its patterns is left as it is. *)
Lemma normalize_text_unchanged t :
  forallb (fun c => negb (c =? FF)%N) t = true ->
  tidy t = true ->
  forallb (fun P => absent P t) scans = true ->
  normalize_text t = t.
Proof.
  intros Hff Htidy Habs. unfold normalize_text.
  assert (E : map (fun c => if (c =? FF)%N then NL else c) t = t).
  { clear -Hff. induction t as [|c t IH]; [done|]. cbn [forallb map] in *.
    apply andb_true_iff in Hff as [Hc Ht]. apply negb_true_iff in Hc.
    by rewrite Hc, IH. }
  rewrite E. unfold scans in Habs. cbn [forallb] in Habs.
  apply andb_true_iff in Habs as [Hsel Habs].
  rewrite forallb_app in Habs. apply andb_true_iff in Habs as [Hmk Hurl].
  cbn [forallb] in Hurl. apply andb_true_iff in Hurl as [Hul [Hut _]%andb_true_iff].
  rewrite (sub_absent select_one [] t Hsel), (foldl_absent t markers Hmk).
  change (Plus (OneOf [32%N; 9%N])) with collapse.
  assert (Ec : sub collapse [TLit (py " ")] t = t) by (by apply collapse_tidy).
  rewrite Ec, (sub_absent url_line _ t Hul). by apply sub_absent.
Qed.

(** Once a normalization has left none of the normalizer's patterns to
    be found, another changes nothing. *)
Lemma normalize_text_settled t :
  forallb (fun P => absent P (normalize_text t)) scans = true ->
  normalize_text (normalize_text t) = normalize_text t.
Proof.
  intros H. apply normalize_text_unchanged;
    [apply normalize_text_no_ff|apply normalize_text_tidy|exact H].
Qed.

End Texts.

(** ** Glued markers and repeated normalization *)

Module Documents.
Import Re ReSpec ReFacts ParserFacts Scanning Blocks Texts.

(** C3, amended: for every text in which, after two normalizations, the
    normalizer finds none of its patterns any more (no [Select one:]
    prompt, no marker without a newline before it, no URL on a line of
    its own, no URL at the end), a further normalization changes
    nothing, and parsing the once-normalized and the twice-normalized
    text gives the same records. *)
Theorem settled_normalization_same_parse t :
  forallb (fun P => absent P (normalize_text (normalize_text t))) scans = true ->
  normalize_text (normalize_text (normalize_text t)) =
    normalize_text (normalize_text t) /\
  parse_questions_from_text (normalize_text t) =
    parse_questions_from_text (normalize_text (normalize_text t)).
Proof.
  intros H. pose proof (normalize_text_settled _ H) as E. split; [exact E|].
  unfold parse_questions_from_text. by rewrite E.
Qed.

Lemma settled_normalization_same_parse_witness :
  forallb (fun P => absent P (normalize_text (normalize_text two_url_tails))) scans
    = true /\
  normalize_text (normalize_text two_url_tails) <> normalize_text two_url_tails /\
  parse_questions_from_text (normalize_text two_url_tails) =
    parse_questions_from_text (normalize_text (normalize_text two_url_tails)).
Proof.
  assert (H : forallb (fun P => absent P (normalize_text (normalize_text two_url_tails)))
                scans = true) by (vm_compute; reflexivity).
  split; [exact H|]. split; [vm_compute; discriminate|].
  exact (proj2 (settled_normalization_same_parse two_url_tails H)).
Defined.

(** C2: for every document made of well-formed blocks, the text with
    every marker glued to the field before it and the text with every
    marker on a line of its own normalize to the same text, each marker
    after a newline, and parse to the same records: those of the blocks,
    each field as written, in the order of their numbers. *)
Theorem glued_markers_parse bs :
  Forall (fun b => wf_block b = true) bs ->
  normalize_text (render no_seps false bs) = render all_seps true bs /\
  normalize_text (render all_seps false bs) = render all_seps true bs /\
  parse_questions_from_text (render no_seps false bs) =
    parse_questions_from_text (render all_seps false bs) /\
  parse_questions_from_text (render no_seps false bs) =
    Ok (sort_by_number (map block_record bs)).
Proof.
  intros H. split; [by apply wf_normal_form|]. split; [by apply wf_normal_form|].
  split; [|by apply parse_render]. by rewrite !parse_render.
Qed.

Lemma glued_markers_parse_witness :
  Forall (fun b => wf_block b = true) two_blocks /\
  render no_seps false two_blocks = glued /\
  render all_seps false two_blocks = newline_separated /\
  parse_questions_from_text (render no_seps false two_blocks) =
    parse_questions_from_text (render all_seps false two_blocks) /\
  parse_questions_from_text (render no_seps false two_blocks) =
    Ok (sort_by_number (map block_record two_blocks)).
Proof.
  assert (H : Forall (fun b => wf_block b = true) two_blocks)
    by (repeat constructor; vm_compute; reflexivity).
  split; [exact H|]. split; [vm_compute; reflexivity|].
  split; [vm_compute; reflexivity|].
  exact (proj2 (proj2 (glued_markers_parse two_blocks H))).
Defined.

End Documents.

(** ** The quiz page *)

Module Page.

Lemma up_to_click_app clicked l1 l2 :
  up_to_click clicked (l1 ++ l2) =
  match up_to_click clicked l1 with
  | (made, Some i) => (made, Some i)
  | (made, None) =>
      let '(made', jump) := up_to_click clicked l2 in (made ++ made', jump)
  end.
Proof.
  induction l1 as [|i l1 IH]; cbn [app up_to_click].
  - by destruct (up_to_click clicked l2).
  - destruct (clicked i); [done|]. rewrite IH.
    destruct (up_to_click clicked l1) as [made [j|]]; [done|].
    by destruct (up_to_click clicked l2).
Qed.

Lemma row_buttons_seq clicked total r : forall n c0,
  row_buttons clicked total r (seq c0 n) =
  up_to_click clicked (seq (r * per_row + c0) (Nat.min n (total - (r * per_row + c0)))).
Proof.
  induction n as [|n IH]; intros c0; [done|].
  cbn [seq row_buttons]. cbv zeta.
  destruct (Nat.leb_spec total (r * per_row + c0)) as [Hle|Hlt].
  - by replace (Nat.min (S n) (total - (r * per_row + c0))) with 0 by lia.
  - replace (Nat.min (S n) (total - (r * per_row + c0)))
      with (S (Nat.min n (total - (r * per_row + S c0)))) by lia.
    cbn [seq up_to_click]. destruct (clicked (r * per_row + c0)); [done|].
    rewrite IH. by replace (r * per_row + S c0) with (S (r * per_row + c0)) by lia.
Qed.

Lemma rows_from_app clicked total rs1 rs2 :
  rows_from clicked total (rs1 ++ rs2) =
  match rows_from clicked total rs1 with
  | (made, Some i) => (made, Some i)
  | (made, None) =>
      let '(made', jump) := rows_from clicked total rs2 in (made ++ made', jump)
  end.
Proof.
  induction rs1 as [|r rs1 IH]; cbn [app rows_from].
  - by destruct (rows_from clicked total rs2).
  - destruct (row_buttons clicked total r (seq 0 per_row)) as [made [j|]]; [done|].
    rewrite IH. destruct (rows_from clicked total rs1) as [made1 [j|]]; [done|].
    destruct (rows_from clicked total rs2) as [made2 j]. by rewrite app_assoc.
Qed.

Lemma rows_buttons clicked total k :
  rows_from clicked total (seq 0 k) =
  up_to_click clicked (seq 0 (Nat.min total (k * per_row))).
Proof.
  induction k as [|k IH].
  { by replace (Nat.min total (0 * per_row)) with 0 by lia. }
  rewrite seq_S, rows_from_app, IH. cbn [Nat.add rows_from].
  rewrite row_buttons_seq, Nat.add_0_r.
  assert (E : seq 0 (Nat.min total (S k * per_row)) =
              seq 0 (Nat.min total (k * per_row)) ++
              seq (k * per_row) (Nat.min per_row (total - k * per_row))).
  { unfold per_row. destruct (Nat.le_gt_cases total (k * 20)) as [Hle|Hgt].
    - replace (Nat.min total (S k * 20)) with total by lia.
      replace (Nat.min total (k * 20)) with total by lia.
      replace (Nat.min 20 (total - k * 20)) with 0 by lia.
      by rewrite app_nil_r.
    - replace (Nat.min total (k * 20)) with (k * 20) by lia.
      replace (Nat.min total (S k * 20))
        with (k * 20 + Nat.min 20 (total - k * 20)) by lia.
      by rewrite seq_app. }
  rewrite E, up_to_click_app.
  destruct (up_to_click clicked (seq 0 (Nat.min total (k * per_row)))) as [made [j|]];
    [done|].
  destruct (up_to_click clicked
              (seq (k * per_row) (Nat.min per_row (total - k * per_row))))
    as [made' [j|]]; [done|]. by rewrite app_nil_r.
Qed.

Lemma up_to_click_seq clicked : forall n a,
  up_to_click clicked (seq a n) =
  match find clicked (seq a n) with
  | Some i => (seq a (S i - a), Some i)
  | None => (seq a n, None)
  end.
Proof.
  induction n as [|n IH]; intros a; [done|].
  cbn [seq up_to_click find]. destruct (clicked a) eqn:Ha.
  - by replace (S a - a) with 1 by lia.
  - rewrite IH. destruct (find clicked (seq (S a) n)) as [i|] eqn:Hf; [|done].
    apply find_some in Hf as [Hin _]. apply in_seq in Hin.
    by replace (S i - a) with (S (S i - S a)) by lia.
Qed.

(** *** The order of the questions *)

Lemma questions_in_map {A} (base : list A) order :
  Forall (fun i => i < length base) order ->
  exists qs, questions_in base order = Some qs /\
             Forall2 (fun i q => base !! i = Some q) order qs.
Proof.
  unfold questions_in. induction 1 as [|i order Hi Ho (qs & E & IH)].
  - exists []. by split.
  - destruct (lookup_lt_is_Some_2 base i Hi) as [q Hq].
    exists (q :: qs). cbn. rewrite Hq. cbn. rewrite E. cbn.
    split; [done|]. by constructor.
Qed.

Lemma lookup_seq_all {A} (base : list A) qs :
  Forall2 (fun i q => base !! i = Some q) (seq 0 (length base)) qs -> qs = base.
Proof.
  intros H. apply list_eq. intros i.
  destruct (decide (i < length base)) as [Hi|Hi].
  - destruct (Forall2_lookup_l _ _ _ i i H) as (q & Hq & Hb).
    { apply lookup_seq. lia. }
    by rewrite Hq, Hb.
  - rewrite (lookup_ge_None_2 base) by lia.
    apply lookup_ge_None_2. apply Forall2_length in H. rewrite length_seq in H. lia.
Qed.

Lemma Forall2_perm_l {A B} (R : A -> B -> Prop) l l' k :
  Forall2 R l k -> Permutation l l' -> exists k', Forall2 R l' k' /\ Permutation k k'.
Proof.
  intros H Hp. revert k H.
  induction Hp as [|x l l' Hp IH|x y l|l l' l'' Hp1 IH1 Hp2 IH2]; intros k H.
  - apply Forall2_nil_inv_l in H as ->. by exists [].
  - apply Forall2_cons_inv_l in H as (b & k0 & Hb & Hk & ->).
    destruct (IH _ Hk) as (k' & ? & ?). exists (b :: k'). split; [by constructor|by constructor].
  - apply Forall2_cons_inv_l in H as (b & k0 & Hb & Hk & ->).
    apply Forall2_cons_inv_l in Hk as (b' & k1 & Hb' & Hk & ->).
    exists (b' :: b :: k1). split; [by repeat constructor|apply perm_swap].
  - destruct (IH1 _ H) as (k' & H' & P'). destruct (IH2 _ H') as (k'' & H'' & P'').
    exists k''. split; [done|by etrans].
Qed.

(** *** The index of the question shown *)

(** *** The score *)

Section ScoreFacts.
Context {V : Type} (truthy : V -> bool) (same : V -> str -> bool).

Lemma score_step_bounds answers acc item :
  let acc' := score_step truthy same answers acc item in
  acc.1 <= acc'.1 <= S acc.1 /\ acc.2 <= acc'.2 <= S acc.2 /\
  acc'.1 - acc.1 <= acc'.2 - acc.2.
Proof.
  unfold score_step. destruct (answers !! number item) as [user|]; [|cbn; lia].
  destruct (truthy user); [|cbn; lia]. destruct (same user (answer item)); cbn; lia.
Qed.

Lemma score_from_bounds answers questions : forall acc,
  let r := foldl (score_step truthy same answers) acc questions in
  r.1 - acc.1 <= r.2 - acc.2 /\ acc.1 <= r.1 /\ acc.2 <= r.2 /\
  r.2 - acc.2 <= length questions.
Proof.
  induction questions as [|q qs IH]; intros acc; cbn [foldl length]; [lia|].
  pose proof (score_step_bounds answers acc q) as Hs.
  specialize (IH (score_step truthy same answers acc q)).
  cbv zeta in *. lia.
Qed.

Lemma score_step_comm answers acc x y :
  score_step truthy same answers (score_step truthy same answers acc x) y =
  score_step truthy same answers (score_step truthy same answers acc y) x.
Proof.
  unfold score_step.
  destruct (answers !! number x) as [u|], (answers !! number y) as [v|]; try done.
  destruct (truthy u), (truthy v); try done.
  destruct (same u (answer x)), (same v (answer y)); done.
Qed.

Lemma score_from_perm answers qs qs' :
  Permutation qs qs' -> forall acc,
  foldl (score_step truthy same answers) acc qs =
  foldl (score_step truthy same answers) acc qs'.
Proof.
  induction 1 as [|x l l' Hp IH|x y l|l l' l'' Hp1 IH1 Hp2 IH2]; intros acc; cbn [foldl].
  - done.
  - apply IH.
  - by rewrite score_step_comm.
  - by rewrite IH1.
Qed.

End ScoreFacts.

Lemma index_of_bound {V} (same_letter : V -> string -> bool) v ls i :
  index_of same_letter v ls = Some i -> i < length ls.
Proof.
  revert i. induction ls as [|l ls IH]; intros i; cbn [index_of length]; [done|].
  destruct (same_letter v l); [intros [= <-]; lia|].
  destruct (index_of same_letter v ls) as [j|]; [|done].
  intros [= <-]. specialize (IH j eq_refl). lia.
Qed.

Lemma shown_options_elem options o :
  o ∈ shown_options options ->
  o.1 ∈ letters /\ o.2 = strip (default [] (options !! o.1)) /\ nonempty o.2 = true.
Proof.
  unfold shown_options. intros (l & Hl & Ho)%list_elem_of_omap.
  cbv zeta in Ho. destruct (nonempty _) eqn:E; [|done].
  injection Ho as <-. done.
Qed.

End Page.

(** ** Further properties of the program *)

Module Extras.
Import Re ReSpec ReFacts ParserFacts Scanning Blocks Texts Page.

(** *** [normalize_text] *)

(** X1: in a document made of well-formed blocks each marker may be
    glued to the field before it or start a line of its own, one by one;
    whatever the choice, [normalize_text] gives the same text: the
    document with every marker after a newline, the fields unchanged. *)
Theorem normalized_document l :
  Forall (fun sb : seps * block => wf_block sb.2 = true) l ->
  normalize_text (render_each l) = render all_seps true (map snd l).
Proof. apply each_normal_form. Qed.

Lemma normalized_document_witness :
  Forall (fun sb : seps * block => wf_block sb.2 = true) two_layouts /\
  normalize_text (render_each two_layouts) = render all_seps true (map snd two_layouts).
Proof.
  assert (H : Forall (fun sb : seps * block => wf_block sb.2 = true) two_layouts)
    by (repeat constructor; vm_compute; reflexivity).
  split; [exact H|]. exact (normalized_document two_layouts H).
Defined.

(** X2: on a document made of well-formed blocks a second
    [normalize_text] changes nothing. *)
Theorem normalized_document_stable bs s first :
  Forall (fun b => wf_block b = true) bs ->
  normalize_text (normalize_text (render s first bs)) =
  normalize_text (render s first bs).
Proof. intros H. by rewrite !wf_normal_form. Qed.

Lemma normalized_document_stable_witness :
  Forall (fun b => wf_block b = true) two_blocks /\
  normalize_text (normalize_text (render no_seps false two_blocks)) =
  normalize_text (render no_seps false two_blocks).
Proof.
  assert (H : Forall (fun b => wf_block b = true) two_blocks)
    by (repeat constructor; vm_compute; reflexivity).
  split; [exact H|]. exact (normalized_document_stable two_blocks no_seps false H).
Defined.

(** X3: every character of the result of [normalize_text] is a
    character of the input, a newline or a space; no form feed and no
    tab is left. *)
Theorem normalized_characters t :
  Forall (fun x => x <> FF /\ x <> TAB /\ (x ∈ t \/ x = NL \/ x = 0x20%N))
         (normalize_text t).
Proof.
  apply Forall_forall. intros x H. unfold normalize_text in H.
  apply sub_elem in H as [H|H]; [|by apply elem_of_nil in H].
  assert (Hx : x = NL \/ x = 0x20%N \/
               (cset_mem (OneOf [0x20; 0x09]%N) x = false /\
                x ∈ map (fun c => if (c =? FF)%N then NL else c) t)).
  { apply sub_elem in H as [H|H];
      [|left; cbn in H; by apply list_elem_of_singleton in H].
    apply collapse_from_elem in H as [H|[H Hb]]; [by right; left|].
    apply markers_elem in H as [H|H]; [|by left].
    apply sub_elem in H as [H|H]; [|by apply elem_of_nil in H].
    by right; right. }
  destruct Hx as [->|[->|[Hb Hx]]]; [by auto|by auto|].
  apply list_elem_of_fmap in Hx as (y & Ey & Hy).
  destruct (y =? FF)%N eqn:E.
  - subst x. by auto.
  - apply N.eqb_neq in E. subst x. split; [done|]. split; [|by left].
    intros ->. discriminate Hb.
Qed.

(** X4: a text without form feed, without tab and without a space next
    to another, in which neither [Select one:], nor a marker that no
    newline precedes, nor a URL line or a URL tail occurs, is returned by
    [normalize_text] as it is. *)
Theorem nothing_to_normalize t :
  forallb (fun c => negb (c =? FF)%N) t = true ->
  tidy t = true ->
  forallb (fun P => absent P t) scans = true ->
  normalize_text t = t.
Proof.
  intros Hff Htidy Habs. unfold normalize_text.
  assert (E : map (fun c => if (c =? FF)%N then NL else c) t = t).
  { clear -Hff. induction t as [|c t IH]; [done|]. cbn [forallb map] in *.
    apply andb_true_iff in Hff as [Hc Ht]. apply negb_true_iff in Hc.
    by rewrite Hc, IH. }
  rewrite E. unfold scans in Habs. cbn [forallb] in Habs.
  apply andb_true_iff in Habs as [Hsel Habs].
  rewrite forallb_app in Habs. apply andb_true_iff in Habs as [Hmk Hurl].
  cbn [forallb] in Hurl. apply andb_true_iff in Hurl as [Hul [Hut _]%andb_true_iff].
  rewrite (sub_absent select_one [] t Hsel), (foldl_absent t markers Hmk).
  change (Plus (OneOf [32%N; 9%N])) with collapse.
  assert (Ec : sub collapse [TLit (py " ")] t = t) by (by apply collapse_tidy).
  rewrite Ec, (sub_absent url_line _ t Hul). by apply sub_absent.
Qed.

Lemma nothing_to_normalize_witness :
  normalize_text (py "What is 2+2? It is 4.") = py "What is 2+2? It is 4.".
Proof.
  apply nothing_to_normalize; vm_compute; reflexivity.
Defined.

(** *** [_clean] *)

(** X5: the result of [_clean] holds no carriage return, neither begins
    nor ends with whitespace, and is left as it is by a second
    [_clean]. *)
Theorem clean_result s :
  Forall (fun c => c <> CR) (_clean s) /\
  match _clean s with c :: _ => Unicode.is_space c = false | [] => True end /\
  match rev (_clean s) with c :: _ => Unicode.is_space c = false | [] => True end /\
  _clean (_clean s) = _clean s.
Proof.
  assert (Hcr : Forall (fun c => c <> CR) (_clean s)).
  { apply Forall_forall. intros c Hc. unfold _clean in Hc.
    apply strip_elem in Hc. unfold remove_char in Hc.
    by apply list_elem_of_filter in Hc as [? _]. }
  destruct (strip_spec (remove_char CR s)) as (u & v & _ & _ & _ & Hh & Hl).
  fold (_clean s) in Hh, Hl.
  split; [done|]. split; [done|]. split; [done|].
  unfold _clean at 1. rewrite remove_char_absent by done.
  by apply strip_fixed.
Qed.

(** *** [parse_questions_from_text] *)

(** X6: a document made of well-formed blocks, each of its markers
    glued or on a line of its own, one by one, parses to the records of
    its blocks in the order of their numbers: the number read in base
    ten, each field as written, the answer letter in upper case. *)
Theorem document_records l :
  Forall (fun sb : seps * block => wf_block sb.2 = true) l ->
  parse_questions_from_text (render_each l) =
  Ok (sort_by_number (map block_record (map snd l))).
Proof. apply parse_render_each. Qed.

Lemma document_records_witness :
  Forall (fun sb : seps * block => wf_block sb.2 = true) two_layouts /\
  parse_questions_from_text (render_each two_layouts) =
  Ok (sort_by_number (map block_record (map snd two_layouts))).
Proof.
  assert (H : Forall (fun sb : seps * block => wf_block sb.2 = true) two_layouts)
    by (repeat constructor; vm_compute; reflexivity).
  split; [exact H|]. exact (document_records two_layouts H).
Defined.

(** X7: [parse_questions_from_text] raises [ValueError] when the number
    of some match has more digits than [int] accepts, and nothing else;
    otherwise it returns as many records as the block pattern has
    matches in the normalized text. *)
Theorem parse_outcome txt :
  match parse_questions_from_text txt with
  | Ok rs =>
      existsb over_limit (finditer QUESTION_BLOCK (normalize_text txt)) = false /\
      length rs = length (finditer QUESTION_BLOCK (normalize_text txt))
  | Raise e =>
      e = ValueError /\
      existsb over_limit (finditer QUESTION_BLOCK (normalize_text txt)) = true
  end.
Proof.
  unfold parse_questions_from_text.
  pose proof (for_each_record_of_outcome (normalize_text txt)
                (finditer QUESTION_BLOCK (normalize_text txt)) (fun m H => H)) as H.
  destruct (for_each record_of _) as [rs|e]; cbn [bind]; [|done].
  destruct H as [-> E]. split; [done|]. rewrite <- E.
  apply Permutation_length, sort_by_number_perm.
Qed.

(** X8: the records returned are those of the matches, each once, none
    merged or dropped; records with the same number keep the order of
    their matches in the text. *)
Theorem parse_keeps_matches txt rs :
  parse_questions_from_text txt = Ok rs ->
  exists results,
    Forall2 (fun m r => record_of m = Ok r)
            (finditer QUESTION_BLOCK (normalize_text txt)) results /\
    Permutation rs results /\
    forall n, filter (fun r => number r = n) rs = filter (fun r => number r = n) results.
Proof.
  intros (results & Hf & ->)%parse_Ok_inv. exists results.
  split; [by apply for_each_Ok|]. split; [apply sort_by_number_perm|].
  intros n. apply sort_by_number_stable.
Qed.

Lemma parse_keeps_matches_witness :
  exists rs,
    parse_questions_from_text reversed_blocks = Ok rs /\
    exists results,
      Forall2 (fun m r => record_of m = Ok r)
              (finditer QUESTION_BLOCK (normalize_text reversed_blocks)) results /\
      Permutation rs results /\
      forall n, filter (fun r => number r = n) rs = filter (fun r => number r = n) results.
Proof.
  eexists. split; [vm_compute; reflexivity|].
  apply (parse_keeps_matches reversed_blocks). vm_compute. reflexivity.
Defined.

(** *** The safety cleanup of the options *)

(** X17: an address glued to an option after a space is removed by the
    cleanup: from a text that neither begins nor ends with whitespace,
    followed by a space and an address that opens with [http://] or
    [https://] and has at least one more character and no whitespace,
    the cleanup keeps the text alone, when no answer fragment is found
    in the whole. *)
Theorem sanitize_url_tail v scheme u :
  strip v = v ->
  scheme = py "http://" \/ scheme = py "https://" ->
  u <> [] -> forallb (fun x => negb (Unicode.is_space x)) u = true ->
  absent CLEAN_CORRECT_IN_OPTION (v ++ py " " ++ scheme ++ u) = true ->
  sanitize (v ++ py " " ++ scheme ++ u) = v.
Proof.
  intros Hv Hs Hu Hns Hab. unfold sanitize. cbv zeta.
  rewrite (sub_absent _ _ _ Hab).
  destruct (strip_ends v Hv) as [H1 H2].
  assert (Hlast : match rev (scheme ++ u) with
                  | c :: _ => Unicode.is_space c = false | [] => True end).
  { rewrite rev_app_distr. destruct (rev u) as [|z ru] eqn:Er.
    - apply (f_equal (@rev _)) in Er. rewrite rev_involutive in Er. done.
    - cbn [app]. rewrite forallb_forall in Hns.
      apply negb_true_iff, Hns. apply in_rev. rewrite Er. by left. }
  assert (Hfirst : match scheme ++ u with
                   | c :: _ => Unicode.is_space c = false | [] => True end).
  { by destruct Hs as [-> | ->]. }
  destruct (url_at_end [] scheme u Hs Hu Hns) as (m0 & Hm0 & He0).
  destruct (url_at_end (v ++ py " ") scheme u Hs Hu Hns) as (m & Hm & He).
  assert (Hneed : needs_char URL_TRAILER = true) by done.
  assert (Htail : scheme ++ u <> []) by (by destruct Hs as [-> | ->]).
  destruct v as [|x v].
  - cbn [app].
    assert (E : strip (py " " ++ scheme ++ u) = scheme ++ u).
    { unfold strip.
      change (lstrip (py " " ++ scheme ++ u)) with (lstrip (scheme ++ u)).
      rewrite (lstrip_no_space _ Hfirst). unfold rstrip.
      rewrite (lstrip_no_space _ Hlast). apply rev_involutive. }
    rewrite E.
    pose proof (sub_last_match URL_TRAILER [] [] (scheme ++ u) m0 Hneed) as Hsub.
    cbn [app length] in Hsub. rewrite Hsub; [done|lia|exact Hm0|exact He0|exact Htail].
  - assert (E : strip ((x :: v) ++ py " " ++ scheme ++ u)
                = (x :: v) ++ py " " ++ scheme ++ u).
    { apply strip_fixed; [exact H1|].
      rewrite (app_assoc (x :: v)), rev_app_distr.
      destruct (rev (scheme ++ u)) as [|z rs] eqn:Er; [|done].
      apply (f_equal (@rev _)) in Er. by rewrite rev_involutive in Er. }
    rewrite E.
    assert (ET : (x :: v) ++ py " " ++ scheme ++ u
                 = ((x :: v) ++ py " ") ++ scheme ++ u) by (by rewrite <- app_assoc).
    rewrite ET.
    rewrite (sub_last_match URL_TRAILER [] ((x :: v) ++ py " ") (scheme ++ u) m Hneed);
      [|
       |exact Hm|exact He|exact Htail].
    + cbn [expand flat_map]. rewrite app_nil_r. by apply strip_space_after.
    + intros k Hk. rewrite length_app in Hk.
      change (length (py " ")) with 1 in Hk.
      set (t := ((x :: v) ++ py " ") ++ scheme ++ u).
      destruct (match_at URL_TRAILER t (state_at t k)) as [mk|] eqn:Ek; [|done].
      exfalso. apply match_at_sound in Ek as (_ & _ & HM).
      assert (Hh : t !! (length (x :: v) + 1) = Some 0x68%N).
      { subst t. rewrite <- !app_assoc.
        rewrite lookup_app_r by lia.
        replace (length (x :: v) + 1 - length (x :: v)) with 1 by lia.
        by destruct Hs as [-> | ->]. }
      refine (URL_TRAILER_before_space t (length (x :: v)) _ _ k _ _ _ _ Hh
                eq_refl _ _ HM); [|lia|lia].
      subst t. rewrite <- !app_assoc. rewrite lookup_app_r by lia.
      by rewrite Nat.sub_diag.
Qed.

Lemma sanitize_url_tail_witness :
  strip (py "Paris") = py "Paris" /\
  (py "https://" = py "http://" \/ py "https://" = py "https://") /\
  py "example.org/fr" <> [] /\
  forallb (fun x => negb (Unicode.is_space x)) (py "example.org/fr") = true /\
  absent CLEAN_CORRECT_IN_OPTION
    (py "Paris" ++ py " " ++ py "https://" ++ py "example.org/fr") = true /\
  sanitize (py "Paris" ++ py " " ++ py "https://" ++ py "example.org/fr") = py "Paris".
Proof.
  assert (H1 : strip (py "Paris") = py "Paris") by (vm_compute; reflexivity).
  assert (H2 : py "https://" = py "http://" \/ py "https://" = py "https://")
    by (right; reflexivity).
  assert (H3 : py "example.org/fr" <> []) by (vm_compute; discriminate).
  assert (H4 : forallb (fun x => negb (Unicode.is_space x)) (py "example.org/fr") = true)
    by (vm_compute; reflexivity).
  assert (H5 : absent CLEAN_CORRECT_IN_OPTION
                 (py "Paris" ++ py " " ++ py "https://" ++ py "example.org/fr") = true)
    by (vm_compute; reflexivity).
  repeat (split; [assumption|]).
  exact (sanitize_url_tail _ _ _ H1 H2 H3 H4 H5).
Defined.

(** X18: an answer fragment glued to an option is removed by the
    cleanup: from a text that neither begins nor ends with whitespace
    and holds no address at its end, followed by any whitespace, or
    none, and [Correct Answer: ] with one of the letters [A] to [D] in
    either case, the cleanup keeps the text alone. *)
Theorem sanitize_answer_fragment v sp x :
  strip v = v -> forallb Unicode.is_space sp = true -> answer_letter x = true ->
  absent URL_TRAILER v = true ->
  sanitize (v ++ sp ++ py "Correct Answer: " ++ [x]) = v.
Proof.
  intros Hv Hsp Hx Hab. unfold sanitize. cbv zeta.
  destruct (strip_ends v Hv) as [_ H2].
  destruct (answer_fragment_at_end v sp x H2 Hsp Hx) as (m & Hm & He).
  pose proof (answer_letter_not_space x Hx) as Hxs.
  set (tail := sp ++ py "Correct Answer: " ++ [x]) in *.
  rewrite (sub_last_match CLEAN_CORRECT_IN_OPTION [] v tail m);
    [|done| |exact Hm|exact He|by subst tail; destruct sp].
  - cbn [expand flat_map]. rewrite app_nil_r, Hv.
    by rewrite (sub_absent _ _ _ Hab).
  - intros k Hk.
    destruct (match_at CLEAN_CORRECT_IN_OPTION (v ++ tail) (state_at (v ++ tail) k))
      as [mk|] eqn:Ek; [|done].
    exfalso. apply match_at_sound in Ek as (_ & _ & HM). subst tail.
    apply answer_fragment_start in HM as [Hle _]; [lia|done|done].
Qed.

Lemma sanitize_answer_fragment_witness :
  strip (py "Paris") = py "Paris" /\
  forallb Unicode.is_space [] = true /\
  answer_letter 0x62%N = true /\
  absent URL_TRAILER (py "Paris") = true /\
  sanitize (py "Paris" ++ [] ++ py "Correct Answer: " ++ [0x62%N]) = py "Paris".
Proof.
  assert (H1 : strip (py "Paris") = py "Paris") by (vm_compute; reflexivity).
  assert (H2 : forallb Unicode.is_space [] = true) by reflexivity.
  assert (H3 : answer_letter 0x62%N = true) by (vm_compute; reflexivity).
  assert (H4 : absent URL_TRAILER (py "Paris") = true) by (vm_compute; reflexivity).
  repeat (split; [assumption|]).
  exact (sanitize_answer_fragment _ _ _ H1 H2 H3 H4).
Defined.

(** *** [parse_any] and [extract_text_from_docx] *)

(** X9: a file whose name ends in [.docx], in any letter case, read by
    the docx library as a document whose non-empty paragraphs are the
    lines of well-formed blocks and whose table cells are blank, parses
    to the records of the blocks. *)
Theorem docx_document_records env file_bytes filename open_document doc bs :
  endswith (lower filename) (py ".docx") = true ->
  Document env = Some open_document ->
  open_document file_bytes = Ok doc ->
  filter (fun p => nonempty p = true) (paragraphs doc) = flat_map block_lines bs ->
  forallb blank (concat (concat (tables doc))) = true ->
  Forall (fun b => wf_block b = true) bs ->
  parse_any env file_bytes filename = Ok (sort_by_number (map block_record bs)).
Proof.
  intros Hname Hdoc Hopen Hpar Htab Hwf.
  unfold parse_any. rewrite (docx_not_pdf _ Hname), Hname.
  unfold extract_text_from_docx. rewrite Hdoc, Hopen. cbn [bind].
  rewrite Hpar.
  assert (Hcells : filter (fun c => nonempty c = true)
                     (map strip (concat (concat (tables doc)))) = []).
  { revert Htab. generalize (concat (concat (tables doc))). intros cells.
    induction cells as [|c cells IH]; [done|]. cbn [forallb map].
    intros [Hc Hcs]%andb_true_iff. unfold blank in Hc. apply negb_true_iff in Hc.
    rewrite filter_cons_False by (by rewrite Hc). by apply IH. }
  rewrite Hcells, app_nil_r, join_lines_render.
  by apply parse_render.
Qed.

Lemma docx_document_records_witness :
  parse_any (mkExtractors None (Some (fun _ => Ok sample_docx))) [] (py "Exam.DOCX") =
  Ok (sort_by_number (map block_record two_blocks)).
Proof.
  apply (docx_document_records _ _ _ (fun _ => Ok sample_docx) sample_docx two_blocks);
    try reflexivity.
  repeat constructor; vm_compute; reflexivity.
Defined.

(** *** The quiz page *)

(** X10: a run of the navigator in which no button is clicked makes
    one button for each question index from [0] to [total - 1], in this
    order, each index once; a run in which buttons below [total] are
    clicked makes the buttons up to the first clicked one, stores its
    index and ends there. *)
Theorem navigator_buttons clicked total :
  navigator clicked total =
  match find clicked (seq 0 total) with
  | Some i => (seq 0 (S i), Some i)
  | None => (seq 0 total, None)
  end.
Proof.
  unfold navigator. cbv zeta. rewrite rows_buttons.
  assert (E : Nat.min total ((total + per_row - 1) / per_row * per_row) = total).
  { unfold per_row.
    pose proof (Nat.div_mod (total + 20 - 1) 20 ltac:(lia)) as Hd.
    pose proof (Nat.mod_upper_bound (total + 20 - 1) 20 ltac:(lia)) as Hm. lia. }
  rewrite E, up_to_click_seq.
  destruct (find clicked (seq 0 total)); [|done]. by rewrite Nat.sub_0_r.
Qed.

(** X11: when [order] holds each index of [base_questions] once, as
    after [list(range(n))] and after a shuffle of it, the list
    [[base_questions[i] for i in order]] raises no [IndexError] and holds
    each question once. *)
Theorem questions_in_order {A} (base_questions : list A) order :
  Permutation order (seq 0 (length base_questions)) ->
  exists questions,
    questions_in base_questions order = Some questions /\
    Permutation questions base_questions.
Proof.
  intros Hp.
  assert (Hb : Forall (fun i => i < length base_questions) order).
  { apply Forall_forall. intros i Hi. rewrite Hp in Hi.
    apply elem_of_seq in Hi. lia. }
  destruct (questions_in_map base_questions order Hb) as (qs & E & H).
  exists qs. split; [done|].
  destruct (Forall2_perm_l _ _ _ _ H Hp) as (k' & Hk & P).
  apply lookup_seq_all in Hk. by subst k'.
Qed.

Lemma questions_in_order_witness :
  Permutation [2; 0; 1] (seq 0 (length [10; 20; 30])) /\
  exists questions,
    questions_in [10; 20; 30] [2; 0; 1] = Some questions /\
    Permutation questions [10; 20; 30].
Proof.
  assert (H : Permutation [2; 0; 1] (seq 0 (length [10; 20; 30]))).
  { cbn. etrans; [apply perm_swap|]. apply perm_skip, perm_swap. }
  split; [exact H|]. exact (questions_in_order [10; 20; 30] [2; 0; 1] H).
Defined.

(** X12: in sequential order the questions are shown as parsed. *)
Theorem questions_in_sequence {A} (base_questions : list A) :
  questions_in base_questions (seq 0 (length base_questions)) = Some base_questions.
Proof.
  destruct (questions_in_map base_questions (seq 0 (length base_questions)))
    as (qs & E & H).
  { apply Forall_forall. intros i Hi. apply elem_of_seq in Hi. lia. }
  apply lookup_seq_all in H. by subst qs.
Qed.

(** X13: with at least one question, the index shown is an index of a
    question whatever index was stored, an index that is one is kept,
    and the indices that Previous and Next store are indices of
    questions too. *)
Theorem shown_index_valid idx total :
  (0 < total)%Z ->
  (0 <= shown_index idx total < total)%Z /\
  (0 <= previous_index (shown_index idx total) < total)%Z /\
  (0 <= next_index (shown_index idx total) total < total)%Z /\
  shown_index (shown_index idx total) total = shown_index idx total.
Proof. unfold shown_index, previous_index, next_index. lia. Qed.

Lemma shown_index_valid_witness :
  (0 < 3)%Z /\
  (0 <= shown_index 99 3 < 3)%Z /\
  (0 <= previous_index (shown_index 99 3) < 3)%Z /\
  (0 <= next_index (shown_index 99 3) 3 < 3)%Z /\
  shown_index (shown_index 99 3) 3 = shown_index 99 3.
Proof. split; [lia|]. apply (shown_index_valid 99 3). lia. Defined.

(** X16: every option offered for the question shown has one of the
    letters A to D and a text that is not empty, and its label begins
    with its letter, the character stored as the answer; when options
    are offered, the index of the option selected at first is the index
    of one of them. *)
Theorem radio_choices {V} (truthy : V -> bool) (same_letter : V -> string -> bool)
    (options : gmap string str) (prev_letter : option V) :
  Forall (fun o => o.1 ∈ letters /\ nonempty o.2 = true /\
                   take 1 (option_label o) = py o.1)
         (shown_options options) /\
  (default_index truthy same_letter prev_letter (shown_options options)
     < length (shown_options options) \/
   shown_options options = []).
Proof.
  split.
  - apply Forall_forall. intros o (Hl & _ & Hne)%shown_options_elem.
    split; [done|]. split; [done|]. unfold option_label.
    unfold letters in Hl.
    repeat (apply elem_of_cons in Hl as [->|Hl]; [reflexivity|]).
    by apply elem_of_nil in Hl.
  - destruct (shown_options options) as [|o opts] eqn:E; [by right|left].
    unfold default_index. destruct prev_letter as [v|]; [|cbn; lia].
    destruct (truthy v); [|cbn; lia].
    destruct (index_of same_letter v (map fst (o :: opts))) as [i|] eqn:Ei; [|cbn; lia].
    apply index_of_bound in Ei. rewrite length_map in Ei. exact Ei.
Qed.

Section Scores.
Context {V : Type} (truthy : V -> bool) (same : V -> str -> bool).

(** X14: the number of correct answers is at most the number of
    answers given, which is at most the number of questions. *)
Theorem score_bounds answers questions :
  (score truthy same answers questions).1 <= (score truthy same answers questions).2 /\
  (score truthy same answers questions).2 <= length questions.
Proof.
  pose proof (score_from_bounds truthy same answers questions (0, 0)) as H.
  unfold score. cbv zeta in H. cbn [fst snd] in H. lia.
Qed.

(** X15: the score does not depend on the order in which the questions
    are shown. *)
Theorem score_any_order answers questions questions' :
  Permutation questions questions' ->
  score truthy same answers questions = score truthy same answers questions'.
Proof. intros H. by apply score_from_perm. Qed.

End Scores.

Lemma score_any_order_witness :
  Permutation (map block_record two_blocks) (rev (map block_record two_blocks)) /\
  score nonempty (fun v s => bool_decide (v = s)) sample_answers
        (map block_record two_blocks) =
  score nonempty (fun v s => bool_decide (v = s)) sample_answers
        (rev (map block_record two_blocks)).
Proof.
  assert (H : Permutation (map block_record two_blocks)
                          (rev (map block_record two_blocks)))
    by apply perm_swap.
  split; [exact H|]. exact (score_any_order _ _ _ _ _ H).
Defined.

End Extras.
